(** * pyclaw: the classic 1-D wave-propagation kernels and the step driver

    A shallow embedding of [src/pyclaw/classic/solver_cy.pyx]: the Cython
    kernels [godunov_update_compiled], [compute_max_wave_speed_compiled] and
    [compute_correction_fluxes_compiled], their NumPy fallbacks, the
    dispatching wrappers, and the methods [ClawSolver.step] and
    [ClawSolver._set_mthlim]; further the Python kernel of
    [ClawSolver1D.step_hyperbolic] from its loop limits on, and the methods
    [ClawSolver._set_method], [ClawSolver.setup] and [step_hyperbolic] of the
    solvers for one, two and three dimensions as sequences of calls of
    collaborators that are not looked into (the base solver, the state, the
    boundary conditions, the Fortran routines).

    Conventions of the embedding.
    - A [np.float64_t] is a value of an arbitrary type [F] that carries the
      operations the kernels use (class [Float64]).  Results that only follow
      the data flow hold for every such [F]; results on maxima and on sums
      assume the laws of exact arithmetic (classes [OrderLaws], [RingLaws])
      and are instantiated at the rationals [Qc].  What the code does with
      a NaN, which these laws exclude, is evaluated on [nan_qc], the
      rationals with a NaN.
    - A C [int] or Python [int] is a [Z]; the value of an [unsigned int]
      expression is reduced modulo [2^32] ([to_uint]).
    - A NumPy array of rank 1, 2, 3 is a list, a list of rows, a list of
      planes.  Bounds checking is switched off in the compiled kernels, so an
      access outside an array has no defined result there: it is the
      fault [OutOfBounds].  A Python exception is the fault [Raised].
    - A function that mutates an array in place returns the new array.
    - A method that calls collaborators is a computation that changes the
      attributes it works on and records its calls ([driver], [method]);
      the theorems on such methods hold for all collaborators, or for those
      that keep the attributes named in the statement. *)

From stdpp Require Import base numbers option list list_numbers strings pretty.
From Stdlib Require Import QArith Qcanon Ring.

Local Open Scope Z_scope.

(** ** Scalars *)

(** The operations on [double] values that occur in the source. *)
Class Float64 (F : Type) := {
  f_zero : F;                 (* 0.0 *)
  f_half : F;                 (* 0.5 *)
  f_one : F;                  (* 1.0 *)
  f_two : F;                  (* 2.0 *)
  f_add : F → F → F;
  f_sub : F → F → F;
  f_mul : F → F → F;
  f_div : F → F → F;
  f_neg : F → F;
  f_abs : F → F;
  f_lt : F → F → bool;        (* a < b *)
  f_le : F → F → bool;        (* a <= b *)
}.

Declare Scope flt_scope.
Delimit Scope flt_scope with flt.
Notation "a + b" := (f_add a b) : flt_scope.
Notation "a - b" := (f_sub a b) : flt_scope.
Notation "a * b" := (f_mul a b) : flt_scope.
Notation "a / b" := (f_div a b) : flt_scope.
Notation "- a" := (f_neg a) : flt_scope.
Notation "a <? b" := (f_lt a b) : flt_scope.
Notation "a <=? b" := (f_le a b) : flt_scope.

(** [max(a, b)] on two C doubles, as Cython expands the builtin and as
    Python evaluates it: the later argument wins only when it is strictly
    greater, [b if b > a else a]. *)
Definition pymax `{Float64 F} (a b : F) : F :=
  if (a <? b)%flt then b else a.

(** [max(a, b, c)]: the arguments are compared from left to right. *)
Definition pymax3 `{Float64 F} (a b c : F) : F := pymax (pymax a b) c.

(** The conditional expression [-1 if x < 0 else 1 if x > 0 else 0],
    converted to [double] on assignment. *)
Definition sign_expr `{Float64 F} (x : F) : F :=
  if (x <? f_zero)%flt then (- f_one)%flt
  else if (f_zero <? x)%flt then f_one else f_zero.

(** Exact rational arithmetic, the idealisation of [double]. *)
#[export] Instance Qc_float64 : Float64 Qc := {|
  f_zero := Q2Qc 0;
  f_half := Q2Qc (1 # 2);
  f_one := Q2Qc 1;
  f_two := Q2Qc 2;
  f_add := Qcplus;
  f_sub := Qcminus;
  f_mul := Qcmult;
  f_div := Qcdiv;
  f_neg := Qcopp;
  f_abs := λ a, match Qccompare a (Q2Qc 0) with Lt => Qcopp a | _ => a end;
  f_lt := λ a b, match Qccompare a b with Lt => true | _ => false end;
  f_le := λ a b, match Qccompare a b with Gt => false | _ => true end;
|}.

(** The rationals with one more value, NaN ([None]): every operation passes
    a NaN on and every comparison with a NaN is false, as on [double]. *)
Definition nan_qc : Type := option Qc.

Definition nan_lift1 (op : Qc → Qc) (a : nan_qc) : nan_qc := op <$> a.

Definition nan_lift2 (op : Qc → Qc → Qc) (a b : nan_qc) : nan_qc :=
  match a, b with
  | Some x, Some y => Some (op x y)
  | _, _ => None
  end.

Definition nan_compare (test : Qc → Qc → bool) (a b : nan_qc) : bool :=
  match a, b with
  | Some x, Some y => test x y
  | _, _ => false
  end.

Definition nan_float64 : Float64 nan_qc := {|
  f_zero := Some f_zero;
  f_half := Some f_half;
  f_one := Some f_one;
  f_two := Some f_two;
  f_add := nan_lift2 f_add;
  f_sub := nan_lift2 f_sub;
  f_mul := nan_lift2 f_mul;
  f_div := nan_lift2 f_div;
  f_neg := nan_lift1 f_neg;
  f_abs := nan_lift1 f_abs;
  f_lt := nan_compare f_lt;
  f_le := nan_compare f_le;
|}.

(** The order laws used for maxima: [<] is a strict total order and [<=] its
    reflexive closure. *)
Class OrderLaws (F : Type) `{Float64 F} : Prop := {
  f_lt_irrefl : ∀ a : F, (a <? a)%flt = false;
  f_lt_trans : ∀ a b c : F,
    (a <? b)%flt = true → (b <? c)%flt = true → (a <? c)%flt = true;
  f_lt_total : ∀ a b : F,
    (a <? b)%flt = false → (b <? a)%flt = false → a = b;
  f_le_lt : ∀ a b : F, (a <=? b)%flt = negb (b <? a)%flt;
}.

(** The ring laws used for sums. *)
Class RingLaws (F : Type) `{Float64 F} : Prop := {
  f_ring : ring_theory f_zero f_one f_add f_mul f_sub f_neg (@eq F);
}.

(** ** Outcomes *)

Inductive fault : Type :=
  | OutOfBounds (array : string) (index : Z)
      (* an access outside [array], bounds checking being off *)
  | Uninitialised (array : string) (index : Z)
      (* a read of a cell of [np.empty] that was never written *)
  | Raised (exn : string).
      (* a Python exception *)

Inductive result (A : Type) : Type :=
  | Ok (a : A)
  | Fault (e : fault).
Arguments Ok {A} a.
Arguments Fault {A} e.

#[export] Instance result_ret : MRet result := λ A a, Ok a.
#[export] Instance result_bind : MBind result := λ A B k r,
  match r with
  | Ok a => k a
  | Fault e => Fault e
  end.

(** ** Integers and loops *)

(** The value of an [unsigned int] expression. *)
Definition to_uint (z : Z) : Z := z mod 2 ^ 32.

(** The values a C [int] can hold. *)
Definition int_range (z : Z) : Prop := - 2 ^ 31 ≤ z < 2 ^ 31.

(** [for i in idx: s = body(i, s)], stopping at the first fault. *)
Fixpoint for_each {St : Type} (idx : list Z) (body : Z → St → result St)
    (s : St) : result St :=
  match idx with
  | [] => Ok s
  | i :: rest => s' ← body i s; for_each rest body s'
  end.

(** [for i in range(lo, hi)]. *)
Definition for_range {St : Type} (lo hi : Z) (body : Z → St → result St)
    (s : St) : result St :=
  for_each (seqZ lo (hi - lo)) body s.

(** [for i in range(lo, hi)] for a loop variable that is declared
    [unsigned int]: the loop runs in the type of its variable, to which both
    bounds are converted. *)
Definition for_range_uint {St : Type} (lo hi : Z)
    (body : Z → St → result St) (s : St) : result St :=
  for_range (to_uint lo) (to_uint hi) body s.

(** ** Arrays *)

(** Element [i] of a list, for an integer index. *)
Definition lookupZ {A : Type} (l : list A) (i : Z) : option A :=
  if bool_decide (0 ≤ i) then l !! Z.to_nat i else None.

(** [a[i]] in a compiled kernel. *)
Definition load1 {A : Type} (name : string) (a : list A) (i : Z) : result A :=
  match lookupZ a i with
  | Some x => Ok x
  | None => Fault (OutOfBounds name i)
  end.

(** [a[i] = x] in a compiled kernel. *)
Definition store1 {A : Type} (name : string) (a : list A) (i : Z) (x : A)
    : result (list A) :=
  match lookupZ a i with
  | Some _ => Ok (<[Z.to_nat i := x]> a)
  | None => Fault (OutOfBounds name i)
  end.

(** [a[i, j]] in a compiled kernel. *)
Definition load2 {A : Type} (name : string) (a : list (list A)) (i j : Z)
    : result A :=
  row ← load1 name a i; load1 name row j.

(** [a[i, j] = x] in a compiled kernel. *)
Definition store2 {A : Type} (name : string) (a : list (list A)) (i j : Z)
    (x : A) : result (list (list A)) :=
  row ← load1 name a i;
  row' ← store1 name row j x;
  store1 name a i row'.

(** [a[i, j, k]] in a compiled kernel. *)
Definition load3 {A : Type} (name : string) (a : list (list (list A)))
    (i j k : Z) : result A :=
  plane ← load1 name a i; load2 name plane j k.

(** [a.shape[1]] of an array of rank 3 with at least one plane. *)
Definition shape1 {A : Type} (a : list (list (list A))) : Z :=
  match a with
  | [] => 0
  | plane :: _ => Z.of_nat (length plane)
  end.

(** ** The first-order update *)

Definition use_cython : bool := true.

Section Kernels.
Context {F : Type} `{Float64 F}.

(** The body of the inner loop of [godunov_update_compiled], at equation
    [m] and interface [n]: two in-place subtractions. *)
Definition godunov_update_interface (dtdx : list F)
    (apdq amdq : list (list F)) (m n : Z) (q : list (list F))
    : result (list (list F)) :=
  (* q[m,n] -= dtdx[n] * apdq[m, n - 1] *)
  d ← load1 "dtdx" dtdx n;
  a ← load2 "apdq" apdq m (to_uint (n - 1));
  x ← load2 "q" q m n;
  q ← store2 "q" q m n (x - d * a)%flt;
  (* q[m,n - 1] -= dtdx[n - 1] * amdq[m,n - 1] *)
  d ← load1 "dtdx" dtdx (to_uint (n - 1));
  b ← load2 "amdq" amdq m (to_uint (n - 1));
  y ← load2 "q" q m (to_uint (n - 1));
  store2 "q" q m (to_uint (n - 1)) (y - d * b)%flt.

(** [godunov_update_compiled]: [for m in range(num_eqn)],
    [for n in range(LL, UL)], with [m] and [n] unsigned. *)
Definition godunov_update_compiled (dtdx : list F) (apdq amdq : list (list F))
    (num_eqn LL UL : Z) (q : list (list F)) : result (list (list F)) :=
  for_range_uint 0 num_eqn (λ m,
    for_range_uint LL UL (λ n,
      godunov_update_interface dtdx apdq amdq m n)) q.

(** *** NumPy expressions of rank 1, for the fallback branches *)

(** A bound of the slice [a[i:j]] of an array of length [len]: a negative
    bound counts from the end, and the result is clipped to [0 .. len]. *)
Definition slice_bound (len i : Z) : Z :=
  if bool_decide (i < 0) then Z.max (i + len) 0 else Z.min i len.

(** [a[i:j]]. *)
Definition slice {A : Type} (a : list A) (i j : Z) : list A :=
  let len := Z.of_nat (length a) in
  let lo := slice_bound len i in
  let hi := slice_bound len j in
  take (Z.to_nat (hi - lo)) (drop (Z.to_nat lo) a).

(** [a[i:j] = v] for [v] of the length of the slice. *)
Definition set_slice {A : Type} (a : list A) (i j : Z) (v : list A) : list A :=
  let len := Z.of_nat (length a) in
  let lo := slice_bound len i in
  let hi := Z.max lo (slice_bound len j) in
  take (Z.to_nat lo) a ++ v ++ drop (Z.to_nat hi) a.

(** [a[i]] for a Python integer [i]: a negative index counts from the end,
    and an index outside the array raises [IndexError]. *)
Definition np_item {A : Type} (a : list A) (i : Z) : result A :=
  let len := Z.of_nat (length a) in
  match lookupZ a (if bool_decide (i < 0) then i + len else i) with
  | Some x => Ok x
  | None => Fault (Raised "IndexError")
  end.

(** [a[i] = x] for a Python integer [i]. *)
Definition np_set_item {A : Type} (a : list A) (i : Z) (x : A)
    : result (list A) :=
  let len := Z.of_nat (length a) in
  let k := if bool_decide (i < 0) then i + len else i in
  match lookupZ a k with
  | Some _ => Ok (<[Z.to_nat k := x]> a)
  | None => Fault (Raised "IndexError")
  end.

(** [xs op ys], elementwise, an operand of length 1 being stretched. *)
Definition broadcast (op : F → F → F) (xs ys : list F) : result (list F) :=
  if bool_decide (length xs = length ys) then Ok (zip_with op xs ys)
  else match xs, ys with
       | [x], _ => Ok (op x <$> ys)
       | _, [y] => Ok ((λ x, op x y) <$> xs)
       | _, _ => Fault (Raised "ValueError")
       end.

(** [a[i:j] op= rhs]: the right-hand side must have the length of the slice
    or length 1. *)
Definition iop_slice (op : F → F → F) (a : list F) (i j : Z) (rhs : list F)
    : result (list F) :=
  let v := slice a i j in
  if bool_decide (length rhs = length v)
  then Ok (set_slice a i j (zip_with op v rhs))
  else match rhs with
       | [y] => Ok (set_slice a i j ((λ x, op x y) <$> v))
       | _ => Fault (Raised "ValueError")
       end.

(** [np.max(a)]: the largest element; an empty array raises. *)
Definition np_max (a : list F) : result F :=
  match a with
  | [] => Fault (Raised "ValueError")
  | x :: rest => Ok (foldl pymax x rest)
  end.

(** The fallback branch of [godunov_update]: two slice subtractions per
    equation. *)
Definition godunov_update_numpy (dtdx : list F) (apdq amdq : list (list F))
    (num_eqn LL UL : Z) (q : list (list F)) : result (list (list F)) :=
  for_range 0 num_eqn (λ m q,
    (* q[m,LL:UL] -= dtdx[LL:UL]*apdq[m,LL-1:UL-1] *)
    row ← np_item q m;
    ap ← np_item apdq m;
    rhs ← broadcast f_mul (slice dtdx LL UL) (slice ap (LL - 1) (UL - 1));
    row ← iop_slice f_sub row LL UL rhs;
    q ← np_set_item q m row;
    (* q[m,LL-1:UL-1] -= dtdx[LL-1:UL-1]*amdq[m,LL-1:UL-1] *)
    row ← np_item q m;
    am ← np_item amdq m;
    rhs ← broadcast f_mul (slice dtdx (LL - 1) (UL - 1))
                          (slice am (LL - 1) (UL - 1));
    row ← iop_slice f_sub row (LL - 1) (UL - 1) rhs;
    np_set_item q m row) q.

Definition godunov_update (dtdx : list F) (apdq amdq : list (list F))
    (num_eqn LL UL : Z) (q : list (list F)) : result (list (list F)) :=
  if use_cython
  then godunov_update_compiled dtdx apdq amdq num_eqn LL UL q
  else godunov_update_numpy dtdx apdq amdq num_eqn LL UL q.

(** ** The CFL number *)

(** [a[i]] for a signed C index in a compiled kernel: a negative index is
    wrapped around once, and the access is not checked. *)
Definition load1_signed {A : Type} (name : string) (a : list A) (i : Z)
    : result A :=
  load1 name a (if bool_decide (i < 0) then i + Z.of_nat (length a) else i).

Definition load2_signed {A : Type} (name : string) (a : list (list A))
    (i j : Z) : result A :=
  row ← load1_signed name a i; load1_signed name row j.

(** The running maxima [(cfl, smax1, smax2)] of the compiled kernel. *)
Definition cfl_state : Type := F * F * F.

Definition compute_max_wave_speed_compiled (wave : list (list (list F)))
    (dtdx : list F) (s : list (list F)) (LL UL : Z) : result F :=
  let cfl := f_zero in
  (* smax1 = dtdx[LL] * s[0,LL - 1] *)
  d ← load1_signed "dtdx" dtdx LL;
  v ← load2_signed "s" s 0 (LL - 1);
  let smax1 := (d * v)%flt in
  (* smax2 = -dtdx[LL - 1] * s[0,LL - 1] *)
  d ← load1_signed "dtdx" dtdx (LL - 1);
  v ← load2_signed "s" s 0 (LL - 1);
  let smax2 := (- d * v)%flt in
  st ← for_range_uint 0 (shape1 wave) (λ mw,
    for_range_uint LL UL (λ n (st : cfl_state),
      let '(cfl, smax1, smax2) := st in
      (* smax1 = max(smax1, dtdx[n] * s[mw,n - 1]) *)
      d ← load1 "dtdx" dtdx n;
      v ← load2 "s" s mw (to_uint (n - 1));
      let smax1 := pymax smax1 (d * v)%flt in
      (* smax2 = max(smax2, -dtdx[n - 1] * s[mw,n - 1]) *)
      d ← load1 "dtdx" dtdx (to_uint (n - 1));
      v ← load2 "s" s mw (to_uint (n - 1));
      let smax2 := pymax smax2 (- d * v)%flt in
      (* cfl = max(cfl, smax1, smax2) *)
      mret (pymax3 cfl smax1 smax2, smax1, smax2))) (cfl, smax1, smax2);
  mret st.1.1.

(** The fallback branch of [compute_max_wave_speed]. *)
Definition compute_max_wave_speed_numpy (wave : list (list (list F)))
    (dtdx : list F) (s : list (list F)) (LL UL : Z) : result F :=
  for_range 0 (shape1 wave) (λ mw cfl,
    (* smax1 = np.max(dtdx[LL:UL]*s[mw,LL-1:UL-1]) *)
    row ← np_item s mw;
    p ← broadcast f_mul (slice dtdx LL UL) (slice row (LL - 1) (UL - 1));
    smax1 ← np_max p;
    (* smax2 = np.max(-dtdx[LL-1:UL-1]*s[mw,LL-1:UL-1]) *)
    p ← broadcast f_mul (f_neg <$> slice dtdx (LL - 1) (UL - 1))
                        (slice row (LL - 1) (UL - 1));
    smax2 ← np_max p;
    mret (pymax3 cfl smax1 smax2)) f_zero.

Definition compute_max_wave_speed (wave : list (list (list F)))
    (dtdx : list F) (s : list (list F)) (LL UL : Z) : result F :=
  if use_cython
  then compute_max_wave_speed_compiled wave dtdx s LL UL
  else compute_max_wave_speed_numpy wave dtdx s LL UL.

(** ** The correction fluxes *)

(** [np.zeros((rows, cols))]. *)
Definition np_zeros2 (rows cols : Z) : result (list (list F)) :=
  if bool_decide (rows < 0 ∨ cols < 0) then Fault (Raised "ValueError")
  else Ok (replicate (Z.to_nat rows) (replicate (Z.to_nat cols) f_zero)).

(** [np.empty(n)]: [n] cells without a value ([None]). *)
Definition np_empty (n : Z) : result (list (option F)) :=
  if bool_decide (n < 0) then Fault (Raised "ValueError")
  else Ok (replicate (Z.to_nat n) None).

(** A read of a cell of an array made by [np.empty]. *)
Definition load_cell (name : string) (a : list (option F)) (i : Z)
    : result F :=
  c ← load1 name a i;
  match c with
  | Some x => Ok x
  | None => Fault (Uninitialised name i)
  end.

(** An access to the array [ssign]. *)
Inductive access : Type :=
  | Write (index : Z)
  | Read (index : Z).

(** How the compiled kernel reaches [ssign].  The kernel itself is written
    once, over any such store: [strict_store] is the array in memory, and
    [recording_store] keeps the list of the accesses instead of the cells
    (a read yields 0.0), which shows every access the loops make, also past
    the first one that has no defined result. *)
Record sign_store (S : Type) : Type := SignStore {
  ssign_alloc : Z → result S;             (* ssign = np.empty(n) *)
  ssign_none : S;                         (* ssign declared, not allocated *)
  ssign_write : S → Z → F → result S;     (* ssign[i] = x *)
  ssign_read : S → Z → result (F * S);    (* ssign[i] *)
}.
Arguments ssign_alloc {S} _ _.
Arguments ssign_none {S} _.
Arguments ssign_write {S} _ _ _ _.
Arguments ssign_read {S} _ _ _.

Definition strict_store : sign_store (list (option F)) := {|
  ssign_alloc := np_empty;
  ssign_none := [];
  ssign_write := λ a i x, store1 "ssign" a i (Some x);
  ssign_read := λ a i, x ← load_cell "ssign" a i; mret (x, a);
|}.

Definition recording_store : sign_store (list access) := {|
  ssign_alloc := λ n,
    if bool_decide (n < 0) then Fault (Raised "ValueError") else Ok [];
  ssign_none := [];
  ssign_write := λ log i _, Ok (log ++ [Write i]);
  ssign_read := λ log i, Ok (f_zero, log ++ [Read i]);
|}.

(** The body of the first inner loop of the compiled kernel, at wave family
    [mw] and interface [n], on the work arrays [(sabs, om, ssign)]. *)
Definition correction_work_step {S : Type} (store : sign_store S)
    (s : list (list F)) (dtdxave : list (option F)) (LL fwave mw n : Z)
    (work : list (option F) * list (option F) * S)
    : result (list (option F) * list (option F) * S) :=
  let '(sabs, om, ssign) := work in
  (* sabs[n - LL] = abs(s[mw,n - 1]) *)
  v ← load2 "s" s mw (to_uint (n - 1));
  sabs ← store1 "sabs" sabs (to_uint (n - LL)) (Some (f_abs v));
  (* om[n - LL] = 1.0 - sabs[n - LL] * dtdxave[n - LL] *)
  a ← load_cell "sabs" sabs (to_uint (n - LL));
  d ← load_cell "dtdxave" dtdxave (to_uint (n - LL));
  om ← store1 "om" om (to_uint (n - LL)) (Some (f_one - a * d)%flt);
  (* if fwave:
       ssign[n] = -1 if s[mw,n - 1] < 0 else 1 if s[mw,n - 1] > 0 else 0 *)
  ssign ← (if bool_decide (fwave ≠ 0)
           then v ← load2 "s" s mw (to_uint (n - 1));
                ssign_write store ssign n (sign_expr v)
           else Ok ssign);
  mret (sabs, om, ssign).

(** The body of the second inner loop, at equation [m], wave family [mw] and
    interface [n], on [f] and the store of [ssign]. *)
Definition correction_flux_step {S : Type} (store : sign_store S)
    (wave : list (list (list F))) (sabs om : list (option F))
    (LL fwave m mw n : Z) (fs : list (list F) * S)
    : result (list (list F) * S) :=
  let '(f, ssign) := fs in
  if bool_decide (fwave ≠ 0)
  then
    (* f[m, n] += 0.5 * ssign[n - LL] * om[n - LL] * wave[m, mw, n-1] *)
    gs ← ssign_read store ssign (to_uint (n - LL));
    let '(g, ssign) := gs in
    o ← load_cell "om" om (to_uint (n - LL));
    w ← load3 "wave" wave m mw (to_uint (n - 1));
    x ← load2 "f" f m n;
    f ← store2 "f" f m n (x + f_half * g * o * w)%flt;
    mret (f, ssign)
  else
    (* f[m, n] += 0.5 * sabs[n - LL] * om[n - LL] * wave[m, mw, n-1] *)
    a ← load_cell "sabs" sabs (to_uint (n - LL));
    o ← load_cell "om" om (to_uint (n - LL));
    w ← load3 "wave" wave m mw (to_uint (n - 1));
    x ← load2 "f" f m n;
    f ← store2 "f" f m n (x + f_half * a * o * w)%flt;
    mret (f, ssign).

(** The body of the loop over the wave families: the two inner loops. *)
Definition correction_family_step {S : Type} (store : sign_store S)
    (wave : list (list (list F))) (s : list (list F))
    (dtdxave : list (option F)) (num_eqn LL UL fwave mw : Z)
    (st : list (list F) * (list (option F) * list (option F) * S))
    : result (list (list F) * (list (option F) * list (option F) * S)) :=
  let '(f, work) := st in
  work ← for_range_uint LL UL (λ n,
    correction_work_step store s dtdxave LL fwave mw n) work;
  let '(sabs, om, ssign) := work in
  fs ← for_range_uint 0 num_eqn (λ m,
    for_range_uint LL UL (λ n,
      correction_flux_step store wave sabs om LL fwave m mw n)) (f, ssign);
  let '(f, ssign) := fs in
  mret (f, (sabs, om, ssign)).

(** [compute_correction_fluxes_compiled] over a store for [ssign]; it
    returns [f] and the final store. *)
Definition compute_correction_fluxes_on {S : Type} (store : sign_store S)
    (wave : list (list (list F))) (s : list (list F)) (dtdx : list F)
    (num_eqn num_ghost num_cells LL UL fwave : Z)
    : result (list (list F) * S) :=
  f ← np_zeros2 num_eqn (num_cells + 2 * num_ghost);
  sabs ← np_empty (UL - LL);
  om ← np_empty (UL - LL);
  dtdxave ← np_empty (UL - LL);
  (* if fwave: ssign = np.empty(UL-LL, dtype=np.float64) *)
  ssign ← (if bool_decide (fwave ≠ 0) then ssign_alloc store (UL - LL)
           else Ok (ssign_none store));
  dtdxave ← for_range_uint LL UL (λ i dtdxave,
    (* dtdxave[i - LL] = 0.5 * (dtdx[i - 1] + dtdx[i]) *)
    a ← load1 "dtdx" dtdx (to_uint (i - 1));
    b ← load1 "dtdx" dtdx i;
    store1 "dtdxave" dtdxave (to_uint (i - LL)) (Some (f_half * (a + b))%flt))
    dtdxave;
  st ← for_range_uint 0 (shape1 wave) (λ mw,
    correction_family_step store wave s dtdxave num_eqn LL UL fwave mw)
    (f, (sabs, om, ssign));
  mret (st.1, st.2.2).

(** The compiled kernel: it returns [f]. *)
Definition compute_correction_fluxes_compiled (wave : list (list (list F)))
    (s : list (list F)) (dtdx : list F)
    (num_eqn num_ghost num_cells LL UL fwave : Z) : result (list (list F)) :=
  fs ← compute_correction_fluxes_on strict_store wave s dtdx
         num_eqn num_ghost num_cells LL UL fwave;
  mret fs.1.

(** The accesses to [ssign] that the loops of the compiled kernel make, in
    order. *)
Definition ssign_accesses (wave : list (list (list F)))
    (s : list (list F)) (dtdx : list F)
    (num_eqn num_ghost num_cells LL UL fwave : Z) : result (list access) :=
  fs ← compute_correction_fluxes_on recording_store wave s dtdx
         num_eqn num_ghost num_cells LL UL fwave;
  mret fs.2.

(** The fallback branch of [compute_correction_fluxes]. *)
Definition compute_correction_fluxes_numpy (wave : list (list (list F)))
    (s : list (list F)) (dtdx : list F)
    (num_eqn num_ghost num_cells LL UL : Z) (fwave : bool)
    : result (list (list F)) :=
  f ← np_zeros2 num_eqn (num_cells + 2 * num_ghost);
  (* dtdxave = 0.5 * (dtdx[LL-1:UL-1] + dtdx[LL:UL]) *)
  sums ← broadcast f_add (slice dtdx (LL - 1) (UL - 1)) (slice dtdx LL UL);
  let dtdxave := f_mul f_half <$> sums in
  for_range 0 (shape1 wave) (λ mw f,
    row ← np_item s mw;
    (* sabs = np.abs(s[mw,LL-1:UL-1]) *)
    let sabs := f_abs <$> slice row (LL - 1) (UL - 1) in
    (* om = 1.0 - sabs*dtdxave[:UL-LL] *)
    prod ← broadcast f_mul sabs (slice dtdxave 0 (UL - LL));
    let om := f_sub f_one <$> prod in
    (* ssign = np.sign(s[mw,LL-1:UL-1]) *)
    let ssign := sign_expr <$> slice row (LL - 1) (UL - 1) in
    for_range 0 num_eqn (λ m f,
      (* f[m,LL:UL] += 0.5 * (ssign | sabs) * om * wave[m,mw,LL-1:UL-1] *)
      plane ← np_item wave m;
      w ← np_item plane mw;
      t ← broadcast f_mul (f_mul f_half <$> (if fwave then ssign else sabs)) om;
      rhs ← broadcast f_mul t (slice w (LL - 1) (UL - 1));
      frow ← np_item f m;
      frow ← iop_slice f_add frow LL UL rhs;
      np_set_item f m frow) f) f.

(** The wrapper; [fwave] is the Python boolean [solver.fwave], which the
    compiled kernel receives as the C integer 1 or 0. *)
Definition compute_correction_fluxes (wave : list (list (list F)))
    (s : list (list F)) (dtdx : list F)
    (num_eqn num_ghost num_cells LL UL : Z) (fwave : bool)
    : result (list (list F)) :=
  if use_cython
  then compute_correction_fluxes_compiled wave s dtdx num_eqn num_ghost
         num_cells LL UL (if fwave then 1 else 0)
  else compute_correction_fluxes_numpy wave s dtdx num_eqn num_ghost
         num_cells LL UL fwave.

End Kernels.

(** ** The step driver, [ClawSolver.step] *)

Section Driver.
Context {F : Type} `{Float64 F}.

(** What the driver does not look into: [Src] is the type of the source-term
    routines that attribute [step_source] may hold, [Cfl] the type of the
    CFL tracker [solver.cfl], and [Env] everything else that the
    collaborators read or change (the solution, the grid, the other
    attributes of the solver). *)
Context {Src Cfl Env : Type}.

(** The attributes of the solver that [step] reads, with the rest. *)
Record world : Type := World {
  source_split : Z;
  step_source : option Src;
  cfl_max : F;
  dt : F;
  cfl : Cfl;
  env : Env;
}.

(** The collaborators.  [get_dt] and the CFL tracker belong to the base
    solver, [step_hyperbolic] to the subclass, the source-term routine to the
    user.  Each one but the tracker may change every attribute and may raise. *)
Record collaborators : Type := Collaborators {
  get_dt : world → F → F → bool → result world;
  set_global_max : F → Cfl → Cfl;
  get_cached_max : Cfl → F;
  step_hyperbolic : world → result world;
  run_source : Src → world → F → result world;
}.

(** The calls that [step] makes, in order. *)
Inductive call : Type :=
  | CallGetDt
  | CallSetGlobalMax (v : F)
  | CallStepSource (routine : Src) (h : F)
  | CallStepHyperbolic.

(** A computation of the driver: it changes the world, logs its calls, and
    yields a value or a fault. *)
Record driver (A : Type) : Type := Driver {
  run : world → result (A * world * list call);
}.
Arguments Driver {A} run.
Arguments run {A} d w.

#[export] Instance driver_ret : MRet driver := λ A a,
  Driver (λ w, Ok (a, w, [])).
#[export] Instance driver_bind : MBind driver := λ A B k d,
  Driver (λ w,
    r ← run d w;
    let '(a, w1, log1) := r in
    r ← run (k a) w1;
    let '(b, w2, log2) := r in
    Ok (b, w2, log1 ++ log2)).

Variable ext : collaborators.

(** Reading an attribute. *)
Definition attr {A : Type} (field : world → A) : driver A :=
  Driver (λ w, Ok (field w, w, [])).

(** Calling a collaborator. *)
Definition invoke (c : call) (body : world → result world) : driver () :=
  Driver (λ w, w' ← body w; Ok ((), w', [c])).

(** [self.step_source(self, solution.states[0], h)]: the attribute is read
    at the call; calling [None] raises. *)
Definition call_step_source (h : F) : driver () :=
  src ← attr step_source;
  match src with
  | Some routine =>
      invoke (CallStepSource routine h) (λ w, run_source ext routine w h)
  | None => Driver (λ _, Fault (Raised "TypeError"))
  end.

(** The first part of [step], up to the hyperbolic sub-step. *)
Definition step_to_hyperbolic (take_one_step : bool) (tstart tend : F)
    : driver () :=
  (* self.get_dt(solution.t,tstart,tend,take_one_step) *)
  invoke CallGetDt (λ w, get_dt ext w tstart tend take_one_step);;
  (* self.cfl.set_global_max(0.) *)
  invoke (CallSetGlobalMax f_zero) (λ w,
    Ok (World (source_split w) (step_source w) (cfl_max w) (dt w)
              (set_global_max ext f_zero (cfl w)) (env w)));;
  (* if self.source_split == 2 and self.step_source is not None: *)
  split ← attr source_split;
  src ← attr step_source;
  (if bool_decide (split = 2) && bool_decide (is_Some src)
   then h ← attr (λ w, dt w / f_two)%flt; call_step_source h
   else mret ());;
  (* self.step_hyperbolic(solution) *)
  invoke CallStepHyperbolic (step_hyperbolic ext).

(** The second part of [step], from the CFL check on. *)
Definition step_after_hyperbolic : driver bool :=
  (* if self.cfl.get_cached_max() >= self.cfl_max: return False *)
  c ← attr (λ w, get_cached_max ext (cfl w));
  cmax ← attr cfl_max;
  if (cmax <=? c)%flt then mret false
  else
    src ← attr step_source;
    (if bool_decide (is_Some src)
     then
       (* Strang splitting *)
       split ← attr source_split;
       (if bool_decide (split = 2)
        then h ← attr (λ w, dt w / f_two)%flt; call_step_source h
        else mret ());;
       (* Godunov splitting *)
       split ← attr source_split;
       (if bool_decide (split = 1)
        then h ← attr dt; call_step_source h
        else mret ())
     else mret ());;
    mret true.

Definition step (take_one_step : bool) (tstart tend : F) : driver bool :=
  step_to_hyperbolic take_one_step tstart tend;;
  step_after_hyperbolic.

(** The source-term calls of a log. *)
Definition source_calls (log : list call) : list (Src * F) :=
  omap (λ c, match c with
             | CallStepSource routine h => Some (routine, h)
             | _ => None
             end) log.

(** A collaborator leaves the splitting configuration and the step size as
    they are. *)
Definition keeps_config (body : world → result world) : Prop :=
  ∀ w w', body w = Ok w' →
    source_split w' = source_split w ∧ step_source w' = step_source w ∧
    dt w' = dt w.

End Driver.

Arguments world : clear implicits.
Arguments collaborators : clear implicits.
Arguments call : clear implicits.
Arguments Driver {F Src Cfl Env A} run.
Arguments run {F Src Cfl Env A} d w.

(** ** The limiter list, [ClawSolver._set_mthlim] *)

(** A Python value: a list of values, or anything else. *)
#[warnings="-register-all"]
Inductive value (A : Type) : Type :=
  | Atom (a : A)
  | PyList (items : list (value A)).
Arguments Atom {A} a.
Arguments PyList {A} items.

(** [l * n] on a list. *)
Definition list_times {A : Type} (l : list A) (n : Z) : list A :=
  mjoin (replicate (Z.to_nat n) l).

(** The method sets attribute [_mthlim] and may raise; it returns the new
    value of the attribute and the outcome.  [limiters] and [num_waves] are
    the attributes it reads. *)
Definition _set_mthlim {A : Type} (limiters : value A) (num_waves : Z)
    : list (value A) * result () :=
  (* self._mthlim = self.limiters
     if not isinstance(self.limiters,list): self._mthlim=[self._mthlim] *)
  let mthlim :=
    match limiters with
    | PyList items => items
    | Atom _ => [limiters]
    end in
  (* if len(self._mthlim)==1: self._mthlim = self._mthlim * self.num_waves *)
  let mthlim :=
    if bool_decide (Z.of_nat (length mthlim) = 1)
    then list_times mthlim num_waves else mthlim in
  (* if len(self._mthlim)!=self.num_waves: raise Exception(...) *)
  if bool_decide (Z.of_nat (length mthlim) ≠ num_waves)
  then (mthlim, Fault (Raised "Exception"))
  else (mthlim, Ok ()).

(** ** Closed forms *)

Section Closed_forms.
Context {F : Type} `{Float64 F}.

(** Element [i] of an array that is known to have one. *)
Definition get (a : list F) (i : Z) : F := default f_zero (lookupZ a i).

(** Row [i] of an array of rank 2. *)
Definition row_of (a : list (list F)) (i : Z) : list F :=
  default [] (lookupZ a i).

(** Element [(i, j)] of an array of rank 2. *)
Definition lookup2 (a : list (list F)) (i j : Z) : option F :=
  row ← lookupZ a i; lookupZ row j.

(** The value of cell [j] of one row of [q] after the interfaces of
    [range(LL, UL)] were swept, [x] being its value before: interface [j]
    takes [dtdx[j] * apdq[j - 1]] from it, and then interface [j + 1] takes
    [dtdx[j] * amdq[j]]. *)
Definition godunov_cell (dtdx apdq_m amdq_m : list F) (LL UL j : Z) (x : F)
    : F :=
  let x1 := if bool_decide (LL ≤ j < UL)
            then (x - get dtdx j * get apdq_m (j - 1))%flt else x in
  if bool_decide (LL ≤ j + 1 < UL)
  then (x1 - get dtdx j * get amdq_m j)%flt else x1.

Definition godunov_row (dtdx apdq_m amdq_m : list F) (LL UL : Z)
    (row : list F) : list F :=
  imap (λ j, godunov_cell dtdx apdq_m amdq_m LL UL (Z.of_nat j)) row.

(** The array [q] after the sweep of the equations below [num_eqn]. *)
Definition godunov_rows (dtdx : list F) (apdq amdq : list (list F))
    (num_eqn LL UL : Z) (q : list (list F)) : list (list F) :=
  imap (λ m row,
    if bool_decide (Z.of_nat m < num_eqn)
    then godunov_row dtdx (row_of apdq (Z.of_nat m))
           (row_of amdq (Z.of_nat m)) LL UL row
    else row) q.

(** The arrays have the shapes the sweep needs: [q] and the fluctuations
    have a row per equation, every cell of [LL - 1 .. UL - 1] and every
    interface of [LL - 1 .. UL - 2] exists, and the bounds are C integers
    that are not negative. *)
Definition godunov_shapes (dtdx : list F) (apdq amdq : list (list F))
    (num_eqn LL UL : Z) (q : list (list F)) : Prop :=
  int_range num_eqn ∧ 0 ≤ num_eqn ∧ int_range LL ∧ int_range UL ∧
  1 ≤ LL ≤ UL ∧
  UL ≤ Z.of_nat (length dtdx) ∧
  num_eqn ≤ Z.of_nat (length q) ∧
  num_eqn ≤ Z.of_nat (length apdq) ∧
  num_eqn ≤ Z.of_nat (length amdq) ∧
  Forall (λ row, UL ≤ Z.of_nat (length row)) q ∧
  Forall (λ row, UL - 1 ≤ Z.of_nat (length row)) apdq ∧
  Forall (λ row, UL - 1 ≤ Z.of_nat (length row)) amdq.

End Closed_forms.

Section CFL_closed_forms.
Context {F : Type} `{Float64 F}.

(** The two terms of interface [n] in wave family [mw]. *)
Definition cfl_term1 (dtdx : list F) (s : list (list F)) (mw n : Z) : F :=
  (get dtdx n * get (row_of s mw) (n - 1))%flt.

Definition cfl_term2 (dtdx : list F) (s : list (list F)) (mw n : Z) : F :=
  (- get dtdx (n - 1) * get (row_of s mw) (n - 1))%flt.

(** The accumulation the specification describes: from [cfl = 0],
    [cfl = max(cfl, dtdx[n]*s[mw,n-1], -dtdx[n-1]*s[mw,n-1])] for every wave
    family [mw] and every interface [n] of [LL .. UL-1]. *)
Definition cfl_accumulate (num_waves : Z) (dtdx : list F) (s : list (list F))
    (LL UL : Z) : F :=
  foldl (λ cfl mw,
    foldl (λ cfl n,
      pymax3 cfl (cfl_term1 dtdx s mw n) (cfl_term2 dtdx s mw n))
      cfl (seqZ LL (UL - LL)))
    f_zero (seqZ 0 num_waves).

(** All the terms, family by family and interface by interface. *)
Definition cfl_terms (num_waves : Z) (dtdx : list F) (s : list (list F))
    (LL UL : Z) : list F :=
  mw ← seqZ 0 num_waves;
  n ← seqZ LL (UL - LL);
  [cfl_term1 dtdx s mw n; cfl_term2 dtdx s mw n].

(** [r] is the greatest element of [l]. *)
Definition is_maximum (r : F) (l : list F) : Prop :=
  r ∈ l ∧ ∀ t, t ∈ l → (r <? t)%flt = false.

(** One iteration of the compiled kernel on its three running maxima. *)
Definition cfl_step (st : cfl_state) (a b : F) : cfl_state :=
  let '(cfl, smax1, smax2) := st in
  let smax1 := pymax smax1 a in
  let smax2 := pymax smax2 b in
  (pymax3 cfl smax1 smax2, smax1, smax2).

(** The loops of the compiled kernel on the terms, from its seeds. *)
Definition cfl_run (num_waves : Z) (dtdx : list F) (s : list (list F))
    (LL UL : Z) : cfl_state :=
  foldl (λ t mw,
    foldl (λ t n,
      cfl_step t (cfl_term1 dtdx s mw n) (cfl_term2 dtdx s mw n))
      t (seqZ LL (UL - LL)))
    (f_zero, cfl_term1 dtdx s 0 LL, cfl_term2 dtdx s 0 LL)
    (seqZ 0 num_waves).

(** The running maxima [smax1] and [smax2] are not above [cfl]. *)
Definition cfl_bounded (st : cfl_state) : Prop :=
  (st.1.1 <? st.1.2)%flt = false ∧ (st.1.1 <? st.2)%flt = false.

(** The arrays have the shapes the kernel needs: the bounds are C integers,
    cells [LL - 1 .. UL - 1] of [dtdx] and cell [LL] exist, [s] has a row
    per wave family, at least one, and interfaces [LL - 1 .. UL - 2] exist
    in each. *)
Definition cfl_shapes (wave : list (list (list F))) (dtdx : list F)
    (s : list (list F)) (LL UL : Z) : Prop :=
  int_range LL ∧ int_range UL ∧
  1 ≤ LL ≤ UL ∧
  LL < Z.of_nat (length dtdx) ∧ UL ≤ Z.of_nat (length dtdx) ∧
  1 ≤ shape1 wave < 2 ^ 32 ∧
  shape1 wave ≤ Z.of_nat (length s) ∧
  Forall (λ row, LL ≤ Z.of_nat (length row) ∧ UL - 1 ≤ Z.of_nat (length row))
    s.

End CFL_closed_forms.

Section Sums.
Context {F : Type} `{Float64 F}.

(** [f a + f (a + 1) + ... + f (b - 1)]. *)
Definition sum_over (f : Z → F) (a b : Z) : F :=
  foldl (λ acc j, acc + f j)%flt f_zero (seqZ a (b - a)).

(** The sum of cells [a .. b - 1] of a row. *)
Definition sum_cells (row : list F) (a b : Z) : F := sum_over (get row) a b.

End Sums.

Section Correction_closed_forms.
Context {F : Type} `{Float64 F}.

(** Element [(i, j, k)] of an array of rank 3 that is known to have one. *)
Definition get3 (a : list (list (list F))) (i j k : Z) : F :=
  default f_zero (plane ← lookupZ a i; row ← lookupZ plane j; lookupZ row k).

(** The term that wave family [mw] adds to [f[m, n]] in flux-splitting
    mode, as the specification gives it:
    [0.5 * sign(s) * (1 - |s| * 0.5*(dtdx[n-1]+dtdx[n])) * wave[m,mw,n-1]]
    for [s = s[mw,n-1]]. *)
Definition fwave_correction (wave : list (list (list F))) (s : list (list F))
    (dtdx : list F) (m mw n : Z) : F :=
  let v := get (row_of s mw) (n - 1) in
  (f_half * sign_expr v
   * (f_one - f_abs v * (f_half * (get dtdx (n - 1) + get dtdx n)))
   * get3 wave m mw (n - 1))%flt.

Definition access_index (a : access) : Z :=
  match a with
  | Write i => i
  | Read i => i
  end.

(** Every access falls inside an array of [size] cells. *)
Definition accesses_in_bounds (size : Z) (log : list access) : Prop :=
  Forall (λ a, 0 ≤ access_index a < size) log.

(** Every read is of a cell that was written before; [written] are the
    cells written so far. *)
Fixpoint reads_written (written : list Z) (log : list access) : Prop :=
  match log with
  | [] => True
  | Write i :: rest => reads_written (i :: written) rest
  | Read i :: rest => i ∈ written ∧ reads_written written rest
  end.

End Correction_closed_forms.

(** The accesses to [ssign] in flux-splitting mode, in closed form: for
    every wave family, a write at every interface [n] and then, for every
    equation, a read at every [n - LL]. *)
Definition ssign_trace (num_waves num_eqn LL UL : Z) : list access :=
  mw ← seqZ 0 num_waves;
  (n ← seqZ LL (UL - LL); [Write n]) ++
  (m ← seqZ 0 num_eqn;
   n ← seqZ LL (UL - LL); [Read (to_uint (n - LL))]).

(** ** Sample data *)

(** The rational [n / d]. *)
Definition qc (n : Z) (d : positive) : Qc := Q2Qc (n # d).

(** One equation on a grid of one cell with two ghost cells on each side:
    five cells, four interfaces, swept over [LL = 1 .. UL = 4]. *)
Definition ex_dtdx : list Qc := replicate 5 (qc 1 2).
Definition ex_apdq : list (list Qc) := [[qc 1 1; qc (-1) 1; qc 0 1; qc 2 1]].
Definition ex_amdq : list (list Qc) := [[qc 3 1; qc 0 1; qc (-2) 1; qc 1 1]].
Definition ex_q : list (list Qc) := [[qc 1 1; qc 2 1; qc 3 1; qc 4 1; qc 5 1]].

(** One wave family on the same grid. *)
Definition ex_wave : list (list (list Qc)) :=
  [[[qc 1 1; qc 1 1; qc 1 1; qc 1 1]]].
Definition ex_s : list (list Qc) := [[qc 1 1; qc (-1) 1; qc 0 1; qc 2 1]].
Definition ex_s_neg : list (list Qc) :=
  [[qc (-1) 1; qc (-2) 1; qc (-1) 1; qc (-3) 1]].

(** The same grid with one wave family of speed 5 whose first interface
    holds a NaN. *)
Definition nan_dtdx : list nan_qc := replicate 5 (Some (qc 1 2)).
Definition nan_wave : list (list (list nan_qc)) :=
  [[[Some (qc 1 1); Some (qc 1 1); Some (qc 1 1); Some (qc 1 1)]]].
Definition nan_s : list (list nan_qc) :=
  [[None; Some (qc 5 1); Some (qc 5 1); Some (qc 5 1)]].

(** A pulse in the middle cell of a grid of three cells with two ghost
    cells on each side, advected to the right at speed 1: seven cells, six
    interfaces, swept over [LL = 1 .. UL = 6]; the physical cells are
    [2 .. 4].  The fluctuation of an interface is the jump across it. *)
Definition pulse_dtdx : list Qc := replicate 7 (qc 1 2).
Definition pulse_q : list (list Qc) :=
  [[qc 0 1; qc 0 1; qc 0 1; qc 1 1; qc 0 1; qc 0 1; qc 0 1]].
Definition pulse_apdq : list (list Qc) :=
  [[qc 0 1; qc 0 1; qc 1 1; qc (-1) 1; qc 0 1; qc 0 1]].
Definition pulse_amdq : list (list Qc) :=
  [[qc 0 1; qc 0 1; qc 0 1; qc 0 1; qc 0 1; qc 0 1]].
(** The flux through interface [i]: the value of the cell on its right. *)
Definition pulse_flux (i : Z) : Qc := get (row_of pulse_q 0) (i + 1).

(** Five cells of which the third is the physical one; the interface between
    the ghost cell 1 and the physical cell 2 carries a left-going and a
    right-going fluctuation that cancel each other. *)
Definition edge_dtdx : list Qc := replicate 5 (qc 1 1).
Definition edge_q : list (list Qc) :=
  [[qc 1 1; qc 1 1; qc 1 1; qc 1 1; qc 1 1]].
Definition edge_apdq : list (list Qc) := [[qc 0 1; qc 1 1; qc 0 1; qc 0 1]].
Definition edge_amdq : list (list Qc) := [[qc 0 1; qc (-1) 1; qc 0 1; qc 0 1]].
Definition edge_flux (i : Z) : Qc := qc 0 1.

(** A solver for the driver: the only source-term routine is [()], the CFL
    tracker is its cached maximum, and [env] is the CFL number that the
    hyperbolic step will measure.  [get_dt] picks the step 1/10. *)
Definition demo_ext : collaborators Qc () Qc Qc := {|
  get_dt := λ w _ _ _,
    Ok (World (source_split w) (step_source w) (cfl_max w) (qc 1 10)
              (cfl w) (env w));
  set_global_max := λ v _, v;
  get_cached_max := λ c, c;
  step_hyperbolic := λ w,
    Ok (World (source_split w) (step_source w) (cfl_max w) (dt w)
              (pymax (cfl w) (env w)) (env w));
  run_source := λ _ w _, Ok w;
|}.

(** The solver before a step, with [cfl_max = 1]. *)
Definition demo_world (split : Z) (src : option ()) (measured : Qc)
    : world Qc () Qc Qc :=
  World split src (qc 1 1) (qc 0 1) (qc 0 1) measured.

(** The same solver on the rationals with NaN; its hyperbolic step leaves the
    tracker holding the CFL number that it measured, [env]. *)
Definition nan_ext : collaborators nan_qc () nan_qc nan_qc := {|
  get_dt := λ w _ _ _,
    Ok (World (source_split w) (step_source w) (cfl_max w) (Some (qc 1 10))
              (cfl w) (env w));
  set_global_max := λ v _, v;
  get_cached_max := λ c, c;
  step_hyperbolic := λ w,
    Ok (World (source_split w) (step_source w) (cfl_max w) (dt w)
              (env w) (env w));
  run_source := λ _ w _, Ok w;
|}.

(** That solver before a step, with [cfl_max = 1]. *)
Definition nan_world (split : Z) (src : option ()) (measured : nan_qc)
    : world nan_qc () nan_qc nan_qc :=
  World split src (Some (qc 1 1)) (Some (qc 0 1)) (Some (qc 0 1)) measured.

(** A single wave family that moves to the left at speed 3 everywhere. *)
Definition uniform_s : list (list Qc) := [replicate 4 (qc (-3) 1)].

Section Correction_fluxes_closed_forms.
Context {F : Type} `{Float64 F}.

(** The array of rank 2 with [rows] rows and [cols] columns that holds
    [g i j] in cell [(i, j)]. *)
Definition mk_matrix (rows cols : Z) (g : Z → Z → F) : list (list F) :=
  (λ i, g i <$> seqZ 0 cols) <$> seqZ 0 rows.

(** The term that wave family [mw] adds to [f[m, n]] when [fwave] is off:
    [0.5 * |s| * (1 - |s| * 0.5*(dtdx[n-1]+dtdx[n])) * wave[m,mw,n-1]] for
    [s = s[mw,n-1]]. *)
Definition wave_correction (wave : list (list (list F))) (s : list (list F))
    (dtdx : list F) (m mw n : Z) : F :=
  let v := get (row_of s mw) (n - 1) in
  (f_half * f_abs v
   * (f_one - f_abs v * (f_half * (get dtdx (n - 1) + get dtdx n)))
   * get3 wave m mw (n - 1))%flt.

(** [f[m, n]] once the wave families below [num_waves] have added their
    terms to 0.0, one after the other. *)
Definition correction_flux (term : Z → Z → Z → F) (num_waves m n : Z) : F :=
  foldl (λ x mw, x + term m mw n)%flt f_zero (seqZ 0 num_waves).

(** The array [f] of the correction fluxes: zero outside the interfaces
    [LL .. UL-1]. *)
Definition correction_fluxes (term : Z → Z → Z → F)
    (num_waves num_eqn cols LL UL : Z) : list (list F) :=
  mk_matrix num_eqn cols (λ m n,
    if bool_decide (LL ≤ n < UL) then correction_flux term num_waves m n
    else f_zero).

(** The arrays have the shapes the correction fluxes need: the bounds are C
    integers, [f] has a column for every interface below [UL], cells
    [LL - 1 .. UL - 1] of [dtdx] exist, [s] has a row per wave family and
    [wave] a plane per equation with a row per wave family, and interfaces
    [LL - 1 .. UL - 2] exist in each row. *)
Definition correction_shapes (wave : list (list (list F)))
    (s : list (list F)) (dtdx : list F)
    (num_eqn num_ghost num_cells LL UL : Z) : Prop :=
  int_range num_eqn ∧ 0 ≤ num_eqn ∧ int_range LL ∧ int_range UL ∧
  int_range (2 * num_ghost) ∧ int_range (num_cells + 2 * num_ghost) ∧
  1 ≤ LL ≤ UL ∧
  UL ≤ num_cells + 2 * num_ghost ∧
  UL ≤ Z.of_nat (length dtdx) ∧
  shape1 wave < 2 ^ 32 ∧
  shape1 wave ≤ Z.of_nat (length s) ∧
  Forall (λ row, UL - 1 ≤ Z.of_nat (length row)) s ∧
  num_eqn ≤ Z.of_nat (length wave) ∧
  Forall (λ plane,
    shape1 wave ≤ Z.of_nat (length plane) ∧
    Forall (λ row, UL - 1 ≤ Z.of_nat (length row)) plane) wave.

(** An array of [len] cells made by [np.empty] of which the cells below
    [k] have been given the values of [g]. *)
Definition cells_upto (a : list (option F)) (len k : Z) (g : Z → F) : Prop :=
  Z.of_nat (length a) = len ∧
  ∀ j, 0 ≤ j < k → lookupZ a j = Some (Some (g j)).

(** [dtdxave[j]] for the interface [LL + j]. *)
Definition dtdx_average (dtdx : list F) (LL j : Z) : F :=
  (f_half * (get dtdx (LL + j - 1) + get dtdx (LL + j)))%flt.

(** [sabs[j]] and [om[j]] for the interface [LL + j] of wave family [mw]. *)
Definition sabs_cell (s : list (list F)) (LL mw j : Z) : F :=
  f_abs (get (row_of s mw) (LL + j - 1)).

Definition om_cell (s : list (list F)) (dtdx : list F) (LL mw j : Z) : F :=
  (f_one - sabs_cell s LL mw j * dtdx_average dtdx LL j)%flt.

End Correction_fluxes_closed_forms.

(** ** The Python kernel of [ClawSolver1D.step_hyperbolic] *)

Section Python_kernel.
Context {F : Type} `{Float64 F}.

(** [tvd.limit], from the module of the limiters. *)
Variable limit :
  Z → list (list (list F)) → list (list F) → list Z → list F →
  result (list (list (list F))).

(** The update of [q] by the differences of the correction fluxes:
    [for m in xrange(num_eqn):
       q[m,LL:UL-1] -= dtdx[LL:UL-1] * (f[m,LL+1:UL] - f[m,LL:UL-1])]. *)
Definition correction_update (dtdx : list F) (f : list (list F))
    (num_eqn LL UL : Z) (q : list (list F)) : result (list (list F)) :=
  for_range 0 num_eqn (λ m q,
    row ← np_item q m;
    frow ← np_item f m;
    diff ← broadcast f_sub (slice frow (LL + 1) UL) (slice frow LL (UL - 1));
    rhs ← broadcast f_mul (slice dtdx LL (UL - 1)) diff;
    row ← iop_slice f_sub row LL (UL - 1) rhs;
    np_set_item q m row) q.

(** The part of the Python branch of [ClawSolver1D.step_hyperbolic] that
    follows the Riemann solve: the loop limits, the first-order update, the
    CFL number and, at second order, the limiters and the correction
    fluxes.  [dtdx], [wave], [s], [amdq] and [apdq] are the arrays that the
    first part of the branch made, [q] is [self.qbc], [limiter] the array of
    [self._mthlim]; the result is the new [q] with the local [cfl]. *)
Definition step_hyperbolic_1d_python (num_eqn num_ghost num_cells order : Z)
    (limiter : list Z) (fwave : bool) (dtdx : list F)
    (wave : list (list (list F))) (s amdq apdq q : list (list F))
    : result (list (list F) * F) :=
  (* LL = self.num_ghost - 1
     UL = self.num_ghost + grid.num_cells[0] + 1 *)
  let LL := num_ghost - 1 in
  let UL := num_ghost + num_cells + 1 in
  (* godunov_update(dtdx, apdq, amdq, num_eqn, LL, UL, q) *)
  q ← godunov_update dtdx apdq amdq num_eqn LL UL q;
  (* cfl = compute_max_wave_speed(wave, dtdx, s, LL, UL) *)
  cfl ← compute_max_wave_speed wave dtdx s LL UL;
  (* if self.order == 2: *)
  if bool_decide (order = 2)
  then
    (* if (limiter > 0).any():
         wave = tvd.limit(state.num_eqn,wave,s,limiter,dtdx) *)
    wave ← (if existsb (Z.ltb 0) limiter
            then limit num_eqn wave s limiter dtdx else Ok wave);
    f ← compute_correction_fluxes wave s dtdx num_eqn num_ghost num_cells
          LL UL fwave;
    q ← correction_update dtdx f num_eqn LL UL q;
    mret (q, cfl)
  else mret (q, cfl).

End Python_kernel.

Section Python_kernel_closed_forms.
Context {F : Type} `{Float64 F}.

(** Cell [j] of a row of [q] after the update by the differences of the
    correction fluxes [frow] of its equation, [x] being its value before. *)
Definition correction_cell (dtdx frow : list F) (LL UL j : Z) (x : F) : F :=
  if bool_decide (LL ≤ j < UL - 1)
  then (x - get dtdx j * (get frow (j + 1) - get frow j))%flt else x.

Definition correction_rows (dtdx : list F) (f : list (list F))
    (num_eqn LL UL : Z) (q : list (list F)) : list (list F) :=
  imap (λ m row,
    if bool_decide (Z.of_nat m < num_eqn)
    then imap (λ j, correction_cell dtdx (row_of f (Z.of_nat m)) LL UL
                      (Z.of_nat j)) row
    else row) q.

(** The sizes of the arrays of a step: [q] and [dtdx] count
    [num_cells + 2*num_ghost] cells, the results of the Riemann solver one
    interface less, with a row per equation or per wave family, of which
    there is at least one.  [dtdx] has this size when it is built without a
    capacity function ([state.index_capa < 0]: [np.zeros] of that size plus
    [dt/dx]); with one it is [dt / (dx * state.aux[index_capa,:])] and has
    the size of a row of [state.aux], which this file does not fix. *)
Definition kernel_1d_shapes (num_eqn num_ghost num_cells : Z)
    (dtdx : list F) (wave : list (list (list F))) (s amdq apdq q : list (list F))
    : Prop :=
  let cols := num_cells + 2 * num_ghost in
  int_range num_eqn ∧ 0 ≤ num_eqn ∧ 0 ≤ num_cells ∧ 0 ≤ num_ghost ∧
  int_range (cols + 1) ∧
  Z.of_nat (length dtdx) = cols ∧
  Z.of_nat (length q) = num_eqn ∧
  Forall (λ row, Z.of_nat (length row) = cols) q ∧
  Z.of_nat (length apdq) = num_eqn ∧
  Forall (λ row, Z.of_nat (length row) = cols - 1) apdq ∧
  Z.of_nat (length amdq) = num_eqn ∧
  Forall (λ row, Z.of_nat (length row) = cols - 1) amdq ∧
  1 ≤ shape1 wave < 2 ^ 32 ∧
  Z.of_nat (length s) = shape1 wave ∧
  Forall (λ row, Z.of_nat (length row) = cols - 1) s ∧
  Z.of_nat (length wave) = num_eqn ∧
  Forall (λ plane,
    Z.of_nat (length plane) = shape1 wave ∧
    Forall (λ row, Z.of_nat (length row) = cols - 1) plane) wave.

End Python_kernel_closed_forms.

(** Correction fluxes on the grid of the pulse: they vanish at the two ends
    of the swept range. *)
Definition pulse_f : list (list Qc) :=
  [[qc 0 1; qc 0 1; qc 1 4; qc 1 2; qc (-1) 4; qc 0 1; qc 0 1]].

(** A limiter that leaves the waves as they are. *)
Definition demo_limit (num_eqn : Z) (wave : list (list (list Qc)))
    (s : list (list Qc)) (limiter : list Z) (dtdx : list Qc)
    : result (list (list (list Qc))) :=
  Ok wave.

Section Driver_protocol.
Context {F Src : Type}.

(** A call of the source-term routine. *)
Definition is_source_call (c : call F Src) : Prop :=
  match c with
  | CallStepSource _ _ => True
  | _ => False
  end.

End Driver_protocol.

(** [ClawSolver.step_hyperbolic], the method of the generic class: "This is
    a dummy routine and must be overridden." *)
Definition step_hyperbolic_dummy {W : Type} (w : W) : result W :=
  Fault (Raised "Exception").

(** The solver of the sample runs when [step_hyperbolic] is not
    overridden. *)
Definition dummy_ext : collaborators Qc () Qc Qc := {|
  get_dt := get_dt demo_ext;
  set_global_max := set_global_max demo_ext;
  get_cached_max := get_cached_max demo_ext;
  step_hyperbolic := step_hyperbolic_dummy;
  run_source := run_source demo_ext;
|}.

(** ** Methods that configure the solver *)

(** A method of the solver: it changes the attributes [St], makes the calls
    [Ev], and returns or raises; what it did before it raised stays done. *)
Record method (St Ev A : Type) : Type := Method {
  run_method : St → list Ev * St * result A;
}.
Arguments Method {St Ev A} run_method.
Arguments run_method {St Ev A} m s.

#[export] Instance method_ret {St Ev : Type} : MRet (method St Ev) := λ A a,
  Method (λ s, ([], s, Ok a)).
#[export] Instance method_bind {St Ev : Type} : MBind (method St Ev) :=
  λ A B k m,
    Method (λ s,
      let '(log1, s1, r) := run_method m s in
      match r with
      | Ok a => let '(log2, s2, r2) := run_method (k a) s1 in
                (log1 ++ log2, s2, r2)
      | Fault e => (log1, s1, Fault e)
      end).

Section Methods.
Context {St Ev : Type}.

(** Reading an attribute. *)
Definition method_attr {A : Type} (field : St → A) : method St Ev A :=
  Method (λ s, ([], s, Ok (field s))).

(** Reading an attribute that the object may lack. *)
Definition method_attr_opt {A : Type} (field : St → option A)
    : method St Ev A :=
  Method (λ s,
    match field s with
    | Some a => ([], s, Ok a)
    | None => ([], s, Fault (Raised "AttributeError"))
    end).

(** Changing the attributes. *)
Definition method_update (f : St → St) : method St Ev () :=
  Method (λ s, ([], f s, Ok ())).

(** [raise exn]. *)
Definition method_raise {A : Type} (exn : string) : method St Ev A :=
  Method (λ s, ([], s, Fault (Raised exn))).

(** A call [c] of something the method does not look into, which returns a
    value or raises. *)
Definition method_call {A : Type} (c : Ev) (body : St → result (A * St))
    : method St Ev A :=
  Method (λ s,
    match body s with
    | Ok (a, s') => ([c], s', Ok a)
    | Fault e => ([c], s, Fault e)
    end).

(** The same for a call without a result. *)
Definition method_do (c : Ev) (body : St → result St) : method St Ev () :=
  method_call c (λ s, s' ← body s; Ok ((), s')).

End Methods.

(** *** [ClawSolver._set_method] *)

Section Set_method.

(** The values that a cell of a NumPy array of type [int] holds on the
    platform. *)
Variable np_int : Z → bool.

(** [self._method[i] = v] for a Python integer [v]. *)
Definition method_store (i v : Z) : method (list (option Z)) Empty_set () :=
  if np_int v then method_update (λ a, <[Z.to_nat i := Some v]> a)
  else method_raise "OverflowError".

(** The method fills the array [self._method]; the state is that array.
    [dimensional_split] and [transverse_waves] are attributes of the solvers
    for two and three dimensions only, the other arguments are the attributes
    [dt_variable], [order], [num_dim] and [verbosity] of the solver and
    [index_capa] and [num_aux] of the state. *)
Definition _set_method (dt_variable : bool) (order num_dim : Z)
    (dimensional_split : option bool) (transverse_waves : option Z)
    (verbosity index_capa num_aux : Z)
    : method (list (option Z)) Empty_set () :=
  (* self._method =np.empty(7, dtype=int,order='F') *)
  method_update (λ _, replicate 7 None);;
  (* self._method[0] = self.dt_variable *)
  method_store 0 (if dt_variable then 1 else 0);;
  (* self._method[1] = self.order *)
  method_store 1 order;;
  (if bool_decide (num_dim = 1)
   then (* self._method[2] = 0 *)
     method_store 2 0
   else
     split ← method_attr_opt (λ _, dimensional_split);
     if split : bool
     then (* self._method[2] = -1 *)
       method_store 2 (-1)
     else (* self._method[2] = self.transverse_waves *)
       tw ← method_attr_opt (λ _, transverse_waves);
       method_store 2 tw);;
  (* self._method[3] = self.verbosity *)
  method_store 3 verbosity;;
  (* self._method[4] = 0 *)
  method_store 4 0;;
  (* self._method[5] = state.index_capa + 1 *)
  method_store 5 (index_capa + 1);;
  (* self._method[6] = state.num_aux *)
  method_store 6 num_aux.

End Set_method.

(** *** [ClawSolver.setup] and [ClawSolver1D.step_hyperbolic] *)

Section Setup.

(** What the methods do not look into: [L] is the type of the limiters,
    [Mod] the type of the compiled modules, [Env] everything else that the
    collaborators read or change (the solution, its state, the boundary
    arrays, the other attributes of the solver). *)
Context {F L Mod Env : Type}.

(** The attributes of the solver that the two methods and [_set_mthlim] read
    or set, with the rest.  Attribute [fmod] is [None] or a module. *)
Record solver : Type := Solver {
  solver_num_ghost : Z;
  solver_num_dim : Z;
  solver_num_waves : Z;
  solver_kernel_language : string;
  solver_limiters : value L;
  solver_mthlim : value L;
  solver_fmod : option Mod;
  solver_env : Env;
}.

(** The collaborators: the methods of the subclass and of the base solver,
    the state of the solution, the import machinery and the two kernels of
    the step in one dimension (the branch for ['Fortran'] with the call of
    [fmod.step1], the branch for ['Python'] with the Riemann solver).  Each
    one may change every attribute and may raise; a kernel returns the CFL
    number that it found. *)
Record setup_collaborators : Type := SetupCollaborators {
  set_num_ghost : Z → solver → result solver;
  _check_cfl_settings : solver → result solver;
  import_module : string → solver → result (Mod * solver);
  _set_fortran_parameters : solver → result solver;
  _allocate_workspace : solver → result solver;
  _allocate_bc_arrays : solver → result solver;
  base_setup : solver → result solver;
  _apply_bcs : solver → result solver;
  fortran_kernel : solver → result (F * solver);
  python_kernel : solver → result (F * solver);
  update_global_max : F → solver → result solver;
  state_num_aux : solver → Z;
  set_q_from_qbc : Z → solver → result solver;
  set_aux_from_auxbc : Z → solver → result solver;
}.

(** The calls of the two methods. *)
Inductive setup_call : Type :=
  | CallSetNumGhost (num_ghost : Z)
  | CallCheckCflSettings
  | CallImport (so_name : string)
  | CallSetFortranParameters
  | CallAllocateWorkspace
  | CallAllocateBcArrays
  | CallBaseSetup
  | CallApplyBcs
  | CallFortranKernel
  | CallPythonKernel
  | CallUpdateGlobalMax (cfl : F)
  | CallSetQFromQbc (num_ghost : Z)
  | CallSetAuxFromAuxbc (num_ghost : Z).

Variable ext : setup_collaborators.

Definition with_mthlim (s : solver) (mthlim : value L) : solver :=
  Solver (solver_num_ghost s) (solver_num_dim s) (solver_num_waves s)
         (solver_kernel_language s) (solver_limiters s) mthlim
         (solver_fmod s) (solver_env s).

Definition with_fmod (s : solver) (fmod : option Mod) : solver :=
  Solver (solver_num_ghost s) (solver_num_dim s) (solver_num_waves s)
         (solver_kernel_language s) (solver_limiters s) (solver_mthlim s)
         fmod (solver_env s).

(** [self._set_mthlim()] *)
Definition set_mthlim_method : method solver setup_call () :=
  Method (λ s,
    let '(mthlim, r) :=
      _set_mthlim (solver_limiters s) (solver_num_waves s) in
    ([], with_mthlim s (PyList mthlim), r)).

Definition setup : method solver setup_call () :=
  (* solution.state.set_num_ghost(self.num_ghost) *)
  num_ghost ← method_attr solver_num_ghost;
  method_do (CallSetNumGhost num_ghost) (set_num_ghost ext num_ghost);;
  (* self._check_cfl_settings() *)
  method_do CallCheckCflSettings (_check_cfl_settings ext);;
  (* self._set_mthlim() *)
  set_mthlim_method;;
  (* if(self.kernel_language == 'Fortran'): *)
  language ← method_attr solver_kernel_language;
  (if bool_decide (language = "Fortran")
   then
     (* if self.fmod is None: *)
     fmod ← method_attr solver_fmod;
     (if fmod is None
      then
        (* so_name = 'clawpack.pyclaw.classic.classic'+str(self.num_dim) *)
        num_dim ← method_attr solver_num_dim;
        let so_name := "clawpack.pyclaw.classic.classic" +:+ pretty num_dim in
        (* self.fmod = __import__(so_name,fromlist=[...]) *)
        fmod ← method_call (CallImport so_name) (import_module ext so_name);
        method_update (λ s, with_fmod s (Some fmod))
      else mret ());;
     (* self._set_fortran_parameters(solution) *)
     method_do CallSetFortranParameters (_set_fortran_parameters ext);;
     (* self._allocate_workspace(solution) *)
     method_do CallAllocateWorkspace (_allocate_workspace ext)
   else
     (* elif self.num_dim>1: raise Exception(...) *)
     num_dim ← method_attr solver_num_dim;
     if bool_decide (1 < num_dim) then method_raise "Exception"
     else mret ());;
  (* self._allocate_bc_arrays(solution.states[0]) *)
  method_do CallAllocateBcArrays (_allocate_bc_arrays ext);;
  (* super(ClawSolver,self).setup(solution) *)
  method_do CallBaseSetup (base_setup ext).

Definition step_hyperbolic_1d : method solver setup_call () :=
  (* self._apply_bcs(state) *)
  method_do CallApplyBcs (_apply_bcs ext);;
  (* num_eqn,num_ghost = state.num_eqn,self.num_ghost *)
  num_ghost ← method_attr solver_num_ghost;
  language ← method_attr solver_kernel_language;
  cfl ← (if bool_decide (language = "Fortran")
         then method_call CallFortranKernel (fortran_kernel ext)
         else if bool_decide (language = "Python")
         then method_call CallPythonKernel (python_kernel ext)
         else method_raise "Exception");
  (* self.cfl.update_global_max(cfl) *)
  method_do (CallUpdateGlobalMax cfl) (update_global_max ext cfl);;
  (* state.set_q_from_qbc(num_ghost,self.qbc) *)
  method_do (CallSetQFromQbc num_ghost) (set_q_from_qbc ext num_ghost);;
  (* if state.num_aux > 0: state.set_aux_from_auxbc(num_ghost,self.auxbc) *)
  num_aux ← method_attr (state_num_aux ext);
  if bool_decide (0 < num_aux)
  then method_do (CallSetAuxFromAuxbc num_ghost)
                 (set_aux_from_auxbc ext num_ghost)
  else mret ().

End Setup.

Arguments solver : clear implicits.
Arguments setup_collaborators : clear implicits.
Arguments setup_call : clear implicits.

(** The cells of an array of type [int] where the C type [long] has 64
    bits. *)
Definition np_int64 (v : Z) : bool := bool_decide (-2 ^ 63 ≤ v < 2 ^ 63).

(** Collaborators that do nothing; the kernels find CFL number 1/2. *)
Definition quiet_ext : setup_collaborators Qc Z () () := {|
  set_num_ghost := λ _ s, Ok s;
  _check_cfl_settings := Ok;
  import_module := λ _ s, Ok ((), s);
  _set_fortran_parameters := Ok;
  _allocate_workspace := Ok;
  _allocate_bc_arrays := Ok;
  base_setup := Ok;
  _apply_bcs := Ok;
  fortran_kernel := λ s, Ok (qc 1 2, s);
  python_kernel := λ s, Ok (qc 1 2, s);
  update_global_max := λ _ s, Ok s;
  state_num_aux := λ _, 0;
  set_q_from_qbc := λ _ s, Ok s;
  set_aux_from_auxbc := λ _ s, Ok s;
|}.

Definition quiet_solver (num_dim : Z) (language : string)
    (fmod : option ()) : solver Z () () :=
  Solver 2 num_dim 1 language (Atom 4) (Atom 4) fmod ().

(** *** [ClawSolver2D.step_hyperbolic] and [ClawSolver3D.step_hyperbolic] *)

Section Hyperbolic_step_multi_d.
Context {F : Type} `{Float64 F}.

(** What the methods do not look into: [Arr] is the type of the array
    objects (what a variable or an attribute is bound to, not the cells),
    [Ptr] the type of the pointers to the compiled Riemann solvers, [Env]
    everything else (the solution, the grid, the cells of the arrays, the
    other attributes of the solver). *)
Context {Arr Ptr Env : Type}.

(** The attributes that the two methods read or set.  [md_rpn], [md_rpt] and
    [md_rptt] are [rp.rpn2._cpointer] and [rp.rpt2._cpointer] in two
    dimensions, [rp.rpn3._cpointer], [rp.rpt3._cpointer] and
    [rp.rptt3._cpointer] in three; a Riemann solver may lack them. *)
Record solver_md : Type := SolverMd {
  md_kernel_language : string;
  md_dimensional_split : bool;
  md_transverse_waves : Z;
  md_num_ghost : Z;
  md_qbc : Arr;
  md_rpn : option Ptr;
  md_rpt : option Ptr;
  md_rptt : option Ptr;
  md_env : Env;
}.

(** The collaborators.  The Fortran routines take the direction of the sweep
    (where they have one), [qold], [qnew] and the pointers, and return an
    array and a CFL number; their other arguments are attributes of the
    solver and of the grid, which they are given with the solver. *)
Record md_collaborators : Type := MdCollaborators {
  md_apply_bcs : solver_md → result solver_md;
  md_copy : Arr → solver_md → result (Arr * solver_md);
  md_step2ds :
    Z → Arr → Arr → Ptr → Ptr → solver_md → result (Arr * F * solver_md);
  md_step2 :
    Arr → Arr → Ptr → Ptr → solver_md → result (Arr * F * solver_md);
  md_step3ds :
    Z → Arr → Arr → Ptr → Ptr → Ptr → solver_md →
    result (Arr * F * solver_md);
  md_step3 :
    Arr → Arr → Ptr → Ptr → Ptr → solver_md → result (Arr * F * solver_md);
  md_update_global_max : F → solver_md → result solver_md;
  md_num_aux : solver_md → Z;
  md_set_q_from_qbc : Z → Arr → solver_md → result solver_md;
  md_set_aux_from_auxbc : Z → solver_md → result solver_md;
}.

(** The calls of the two methods. *)
Inductive md_call : Type :=
  | MdApplyBcs
  | MdCopy (a : Arr)
  | MdStep2ds (direction : Z) (qold qnew : Arr) (rpn2 rpt2 : Ptr)
  | MdStep2 (qold qnew : Arr) (rpn2 rpt2 : Ptr)
  | MdStep3ds (direction : Z) (qold qnew : Arr) (rpn3 rpt3 rptt3 : Ptr)
  | MdStep3 (qold qnew : Arr) (rpn3 rpt3 rptt3 : Ptr)
  | MdUpdateGlobalMax (cfl : F)
  | MdSetQFromQbc (num_ghost : Z) (qbc : Arr)
  | MdSetAuxFromAuxbc (num_ghost : Z).

Variable ext : md_collaborators.

Definition with_qbc (qbc : Arr) (s : solver_md) : solver_md :=
  SolverMd (md_kernel_language s) (md_dimensional_split s)
           (md_transverse_waves s) (md_num_ghost s) qbc (md_rpn s)
           (md_rpt s) (md_rptt s) (md_env s).

(** [(self.dimensional_split) or (self.transverse_waves==0)] *)
Definition split_or_no_transverse : method solver_md md_call bool :=
  split ← method_attr md_dimensional_split;
  if split : bool then mret true
  else tw ← method_attr md_transverse_waves; mret (bool_decide (tw = 0)).

(** The last statements of both methods. *)
Definition md_finish (cfl : F) : method solver_md md_call () :=
  (* self.cfl.update_global_max(cfl) *)
  method_do (MdUpdateGlobalMax cfl) (md_update_global_max ext cfl);;
  (* state.set_q_from_qbc(self.num_ghost,self.qbc) *)
  num_ghost ← method_attr md_num_ghost;
  qbc ← method_attr md_qbc;
  method_do (MdSetQFromQbc num_ghost qbc)
            (md_set_q_from_qbc ext num_ghost qbc);;
  (* if state.num_aux > 0:
         state.set_aux_from_auxbc(self.num_ghost,self.auxbc) *)
  num_aux ← method_attr (md_num_aux ext);
  if bool_decide (0 < num_aux)
  then num_ghost ← method_attr md_num_ghost;
       method_do (MdSetAuxFromAuxbc num_ghost)
                 (md_set_aux_from_auxbc ext num_ghost)
  else mret ().

Definition step_hyperbolic_2d : method solver_md md_call () :=
  language ← method_attr md_kernel_language;
  if bool_decide (language = "Fortran")
  then
    (* self._apply_bcs(state) *)
    method_do MdApplyBcs (md_apply_bcs ext);;
    (* qold = self.qbc.copy('F') *)
    qbc ← method_attr md_qbc;
    qold ← method_call (MdCopy qbc) (md_copy ext qbc);
    (* rpn2 = self.rp.rpn2._cpointer *)
    rpn2 ← method_attr_opt md_rpn;
    (* if (self.dimensional_split) or (self.transverse_waves==0):
           rpt2 = rpn2
       else:
           rpt2 = self.rp.rpt2._cpointer *)
    dummy ← split_or_no_transverse;
    rpt2 ← (if dummy : bool then mret rpn2 else method_attr_opt md_rpt);
    (* if self.dimensional_split: *)
    split ← method_attr md_dimensional_split;
    cfl ← (if split : bool
           then
             (* self.qbc, cfl_x = self.fmod.step2ds(..., qold,self.qbc, ...,
                                                    1,self.fwave,rpn2,rpt2) *)
             qbc ← method_attr md_qbc;
             '(q, cfl_x) ← method_call (MdStep2ds 1 qold qbc rpn2 rpt2)
                             (md_step2ds ext 1 qold qbc rpn2 rpt2);
             method_update (with_qbc q);;
             (* self.qbc, cfl_y = self.fmod.step2ds(..., self.qbc,self.qbc,
                                                 ..., 2,self.fwave,rpn2,rpt2) *)
             qbc1 ← method_attr md_qbc;
             qbc2 ← method_attr md_qbc;
             '(q, cfl_y) ← method_call (MdStep2ds 2 qbc1 qbc2 rpn2 rpt2)
                             (md_step2ds ext 2 qbc1 qbc2 rpn2 rpt2);
             method_update (with_qbc q);;
             (* cfl = max(cfl_x,cfl_y) *)
             mret (pymax cfl_x cfl_y)
           else
             (* self.qbc, cfl = self.fmod.step2(..., qold,self.qbc, ...,
                                                self.fwave,rpn2,rpt2) *)
             qbc ← method_attr md_qbc;
             '(q, cfl) ← method_call (MdStep2 qold qbc rpn2 rpt2)
                           (md_step2 ext qold qbc rpn2 rpt2);
             method_update (with_qbc q);;
             mret cfl);
    md_finish cfl
  else method_raise "NotImplementedError".

Definition step_hyperbolic_3d : method solver_md md_call () :=
  language ← method_attr md_kernel_language;
  if bool_decide (language = "Fortran")
  then
    (* self._apply_bcs(state) *)
    method_do MdApplyBcs (md_apply_bcs ext);;
    (* qnew = self.qbc
       qold = qnew.copy('F') *)
    qnew ← method_attr md_qbc;
    qold ← method_call (MdCopy qnew) (md_copy ext qnew);
    (* rpn3  = self.rp.rpn3._cpointer *)
    rpn3 ← method_attr_opt md_rpn;
    (* if (self.dimensional_split) or (self.transverse_waves==0):
           rpt3  = rpn3
           rptt3 = rpn3
       else:
           rpt3  = self.rp.rpt3._cpointer
           rptt3 = self.rp.rptt3._cpointer *)
    dummy ← split_or_no_transverse;
    '(rpt3, rptt3) ← (if dummy : bool then mret (rpn3, rpn3)
                      else rpt3 ← method_attr_opt md_rpt;
                           rptt3 ← method_attr_opt md_rptt;
                           mret (rpt3, rptt3));
    (* if self.dimensional_split: *)
    split ← method_attr md_dimensional_split;
    cfl ← (if split : bool
           then
             (* q, cfl_x = self.fmod.step3ds(..., qold,qnew, ..., 1, ...) *)
             '(q, cfl_x) ← method_call
                             (MdStep3ds 1 qold qnew rpn3 rpt3 rptt3)
                             (md_step3ds ext 1 qold qnew rpn3 rpt3 rptt3);
             (* q, cfl_y = self.fmod.step3ds(..., q,q, ..., 2, ...) *)
             '(q, cfl_y) ← method_call (MdStep3ds 2 q q rpn3 rpt3 rptt3)
                             (md_step3ds ext 2 q q rpn3 rpt3 rptt3);
             (* q, cfl_z = self.fmod.step3ds(..., q,q, ..., 3, ...) *)
             '(q, cfl_z) ← method_call (MdStep3ds 3 q q rpn3 rpt3 rptt3)
                             (md_step3ds ext 3 q q rpn3 rpt3 rptt3);
             (* cfl = max(cfl_x,cfl_y,cfl_z) *)
             mret (pymax3 cfl_x cfl_y cfl_z)
           else
             (* q, cfl = self.fmod.step3(..., qold,qnew, ...) *)
             '(q, cfl) ← method_call (MdStep3 qold qnew rpn3 rpt3 rptt3)
                           (md_step3 ext qold qnew rpn3 rpt3 rptt3);
             mret cfl);
    md_finish cfl
  else method_raise "NotImplementedError".

(** The attributes of the solver without the rest. *)
Definition md_attrs (s : solver_md)
    : string * bool * Z * Z * Arr * option Ptr * option Ptr * option Ptr :=
  (md_kernel_language s, md_dimensional_split s, md_transverse_waves s,
   md_num_ghost s, md_qbc s, md_rpn s, md_rpt s, md_rptt s).

(** The collaborators rebind no attribute of the solver: what they change is
    in [md_env]. *)
Record md_frame : Prop := MdFrame {
  frame_apply_bcs : ∀ s s',
    md_apply_bcs ext s = Ok s' → md_attrs s' = md_attrs s;
  frame_copy : ∀ a s b s',
    md_copy ext a s = Ok (b, s') → md_attrs s' = md_attrs s;
  frame_step2ds : ∀ d qold qnew rpn rpt s r s',
    md_step2ds ext d qold qnew rpn rpt s = Ok (r, s') →
    md_attrs s' = md_attrs s;
  frame_step2 : ∀ qold qnew rpn rpt s r s',
    md_step2 ext qold qnew rpn rpt s = Ok (r, s') →
    md_attrs s' = md_attrs s;
  frame_step3ds : ∀ d qold qnew rpn rpt rptt s r s',
    md_step3ds ext d qold qnew rpn rpt rptt s = Ok (r, s') →
    md_attrs s' = md_attrs s;
  frame_step3 : ∀ qold qnew rpn rpt rptt s r s',
    md_step3 ext qold qnew rpn rpt rptt s = Ok (r, s') →
    md_attrs s' = md_attrs s;
  frame_update_global_max : ∀ cfl s s',
    md_update_global_max ext cfl s = Ok s' → md_attrs s' = md_attrs s;
  frame_set_q_from_qbc : ∀ n a s s',
    md_set_q_from_qbc ext n a s = Ok s' → md_attrs s' = md_attrs s;
  frame_set_aux_from_auxbc : ∀ n s s',
    md_set_aux_from_auxbc ext n s = Ok s' → md_attrs s' = md_attrs s;
}.

End Hyperbolic_step_multi_d.

Arguments solver_md : clear implicits.
Arguments md_collaborators : clear implicits.
Arguments md_call : clear implicits.

(** Arrays named by numbers: a copy of array [a] is array [a + 100], and a
    sweep in direction [d] returns array [qnew + d] with CFL number [d/4]. *)
Definition sweep_ext : md_collaborators Qc Z string () := {|
  md_apply_bcs := Ok;
  md_copy := λ a s, Ok (a + 100, s);
  md_step2ds := λ d _ qnew _ _ s, Ok (qnew + d, qc d 4, s);
  md_step2 := λ _ qnew _ _ s, Ok (qnew + 10, qc 1 2, s);
  md_step3ds := λ d _ qnew _ _ _ s, Ok (qnew + d, qc d 4, s);
  md_step3 := λ _ qnew _ _ _ s, Ok (qnew + 10, qc 1 2, s);
  md_update_global_max := λ _ s, Ok s;
  md_num_aux := λ _, 0;
  md_set_q_from_qbc := λ _ _ s, Ok s;
  md_set_aux_from_auxbc := λ _ s, Ok s;
|}.

(** A solver with a normal Riemann solver [rpn] and no transverse one. *)
Definition sweep_solver (split : bool) (transverse_waves : Z)
    : solver_md Z string () :=
  SolverMd "Fortran" split transverse_waves 2 0 (Some "rpn") None None ().

(** * Proofs *)

(** ** Loops and arrays *)

Lemma result_bind_ok {A B : Type} (k : A → result B) (a : A) :
  (Ok a ≫= k) = k a.
Proof. reflexivity. Qed.

Lemma for_each_app {St : Type} (l1 l2 : list Z) (body : Z → St → result St)
    (s : St) :
  for_each (l1 ++ l2) body s = for_each l1 body s ≫= for_each l2 body.
Proof.
  revert s. induction l1 as [|i l1 IH]; intros s; simpl; [done|].
  destruct (body i s) as [s'|e]; simpl; [apply IH | done].
Qed.

Lemma for_range_empty {St : Type} (lo hi : Z) (body : Z → St → result St)
    (s : St) :
  hi ≤ lo → for_range lo hi body s = Ok s.
Proof. intros. unfold for_range. by rewrite seqZ_nil by lia. Qed.

Lemma for_range_snoc {St : Type} (lo hi : Z) (body : Z → St → result St)
    (s : St) :
  lo ≤ hi →
  for_range lo (hi + 1) body s = for_range lo hi body s ≫= body hi.
Proof.
  intros Hle. unfold for_range.
  replace (hi + 1 - lo) with ((hi - lo) + 1) by lia.
  rewrite seqZ_app by lia. rewrite for_each_app.
  replace (lo + (hi - lo)) with hi by lia.
  destruct (for_each _ body s) as [s'|e]; simpl; [|done].
  simpl. replace (Z.of_nat 0 + hi) with hi by lia.
  by destruct (body hi s').
Qed.

(** The loop rule: an invariant that every iteration re-establishes holds
    at the end, and the loop does end without a fault. *)
Lemma for_range_invariant {St : Type} (P : Z → St → Prop) (lo hi : Z)
    (body : Z → St → result St) (s : St) :
  lo ≤ hi →
  P lo s →
  (∀ i t, lo ≤ i < hi → P i t → ∃ t', body i t = Ok t' ∧ P (i + 1) t') →
  ∃ s', for_range lo hi body s = Ok s' ∧ P hi s'.
Proof.
  intros Hle H0 Hstep.
  assert (∀ k : nat, lo + Z.of_nat k ≤ hi →
    ∃ s', for_range lo (lo + Z.of_nat k) body s = Ok s' ∧
          P (lo + Z.of_nat k) s') as Hk.
  { induction k as [|k IH]; intros Hb.
    - exists s. rewrite for_range_empty by lia.
      split; [done|]. by replace (lo + Z.of_nat 0) with lo by lia.
    - destruct IH as (t & Hrun & Ht); [lia|].
      destruct (Hstep (lo + Z.of_nat k) t) as (t' & Hbody & Ht'); [lia|done|].
      exists t'. replace (lo + Z.of_nat (S k)) with (lo + Z.of_nat k + 1) by lia.
      rewrite for_range_snoc by lia. rewrite Hrun. simpl. done. }
  destruct (Hk (Z.to_nat (hi - lo))) as (s' & Hrun & Hs'); [lia|].
  replace (lo + Z.of_nat (Z.to_nat (hi - lo))) with hi in * by lia.
  eauto.
Qed.

Lemma to_uint_small (z : Z) : 0 ≤ z < 2 ^ 32 → to_uint z = z.
Proof. intros. unfold to_uint. by apply Z.mod_small. Qed.

Lemma for_range_uint_small {St : Type} (lo hi : Z)
    (body : Z → St → result St) (s : St) :
  0 ≤ lo < 2 ^ 32 → 0 ≤ hi < 2 ^ 32 →
  for_range_uint lo hi body s = for_range lo hi body s.
Proof.
  intros Hlo Hhi. unfold for_range_uint. by rewrite !to_uint_small by done.
Qed.

Lemma lookupZ_Some {A : Type} (l : list A) (i : Z) (x : A) :
  lookupZ l i = Some x ↔ 0 ≤ i ∧ l !! Z.to_nat i = Some x.
Proof.
  unfold lookupZ. case_bool_decide; [tauto|].
  split; [done | intros [? _]; lia].
Qed.

Lemma lookupZ_of_nat {A : Type} (l : list A) (i : nat) :
  lookupZ l (Z.of_nat i) = l !! i.
Proof.
  unfold lookupZ. rewrite bool_decide_eq_true_2 by lia. by rewrite Nat2Z.id.
Qed.

Lemma lookupZ_is_Some {A : Type} (l : list A) (i : Z) :
  0 ≤ i < Z.of_nat (length l) → is_Some (lookupZ l i).
Proof.
  intros Hi. unfold lookupZ. rewrite bool_decide_eq_true_2 by lia.
  apply lookup_lt_is_Some. lia.
Qed.

Lemma lookupZ_length {A : Type} (l : list A) (i : Z) (x : A) :
  lookupZ l i = Some x → 0 ≤ i < Z.of_nat (length l).
Proof.
  intros [Hi Hx]%lookupZ_Some. apply lookup_lt_Some in Hx. lia.
Qed.

Lemma load1_ok {A : Type} (name : string) (a : list A) (i : Z) (x : A) :
  lookupZ a i = Some x → load1 name a i = Ok x.
Proof. intros Hx. unfold load1. by rewrite Hx. Qed.

Lemma store1_ok {A : Type} (name : string) (a : list A) (i : Z) (x : A) :
  0 ≤ i < Z.of_nat (length a) →
  store1 name a i x = Ok (<[Z.to_nat i := x]> a).
Proof.
  intros Hi. unfold store1.
  by destruct (lookupZ_is_Some a i Hi) as [y ->].
Qed.

Lemma load2_ok {A : Type} (name : string) (a : list (list A)) (i j : Z)
    (row : list A) (x : A) :
  lookupZ a i = Some row → lookupZ row j = Some x → load2 name a i j = Ok x.
Proof.
  intros Hrow Hx. unfold load2. rewrite (load1_ok _ _ _ _ Hrow). simpl.
  by apply load1_ok.
Qed.

Lemma store2_ok {A : Type} (name : string) (a : list (list A)) (i j : Z)
    (row : list A) (x : A) :
  lookupZ a i = Some row → 0 ≤ j < Z.of_nat (length row) →
  store2 name a i j x = Ok (<[Z.to_nat i := <[Z.to_nat j := x]> row]> a).
Proof.
  intros Hrow Hj. unfold store2. rewrite (load1_ok _ _ _ _ Hrow). simpl.
  rewrite store1_ok by done. simpl.
  apply store1_ok. by eapply lookupZ_length.
Qed.

(** ** The first-order update *)

Section Godunov.
Context {F : Type} `{Float64 F}.

Lemma get_lookup (a : list F) (i : Z) :
  0 ≤ i < Z.of_nat (length a) → lookupZ a i = Some (get a i).
Proof.
  intros Hi. unfold get. by destruct (lookupZ_is_Some a i Hi) as [x ->].
Qed.

Lemma row_of_lookup (a : list (list F)) (i : Z) :
  0 ≤ i < Z.of_nat (length a) → lookupZ a i = Some (row_of a i).
Proof.
  intros Hi. unfold row_of. by destruct (lookupZ_is_Some a i Hi) as [x ->].
Qed.

Lemma length_godunov_row (dtdx ap am : list F) (LL UL : Z) (row : list F) :
  length (godunov_row dtdx ap am LL UL row) = length row.
Proof. apply length_imap. Qed.

Lemma lookup_godunov_row (dtdx ap am : list F) (LL UL : Z) (row : list F)
    (j : nat) :
  godunov_row dtdx ap am LL UL row !! j
  = godunov_cell dtdx ap am LL UL (Z.of_nat j) <$> row !! j.
Proof. unfold godunov_row. by rewrite list_lookup_imap. Qed.

Lemma godunov_row_empty (dtdx ap am : list F) (LL : Z) (row : list F) :
  godunov_row dtdx ap am LL LL row = row.
Proof.
  apply list_eq; intros j. rewrite lookup_godunov_row.
  destruct (row !! j) as [x|]; [|done]. simpl. f_equal.
  unfold godunov_cell. by rewrite !bool_decide_eq_false_2 by lia.
Qed.

(** One more interface: the sweep up to [n + 1] is the sweep up to [n]
    followed by the two subtractions of interface [n]. *)
Lemma godunov_row_step (dtdx ap am : list F) (LL n : Z) (row : list F) :
  1 ≤ LL ≤ n → n < Z.of_nat (length row) →
  let r := godunov_row dtdx ap am LL n row in
  let r1 := <[Z.to_nat n := (get r n - get dtdx n * get ap (n - 1))%flt]> r in
  <[Z.to_nat (n - 1) :=
      (get r1 (n - 1) - get dtdx (n - 1) * get am (n - 1))%flt]> r1
  = godunov_row dtdx ap am LL (n + 1) row.
Proof.
  intros HLL Hn r r1.
  assert (length r = length row) as Hlen by apply length_godunov_row.
  assert (∀ j : Z, 0 ≤ j < Z.of_nat (length row) →
    get r j = godunov_cell dtdx ap am LL n j (get row j)) as Hr.
  { intros j Hj. unfold get at 1.
    unfold lookupZ. rewrite bool_decide_eq_true_2 by lia.
    unfold r. rewrite lookup_godunov_row.
    rewrite Z2Nat.id by lia.
    pose proof (get_lookup row j Hj) as Hrow. apply lookupZ_Some in Hrow.
    destruct Hrow as [_ ->]. done. }
  assert (get r1 (n - 1) = get r (n - 1)) as Hr1.
  { unfold get, lookupZ. rewrite bool_decide_eq_true_2 by lia.
    unfold r1. rewrite list_lookup_insert_ne by lia. done. }
  apply list_eq; intros j.
  rewrite lookup_godunov_row.
  destruct (decide (j = Z.to_nat (n - 1))) as [->|Hj1].
  - rewrite list_lookup_insert_eq by (unfold r1; rewrite length_insert; lia).
    pose proof (get_lookup row (n - 1) ltac:(lia)) as Hrow.
    apply lookupZ_Some in Hrow. destruct Hrow as [_ ->]. simpl. f_equal.
    rewrite Hr1, Hr by lia. rewrite Z2Nat.id by lia.
    unfold godunov_cell.
    repeat case_bool_decide; try lia; try done.
  - rewrite list_lookup_insert_ne by done.
    destruct (decide (j = Z.to_nat n)) as [->|Hj].
    + unfold r1. rewrite list_lookup_insert_eq by lia.
      pose proof (get_lookup row n ltac:(lia)) as Hrow.
      apply lookupZ_Some in Hrow. destruct Hrow as [_ ->]. simpl. f_equal.
      rewrite Hr by lia. rewrite Z2Nat.id by lia.
      unfold godunov_cell.
      repeat case_bool_decide; try lia; try done.
    + unfold r1. rewrite list_lookup_insert_ne by done.
      unfold r. rewrite lookup_godunov_row.
      destruct (row !! j) as [x|]; [|done]. simpl. f_equal.
      unfold godunov_cell.
      repeat case_bool_decide; try lia; try done.
Qed.

Lemma godunov_update_interface_ok (dtdx : list F) (apdq amdq : list (list F))
    (m n : Z) (q : list (list F)) (r ap am : list F) :
  1 ≤ n < 2 ^ 31 →
  lookupZ q m = Some r → lookupZ apdq m = Some ap → lookupZ amdq m = Some am →
  n < Z.of_nat (length dtdx) → n < Z.of_nat (length r) →
  n - 1 < Z.of_nat (length ap) → n - 1 < Z.of_nat (length am) →
  let r1 := <[Z.to_nat n := (get r n - get dtdx n * get ap (n - 1))%flt]> r in
  godunov_update_interface dtdx apdq amdq m n q
  = Ok (<[Z.to_nat m :=
           <[Z.to_nat (n - 1) :=
               (get r1 (n - 1) - get dtdx (n - 1) * get am (n - 1))%flt]> r1]>
          q).
Proof.
  intros Hn Hq Hap Ham Hd Hr Hlap Hlam r1.
  pose proof (lookupZ_length _ _ _ Hq) as Hm.
  unfold godunov_update_interface.
  rewrite (to_uint_small (n - 1)) by lia.
  rewrite (load1_ok _ dtdx n (get dtdx n)) by (apply get_lookup; lia).
  rewrite result_bind_ok.
  rewrite (load2_ok _ apdq m (n - 1) ap (get ap (n - 1)))
    by (done || apply get_lookup; lia).
  rewrite result_bind_ok.
  rewrite (load2_ok _ q m n r (get r n)) by (done || apply get_lookup; lia).
  rewrite result_bind_ok.
  rewrite (store2_ok _ q m n r) by (done || lia).
  rewrite result_bind_ok. fold r1.
  assert (lookupZ (<[Z.to_nat m := r1]> q) m = Some r1) as Hq1.
  { apply lookupZ_Some. split; [lia|].
    apply list_lookup_insert_eq. lia. }
  assert (length r1 = length r) as Hlen by (unfold r1; apply length_insert).
  rewrite (load1_ok _ dtdx (n - 1) (get dtdx (n - 1)))
    by (apply get_lookup; lia).
  rewrite result_bind_ok.
  rewrite (load2_ok _ amdq m (n - 1) am (get am (n - 1)))
    by (done || apply get_lookup; lia).
  rewrite result_bind_ok.
  rewrite (load2_ok _ _ m (n - 1) r1 (get r1 (n - 1)))
    by (done || apply get_lookup; lia).
  rewrite result_bind_ok.
  rewrite (store2_ok _ _ m (n - 1) r1) by (done || lia).
  by rewrite list_insert_insert_eq.
Qed.

(** The inner loop on row [m]. *)
Lemma godunov_inner_loop (dtdx : list F) (apdq amdq : list (list F))
    (m LL UL : Z) (q : list (list F)) (row ap am : list F) :
  1 ≤ LL ≤ UL → UL < 2 ^ 31 →
  lookupZ q m = Some row → lookupZ apdq m = Some ap →
  lookupZ amdq m = Some am →
  UL ≤ Z.of_nat (length dtdx) → UL ≤ Z.of_nat (length row) →
  UL - 1 ≤ Z.of_nat (length ap) → UL - 1 ≤ Z.of_nat (length am) →
  for_range_uint LL UL (λ n, godunov_update_interface dtdx apdq amdq m n) q
  = Ok (<[Z.to_nat m := godunov_row dtdx ap am LL UL row]> q).
Proof.
  intros HLL HUL Hq Hap Ham Hd Hr Hlap Hlam.
  pose proof (lookupZ_length _ _ _ Hq) as Hm.
  apply lookupZ_Some in Hq as Hq'. destruct Hq' as [_ Hq'].
  rewrite for_range_uint_small by lia.
  destruct (for_range_invariant
    (λ k q', q' = <[Z.to_nat m := godunov_row dtdx ap am LL k row]> q)
    LL UL (λ n, godunov_update_interface dtdx apdq amdq m n) q)
    as (q' & -> & ->); [lia | | | done].
  - rewrite godunov_row_empty. by rewrite list_insert_id.
  - intros n t Hn ->. eexists. split; [|reflexivity]. simpl.
    rewrite (godunov_update_interface_ok dtdx apdq amdq m n _
               (godunov_row dtdx ap am LL n row) ap am);
      try done; try lia.
    + rewrite list_insert_insert_eq.
      by rewrite godunov_row_step by lia.
    + apply lookupZ_Some. split; [lia|].
      apply list_lookup_insert_eq. lia.
    + rewrite length_godunov_row. lia.
Qed.

Lemma lookup_godunov_rows (dtdx : list F) (apdq amdq : list (list F))
    (num_eqn LL UL : Z) (q : list (list F)) (m : nat) :
  godunov_rows dtdx apdq amdq num_eqn LL UL q !! m
  = (λ row, if bool_decide (Z.of_nat m < num_eqn)
            then godunov_row dtdx (row_of apdq (Z.of_nat m))
                   (row_of amdq (Z.of_nat m)) LL UL row
            else row) <$> q !! m.
Proof. unfold godunov_rows. by rewrite list_lookup_imap. Qed.

Lemma godunov_rows_none (dtdx : list F) (apdq amdq : list (list F))
    (num_eqn LL UL : Z) (q : list (list F)) :
  num_eqn ≤ 0 → godunov_rows dtdx apdq amdq num_eqn LL UL q = q.
Proof.
  intros Hle. apply list_eq; intros m. rewrite lookup_godunov_rows.
  destruct (q !! m) as [row|]; [|done]. simpl.
  by rewrite bool_decide_eq_false_2 by lia.
Qed.

(** The compiled kernel computes the closed form. *)
Lemma godunov_update_compiled_rows (dtdx : list F) (apdq amdq : list (list F))
    (num_eqn LL UL : Z) (q : list (list F)) :
  godunov_shapes dtdx apdq amdq num_eqn LL UL q →
  godunov_update_compiled dtdx apdq amdq num_eqn LL UL q
  = Ok (godunov_rows dtdx apdq amdq num_eqn LL UL q).
Proof.
  intros (Hne & Hne0 & HiLL & HiUL & HLL & Hd & Hq & Hap & Ham & Hrq & Hrap
          & Hram).
  rewrite Forall_forall in Hrq, Hrap, Hram.
  unfold int_range in *. unfold godunov_update_compiled.
  rewrite for_range_uint_small by lia.
  destruct (for_range_invariant
    (λ k q', q' = godunov_rows dtdx apdq amdq k LL UL q) 0 num_eqn
    (λ m, for_range_uint LL UL (λ n,
            godunov_update_interface dtdx apdq amdq m n)) q)
    as (q' & Hrun & ->); [lia | | | exact Hrun].
  - by rewrite godunov_rows_none.
  - intros m t Hm ->. eexists. split; [|reflexivity]. simpl.
    destruct (lookupZ_is_Some q m ltac:(lia)) as [row Hrow].
    apply lookupZ_Some in Hrow as Hrow'. destruct Hrow' as [_ Hrow'].
    rewrite (godunov_inner_loop dtdx apdq amdq m LL UL _ row
               (row_of apdq m) (row_of amdq m)); try done; try lia.
    + f_equal. apply list_eq; intros i.
      rewrite lookup_godunov_rows.
      destruct (decide (i = Z.to_nat m)) as [->|Hi].
      * rewrite list_lookup_insert_eq
          by (unfold godunov_rows; rewrite length_imap; lia).
        rewrite Hrow'. simpl. rewrite Z2Nat.id by lia.
        by rewrite bool_decide_eq_true_2 by lia.
      * rewrite list_lookup_insert_ne by done.
        rewrite lookup_godunov_rows.
        destruct (q !! i) as [r|]; [|done]. simpl. f_equal.
        repeat case_bool_decide; try lia; done.
    + apply lookupZ_Some. split; [lia|].
      rewrite lookup_godunov_rows, Hrow'. simpl.
      by rewrite bool_decide_eq_false_2 by lia.
    + apply row_of_lookup. lia.
    + apply row_of_lookup. lia.
    + apply Hrq. by eapply list_elem_of_lookup_2.
    + apply Hrap. pose proof (row_of_lookup apdq m ltac:(lia)) as Hl.
      apply lookupZ_Some in Hl as [_ Hl]. by eapply list_elem_of_lookup_2.
    + apply Hram. pose proof (row_of_lookup amdq m ltac:(lia)) as Hl.
      apply lookupZ_Some in Hl as [_ Hl]. by eapply list_elem_of_lookup_2.
Qed.

(** *** The fallback branch *)

Lemma slice_bound_id (len i : Z) : 0 ≤ i ≤ len → slice_bound len i = i.
Proof.
  intros Hi. unfold slice_bound. rewrite bool_decide_eq_false_2 by lia. lia.
Qed.

Lemma slice_in {A : Type} (a : list A) (i j : Z) :
  0 ≤ i ≤ j → j ≤ Z.of_nat (length a) →
  slice a i j = take (Z.to_nat (j - i)) (drop (Z.to_nat i) a).
Proof.
  intros Hi Hj. unfold slice. by rewrite !slice_bound_id by lia.
Qed.

Lemma length_slice {A : Type} (a : list A) (i j : Z) :
  0 ≤ i ≤ j → j ≤ Z.of_nat (length a) →
  length (slice a i j) = Z.to_nat (j - i).
Proof.
  intros Hi Hj. rewrite slice_in by done.
  rewrite length_take_le; [done|]. rewrite length_drop. lia.
Qed.

Lemma get_nat (a : list F) (i : Z) :
  0 ≤ i → get a i = default f_zero (a !! Z.to_nat i).
Proof.
  intros Hi. unfold get, lookupZ. by rewrite bool_decide_eq_true_2 by lia.
Qed.

Lemma get_slice (a : list F) (i j k : Z) :
  0 ≤ i ≤ j → j ≤ Z.of_nat (length a) → 0 ≤ k < j - i →
  get (slice a i j) k = get a (i + k).
Proof.
  intros Hi Hj Hk. rewrite !get_nat by lia. rewrite slice_in by done.
  rewrite lookup_take_lt by lia. rewrite lookup_drop.
  by replace (Z.to_nat i + Z.to_nat k)%nat with (Z.to_nat (i + k)) by lia.
Qed.

Lemma get_zip_with (op : F → F → F) (xs ys : list F) (k : Z) :
  0 ≤ k < Z.of_nat (length xs) → length xs = length ys →
  get (zip_with op xs ys) k = op (get xs k) (get ys k).
Proof.
  intros Hk Hlen. rewrite !get_nat by lia. rewrite lookup_zip_with.
  destruct (lookup_lt_is_Some_2 xs (Z.to_nat k)) as [x ->]; [lia|].
  destruct (lookup_lt_is_Some_2 ys (Z.to_nat k)) as [y ->]; [lia|].
  done.
Qed.

Lemma np_item_ok {A : Type} (a : list A) (i : Z) (x : A) :
  lookupZ a i = Some x → np_item a i = Ok x.
Proof.
  intros Hx. pose proof (lookupZ_length _ _ _ Hx).
  unfold np_item. rewrite bool_decide_eq_false_2 by lia. by rewrite Hx.
Qed.

Lemma np_set_item_ok {A : Type} (a : list A) (i : Z) (x : A) :
  0 ≤ i < Z.of_nat (length a) →
  np_set_item a i x = Ok (<[Z.to_nat i := x]> a).
Proof.
  intros Hi. unfold np_set_item. rewrite bool_decide_eq_false_2 by lia.
  by destruct (lookupZ_is_Some a i Hi) as [y ->].
Qed.

Lemma broadcast_same (op : F → F → F) (xs ys : list F) :
  length xs = length ys → broadcast op xs ys = Ok (zip_with op xs ys).
Proof.
  intros Hlen. unfold broadcast. by rewrite bool_decide_eq_true_2 by done.
Qed.

(** An in-place slice operation, cell by cell. *)
Lemma iop_slice_ok (op : F → F → F) (a : list F) (i j : Z) (rhs : list F) :
  0 ≤ i ≤ j → j ≤ Z.of_nat (length a) → length rhs = Z.to_nat (j - i) →
  iop_slice op a i j rhs
  = Ok (imap (λ n x, if bool_decide (i ≤ Z.of_nat n < j)
                     then op x (get rhs (Z.of_nat n - i)) else x) a).
Proof.
  intros Hi Hj Hlen. unfold iop_slice.
  rewrite bool_decide_eq_true_2 by (by rewrite length_slice).
  f_equal. unfold set_slice. rewrite !slice_bound_id by lia.
  replace (Z.max i j) with j by lia.
  apply list_eq; intros n. rewrite list_lookup_imap.
  destruct (decide (Z.of_nat n < i)) as [Hlo|Hlo].
  { rewrite lookup_app_l by (rewrite length_take; lia).
    rewrite lookup_take_lt by lia.
    destruct (a !! n); [|done]. simpl.
    by rewrite bool_decide_eq_false_2 by lia. }
  rewrite lookup_app_r by (rewrite length_take; lia).
  rewrite length_take_le by lia.
  destruct (decide (Z.of_nat n < j)) as [Hhi|Hhi].
  - rewrite lookup_app_l
      by (rewrite length_zip_with, length_slice by done; lia).
    rewrite lookup_zip_with. rewrite slice_in by done.
    rewrite lookup_take_lt by lia. rewrite lookup_drop.
    replace (Z.to_nat i + (n - Z.to_nat i))%nat with n by lia.
    destruct (lookup_lt_is_Some_2 a n) as [x ->]; [lia|]. simpl.
    rewrite bool_decide_eq_true_2 by lia.
    rewrite get_nat by lia.
    replace (Z.to_nat (Z.of_nat n - i)) with (n - Z.to_nat i)%nat by lia.
    destruct (lookup_lt_is_Some_2 rhs (n - Z.to_nat i)) as [y ->]; [lia|].
    done.
  - rewrite lookup_app_r
      by (rewrite length_zip_with, length_slice by done; lia).
    rewrite length_zip_with, length_slice by done. rewrite lookup_drop.
    replace (Z.to_nat j + (n - Z.to_nat i - Z.to_nat (j - i) `min` length rhs))%nat
      with n by lia.
    destruct (a !! n); [|done]. simpl.
    by rewrite bool_decide_eq_false_2 by lia.
Qed.

(** The two slice subtractions on one row give the closed form. *)
Lemma godunov_numpy_row (dtdx ap am row : list F) (LL UL : Z) :
  1 ≤ LL ≤ UL → UL ≤ Z.of_nat (length dtdx) → UL ≤ Z.of_nat (length row) →
  UL - 1 ≤ Z.of_nat (length ap) → UL - 1 ≤ Z.of_nat (length am) →
  let rhs1 := zip_with f_mul (slice dtdx LL UL) (slice ap (LL - 1) (UL - 1)) in
  let rhs2 :=
    zip_with f_mul (slice dtdx (LL - 1) (UL - 1)) (slice am (LL - 1) (UL - 1))
  in
  imap (λ n x, if bool_decide (LL - 1 ≤ Z.of_nat n < UL - 1)
               then (x - get rhs2 (Z.of_nat n - (LL - 1)))%flt else x)
    (imap (λ n x, if bool_decide (LL ≤ Z.of_nat n < UL)
                  then (x - get rhs1 (Z.of_nat n - LL))%flt else x) row)
  = godunov_row dtdx ap am LL UL row.
Proof.
  intros HLL Hd Hr Hap Ham rhs1 rhs2.
  apply list_eq; intros n.
  rewrite !list_lookup_imap, lookup_godunov_row.
  destruct (row !! n) as [x|] eqn:Hx; [|done]. simpl. f_equal.
  unfold godunov_cell.
  assert (∀ k, 0 ≤ k < UL - LL →
    get rhs1 k = (get dtdx (LL + k) * get ap (LL - 1 + k))%flt) as H1.
  { intros k Hk. unfold rhs1.
    rewrite get_zip_with by (rewrite !length_slice by lia; lia).
    by rewrite !get_slice by lia. }
  assert (∀ k, 0 ≤ k < UL - LL →
    get rhs2 k = (get dtdx (LL - 1 + k) * get am (LL - 1 + k))%flt) as H2.
  { intros k Hk. unfold rhs2.
    rewrite get_zip_with by (rewrite !length_slice by lia; lia).
    by rewrite !get_slice by lia. }
  repeat case_bool_decide; try lia;
    rewrite ?H1, ?H2 by lia; repeat f_equal; lia.
Qed.

(** The fallback branch computes the closed form as well. *)
Lemma godunov_update_numpy_rows (dtdx : list F) (apdq amdq : list (list F))
    (num_eqn LL UL : Z) (q : list (list F)) :
  godunov_shapes dtdx apdq amdq num_eqn LL UL q →
  godunov_update_numpy dtdx apdq amdq num_eqn LL UL q
  = Ok (godunov_rows dtdx apdq amdq num_eqn LL UL q).
Proof.
  intros (Hne & Hne0 & HiLL & HiUL & HLL & Hd & Hq & Hap & Ham & Hrq & Hrap
          & Hram).
  rewrite Forall_forall in Hrq, Hrap, Hram.
  unfold godunov_update_numpy.
  destruct (decide (num_eqn ≤ 0)) as [Hz|Hpos].
  { rewrite for_range_empty by lia. by rewrite godunov_rows_none. }
  match goal with |- for_range _ _ ?body _ = _ =>
    destruct (for_range_invariant
      (λ k q', q' = godunov_rows dtdx apdq amdq k LL UL q) 0 num_eqn body q)
      as (q' & Hrun & ->); [lia | | | exact Hrun]
  end.
  - by rewrite godunov_rows_none.
  - intros m t Hm ->. eexists. split; [|reflexivity].
    destruct (lookupZ_is_Some q m ltac:(lia)) as [row Hrow].
    apply lookupZ_Some in Hrow as Hrow'. destruct Hrow' as [_ Hrow'].
    pose proof (row_of_lookup apdq m ltac:(lia)) as Hlap.
    pose proof (row_of_lookup amdq m ltac:(lia)) as Hlam.
    assert (UL ≤ Z.of_nat (length row)) as Hlr
      by (apply Hrq; by eapply list_elem_of_lookup_2).
    assert (UL - 1 ≤ Z.of_nat (length (row_of apdq m))) as Hla.
    { apply Hrap. apply lookupZ_Some in Hlap as [_ Hl].
      by eapply list_elem_of_lookup_2. }
    assert (UL - 1 ≤ Z.of_nat (length (row_of amdq m))) as Hlb.
    { apply Hram. apply lookupZ_Some in Hlam as [_ Hl].
      by eapply list_elem_of_lookup_2. }
    set (t := godunov_rows dtdx apdq amdq m LL UL q).
    assert (length t = length q) as Hlt
      by (unfold t, godunov_rows; apply length_imap).
    assert (lookupZ t m = Some row) as Ht.
    { apply lookupZ_Some. split; [lia|]. unfold t.
      rewrite lookup_godunov_rows, Hrow'. simpl.
      by rewrite bool_decide_eq_false_2 by lia. }
    rewrite (np_item_ok t m row Ht), result_bind_ok.
    rewrite (np_item_ok apdq m _ Hlap), result_bind_ok.
    rewrite broadcast_same by (rewrite !length_slice by lia; lia).
    rewrite result_bind_ok.
    rewrite iop_slice_ok;
      [|lia|lia|rewrite length_zip_with, !length_slice by lia; lia].
    rewrite result_bind_ok.
    rewrite np_set_item_ok by lia. rewrite result_bind_ok.
    match goal with |- context [np_item (<[?i := ?r]> t) m] =>
      rewrite (np_item_ok (<[i := r]> t) m r)
        by (apply lookupZ_Some; split;
            [lia | apply list_lookup_insert_eq; lia])
    end.
    rewrite result_bind_ok.
    rewrite (np_item_ok amdq m _ Hlam), result_bind_ok.
    rewrite broadcast_same by (rewrite !length_slice by lia; lia).
    rewrite result_bind_ok.
    rewrite iop_slice_ok;
      [|lia|rewrite length_imap; lia
       |rewrite length_zip_with, !length_slice by lia; lia].
    rewrite result_bind_ok.
    rewrite np_set_item_ok by (rewrite length_insert; lia).
    rewrite list_insert_insert_eq.
    rewrite godunov_numpy_row by lia.
    f_equal. apply list_eq; intros i.
    rewrite lookup_godunov_rows.
    destruct (decide (i = Z.to_nat m)) as [->|Hi].
    + rewrite list_lookup_insert_eq by lia.
      rewrite Hrow'. simpl. rewrite Z2Nat.id by lia.
      by rewrite bool_decide_eq_true_2 by lia.
    + rewrite list_lookup_insert_ne by done. unfold t.
      rewrite lookup_godunov_rows.
      destruct (q !! i) as [r|]; [|done]. simpl. f_equal.
      repeat case_bool_decide; try lia; done.
Qed.

End Godunov.

(** *** Results on the first-order update *)

Section Godunov_claims.
Context {F : Type} `{Float64 F}.

Lemma lookup2_godunov_rows (dtdx : list F) (apdq amdq : list (list F))
    (num_eqn LL UL : Z) (q : list (list F)) (m n : Z) :
  lookup2 (godunov_rows dtdx apdq amdq num_eqn LL UL q) m n
  = (λ x, if bool_decide (m < num_eqn)
          then godunov_cell dtdx (row_of apdq m) (row_of amdq m) LL UL n x
          else x) <$> lookup2 q m n.
Proof.
  unfold lookup2, lookupZ.
  destruct (bool_decide (0 ≤ m)) eqn:Hm; simpl; [|done].
  apply bool_decide_eq_true in Hm.
  rewrite lookup_godunov_rows.
  destruct (q !! Z.to_nat m) as [row|]; simpl; [|done].
  rewrite Z2Nat.id by done.
  destruct (bool_decide (0 ≤ n)) eqn:Hn; simpl; [|done].
  apply bool_decide_eq_true in Hn.
  case_bool_decide.
  - rewrite lookup_godunov_row. by rewrite Z2Nat.id by done.
  - by destruct (row !! Z.to_nat n).
Qed.

(** C1.  On arrays of fitting shapes the compiled update, which is the one
    [godunov_update] calls, ends without a fault, and in the array it leaves
    every cell [(m, n)] of an equation [m < num_eqn] holds the old value
    less [dtdx[n] * apdq[m, n-1]] (when [n] is an interface of [LL .. UL-1])
    and then less [dtdx[n] * amdq[m, n]] (when [n + 1] is such an
    interface), which is what the two subtractions of every interface add up
    to; a cell of another row, or outside [LL-1 .. UL-1], keeps its value. *)
Theorem godunov_update_exact (dtdx : list F) (apdq amdq : list (list F))
    (num_eqn LL UL : Z) (q : list (list F)) :
  godunov_shapes dtdx apdq amdq num_eqn LL UL q →
  ∃ q',
    godunov_update dtdx apdq amdq num_eqn LL UL q = Ok q' ∧
    godunov_update_compiled dtdx apdq amdq num_eqn LL UL q = Ok q' ∧
    (∀ m n x, 0 ≤ m < num_eqn → lookup2 q m n = Some x →
       lookup2 q' m n
       = Some (godunov_cell dtdx (row_of apdq m) (row_of amdq m) LL UL n x)) ∧
    (∀ m n x, 0 ≤ m < num_eqn → LL ≤ n < UL - 1 → lookup2 q m n = Some x →
       lookup2 q' m n
       = Some (x - get dtdx n * get (row_of apdq m) (n - 1)
                 - get dtdx n * get (row_of amdq m) n)%flt) ∧
    (∀ m n, ¬ (0 ≤ m < num_eqn ∧ LL - 1 ≤ n < UL) →
       lookup2 q' m n = lookup2 q m n).
Proof.
  intros Hshapes.
  exists (godunov_rows dtdx apdq amdq num_eqn LL UL q).
  pose proof (godunov_update_compiled_rows _ _ _ _ _ _ _ Hshapes) as Hrun.
  split; [exact Hrun|]. split; [exact Hrun|].
  split; [|split].
  - intros m n x Hm Hx. rewrite lookup2_godunov_rows, Hx. simpl.
    by rewrite bool_decide_eq_true_2 by lia.
  - intros m n x Hm Hn Hx. rewrite lookup2_godunov_rows, Hx. simpl.
    rewrite bool_decide_eq_true_2 by lia. unfold godunov_cell.
    by rewrite !bool_decide_eq_true_2 by lia.
  - intros m n Hout. rewrite lookup2_godunov_rows.
    destruct (lookup2 q m n) as [x|] eqn:Hx; [|done]. simpl. f_equal.
    case_bool_decide as Hm; [|done].
    assert (0 ≤ m) as Hm0.
    { unfold lookup2 in Hx. destruct (lookupZ q m) as [row|] eqn:Hrow; [|done].
      by apply lookupZ_Some in Hrow as [? _]. }
    unfold godunov_cell. by rewrite !bool_decide_eq_false_2 by lia.
Qed.

(** C10.  On arrays of fitting shapes, the range of interfaces being
    possibly empty, the compiled double loop and the two slice subtractions
    of the fallback branch both end without a fault and leave the same
    array. *)
Theorem godunov_update_paths_agree (dtdx : list F) (apdq amdq : list (list F))
    (num_eqn LL UL : Z) (q : list (list F)) :
  godunov_shapes dtdx apdq amdq num_eqn LL UL q →
  ∃ q',
    godunov_update_compiled dtdx apdq amdq num_eqn LL UL q = Ok q' ∧
    godunov_update_numpy dtdx apdq amdq num_eqn LL UL q = Ok q'.
Proof.
  intros Hshapes.
  exists (godunov_rows dtdx apdq amdq num_eqn LL UL q). split.
  - by apply godunov_update_compiled_rows.
  - by apply godunov_update_numpy_rows.
Qed.

End Godunov_claims.

Lemma ex_godunov_shapes : godunov_shapes ex_dtdx ex_apdq ex_amdq 1 1 4 ex_q.
Proof.
  unfold godunov_shapes, int_range.
  repeat split; try (repeat constructor; simpl; lia); simpl; lia.
Defined.

Lemma godunov_update_exact_witness :
  ∃ q',
    godunov_update ex_dtdx ex_apdq ex_amdq 1 1 4 ex_q = Ok q' ∧
    godunov_update_compiled ex_dtdx ex_apdq ex_amdq 1 1 4 ex_q = Ok q' ∧
    (∀ m n x, 0 ≤ m < 1 → lookup2 ex_q m n = Some x →
       lookup2 q' m n
       = Some (godunov_cell ex_dtdx (row_of ex_apdq m) (row_of ex_amdq m)
                 1 4 n x)) ∧
    (∀ m n x, 0 ≤ m < 1 → 1 ≤ n < 4 - 1 → lookup2 ex_q m n = Some x →
       lookup2 q' m n
       = Some (x - get ex_dtdx n * get (row_of ex_apdq m) (n - 1)
                 - get ex_dtdx n * get (row_of ex_amdq m) n)%flt) ∧
    (∀ m n, ¬ (0 ≤ m < 1 ∧ 1 - 1 ≤ n < 4) →
       lookup2 q' m n = lookup2 ex_q m n).
Proof. exact (godunov_update_exact _ _ _ _ _ _ _ ex_godunov_shapes). Defined.

Lemma godunov_update_paths_agree_witness :
  ∃ q',
    godunov_update_compiled ex_dtdx ex_apdq ex_amdq 1 1 4 ex_q = Ok q' ∧
    godunov_update_numpy ex_dtdx ex_apdq ex_amdq 1 1 4 ex_q = Ok q'.
Proof.
  exact (godunov_update_paths_agree _ _ _ _ _ _ _ ex_godunov_shapes).
Defined.

(** ** The CFL number *)

Lemma for_range_pure {St : Type} (lo hi : Z) (body : Z → St → result St)
    (g : Z → St → St) (s : St) :
  (∀ i t, lo ≤ i < hi → body i t = Ok (g i t)) →
  for_range lo hi body s = Ok (foldl (λ t i, g i t) s (seqZ lo (hi - lo))).
Proof.
  intros Hbody.
  destruct (decide (hi ≤ lo)) as [Hle|Hlt].
  { rewrite for_range_empty by done. by rewrite seqZ_nil by lia. }
  destruct (for_range_invariant
    (λ k t, t = foldl (λ t i, g i t) s (seqZ lo (k - lo))) lo hi body s)
    as (s' & Hrun & ->); [lia | | | exact Hrun].
  - by rewrite seqZ_nil by lia.
  - intros i t Hi ->. eexists. split; [by apply Hbody|].
    replace (i + 1 - lo) with ((i - lo) + 1) by lia.
    rewrite seqZ_app by lia. rewrite foldl_app.
    replace (lo + (i - lo)) with i by lia.
    replace (seqZ i 1) with [i]; [done|].
    unfold seqZ. simpl. f_equal; lia.
Qed.

Section Order.
Context {F : Type} `{OrderLaws F}.

Lemma f_lt_asym (a b : F) : (a <? b)%flt = true → (b <? a)%flt = false.
Proof.
  intros Hab. destruct (b <? a)%flt eqn:Hba; [|done].
  pose proof (f_lt_trans a b a Hab Hba) as Haa.
  by rewrite f_lt_irrefl in Haa.
Qed.

(** [a <= b], as "not [b < a]", is transitive. *)
Lemma f_nlt_trans (a b c : F) :
  (b <? a)%flt = false → (c <? b)%flt = false → (c <? a)%flt = false.
Proof.
  intros Hab Hbc. destruct (c <? a)%flt eqn:Hca; [|done].
  destruct (a <? b)%flt eqn:Hab'.
  - by rewrite (f_lt_trans c a b Hca Hab') in Hbc.
  - pose proof (f_lt_total a b Hab' Hab) as ->. by rewrite Hca in Hbc.
Qed.

Lemma pymax_ge_l (a b : F) : (pymax a b <? a)%flt = false.
Proof.
  unfold pymax. destruct (a <? b)%flt eqn:Hab.
  - by apply f_lt_asym.
  - apply f_lt_irrefl.
Qed.

Lemma pymax_ge_r (a b : F) : (pymax a b <? b)%flt = false.
Proof.
  unfold pymax. destruct (a <? b)%flt eqn:Hab; [apply f_lt_irrefl | done].
Qed.

Lemma pymax_cases (a b : F) : pymax a b = a ∨ pymax a b = b.
Proof. unfold pymax. destruct (a <? b)%flt; auto. Qed.

Lemma pymax_absorb (c s a : F) :
  (c <? s)%flt = false → pymax c (pymax s a) = pymax c a.
Proof.
  intros Hsc. unfold pymax at 2. destruct (s <? a)%flt eqn:Hsa; [done|].
  unfold pymax. rewrite Hsc.
  by rewrite (f_nlt_trans a s c Hsa Hsc).
Qed.

Lemma pymax_idem (a : F) : pymax a a = a.
Proof. unfold pymax. by rewrite f_lt_irrefl. Qed.

Lemma cfl_step_bounded (st : cfl_state) (a b : F) :
  cfl_bounded st →
  (cfl_step st a b).1.1 = pymax3 st.1.1 a b ∧ cfl_bounded (cfl_step st a b).
Proof.
  destruct st as [[c s1] s2]. intros [H1 H2]. simpl in *.
  assert (pymax3 c (pymax s1 a) (pymax s2 b) = pymax3 c a b) as Heq.
  { unfold pymax3. rewrite (pymax_absorb c s1 a H1).
    apply pymax_absorb.
    eapply f_nlt_trans; [exact H2 | apply pymax_ge_l]. }
  assert ((pymax (pymax c a) b <? c)%flt = false) as Hc
    by (eapply f_nlt_trans; apply pymax_ge_l).
  split; [exact Heq|]. unfold cfl_bounded. simpl. rewrite Heq.
  unfold pymax3. split.
  - destruct (pymax_cases s1 a) as [-> | ->].
    + eapply f_nlt_trans; [exact H1 | exact Hc].
    + eapply f_nlt_trans; [apply pymax_ge_r | apply pymax_ge_l].
  - destruct (pymax_cases s2 b) as [-> | ->].
    + eapply f_nlt_trans; [exact H2 | exact Hc].
    + apply pymax_ge_r.
Qed.

(** The first iteration, on the seeds: they are its own two terms. *)
Lemma cfl_step_seed (a b : F) :
  (cfl_step (f_zero, a, b) a b).1.1 = pymax3 f_zero a b ∧
  cfl_bounded (cfl_step (f_zero, a, b) a b).
Proof.
  simpl. rewrite !pymax_idem.
  split; [done|]. unfold cfl_bounded, pymax3. simpl. split.
  - eapply f_nlt_trans; [apply pymax_ge_r | apply pymax_ge_l].
  - apply pymax_ge_r.
Qed.

Lemma cfl_inner_fold (dtdx : list F) (s : list (list F)) (mw : Z)
    (ns : list Z) (st : cfl_state) :
  cfl_bounded st →
  let st' := foldl (λ t n,
    cfl_step t (cfl_term1 dtdx s mw n) (cfl_term2 dtdx s mw n)) st ns in
  st'.1.1 = foldl (λ cfl n,
    pymax3 cfl (cfl_term1 dtdx s mw n) (cfl_term2 dtdx s mw n)) st.1.1 ns ∧
  cfl_bounded st'.
Proof.
  revert st. induction ns as [|n ns IH]; intros st Hst; simpl; [done|].
  destruct (cfl_step_bounded st (cfl_term1 dtdx s mw n)
              (cfl_term2 dtdx s mw n) Hst) as [Heq Hb].
  destruct (IH _ Hb) as [IH1 IH2]. simpl in IH1. rewrite IH1, Heq. done.
Qed.

Lemma cfl_outer_fold (dtdx : list F) (s : list (list F)) (ns mws : list Z)
    (st : cfl_state) :
  cfl_bounded st →
  let st' := foldl (λ t mw, foldl (λ t n,
    cfl_step t (cfl_term1 dtdx s mw n) (cfl_term2 dtdx s mw n)) t ns)
    st mws in
  st'.1.1 = foldl (λ cfl mw, foldl (λ cfl n,
    pymax3 cfl (cfl_term1 dtdx s mw n) (cfl_term2 dtdx s mw n)) cfl ns)
    st.1.1 mws ∧
  cfl_bounded st'.
Proof.
  revert st. induction mws as [|mw mws IH]; intros st Hst; simpl; [done|].
  destruct (cfl_inner_fold dtdx s mw ns st Hst) as [Heq Hb].
  destruct (IH _ Hb) as [IH1 IH2]. simpl in IH1, Heq.
  rewrite IH1, Heq. done.
Qed.

End Order.

Section CFL.
Context {F : Type} `{Float64 F}.

Lemma load1_signed_ok {A : Type} (name : string) (a : list A) (i : Z) (x : A) :
  lookupZ a i = Some x → load1_signed name a i = Ok x.
Proof.
  intros Hx. pose proof (lookupZ_length _ _ _ Hx).
  unfold load1_signed. rewrite bool_decide_eq_false_2 by lia.
  by apply load1_ok.
Qed.

Lemma load2_signed_ok {A : Type} (name : string) (a : list (list A))
    (i j : Z) (row : list A) (x : A) :
  lookupZ a i = Some row → lookupZ row j = Some x →
  load2_signed name a i j = Ok x.
Proof.
  intros Hrow Hx. unfold load2_signed.
  rewrite (load1_signed_ok _ _ _ _ Hrow). simpl. by apply load1_signed_ok.
Qed.

Lemma length_s_row (s : list (list F)) (mw LL UL : Z) :
  Forall (λ row, LL ≤ Z.of_nat (length row) ∧ UL - 1 ≤ Z.of_nat (length row))
    s →
  0 ≤ mw < Z.of_nat (length s) →
  LL ≤ Z.of_nat (length (row_of s mw)) ∧
  UL - 1 ≤ Z.of_nat (length (row_of s mw)).
Proof.
  intros Hs Hmw. rewrite Forall_forall in Hs. apply Hs.
  pose proof (row_of_lookup s mw Hmw) as Hl.
  apply lookupZ_Some in Hl as [_ Hl]. by eapply list_elem_of_lookup_2.
Qed.

Lemma compute_max_wave_speed_compiled_run (wave : list (list (list F)))
    (dtdx : list F) (s : list (list F)) (LL UL : Z) :
  cfl_shapes wave dtdx s LL UL →
  compute_max_wave_speed_compiled wave dtdx s LL UL
  = Ok (cfl_run (shape1 wave) dtdx s LL UL).1.1.
Proof.
  intros (HiLL & HiUL & HLL & Hd1 & Hd & Hnw & Hs & Hrows).
  unfold int_range in *.
  pose proof (length_s_row s 0 LL UL Hrows ltac:(lia)) as [Hr0 Hr0'].
  unfold compute_max_wave_speed_compiled.
  rewrite (load1_signed_ok _ dtdx LL (get dtdx LL))
    by (apply get_lookup; lia).
  rewrite result_bind_ok.
  rewrite (load2_signed_ok _ s 0 (LL - 1) (row_of s 0)
             (get (row_of s 0) (LL - 1)))
    by (apply row_of_lookup || apply get_lookup; lia).
  rewrite result_bind_ok.
  rewrite (load1_signed_ok _ dtdx (LL - 1) (get dtdx (LL - 1)))
    by (apply get_lookup; lia).
  rewrite !result_bind_ok.
  rewrite for_range_uint_small by lia.
  erewrite (for_range_pure 0 (shape1 wave) _
    (λ mw t, foldl (λ t n,
       cfl_step t (cfl_term1 dtdx s mw n) (cfl_term2 dtdx s mw n))
       t (seqZ LL (UL - LL)))).
  { simpl. unfold cfl_run. by rewrite Z.sub_0_r. }
  intros mw t Hmw. simpl.
  pose proof (length_s_row s mw LL UL Hrows ltac:(lia)) as [Hr Hr'].
  rewrite for_range_uint_small by lia.
  apply for_range_pure.
  intros n [[c s1] s2] Hn. simpl.
  rewrite (to_uint_small (n - 1)) by lia.
  rewrite (load1_ok _ dtdx n (get dtdx n)) by (apply get_lookup; lia).
  rewrite result_bind_ok.
  rewrite (load2_ok _ s mw (n - 1) (row_of s mw) (get (row_of s mw) (n - 1)))
    by (apply row_of_lookup || apply get_lookup; lia).
  rewrite result_bind_ok.
  rewrite (load1_ok _ dtdx (n - 1) (get dtdx (n - 1)))
    by (apply get_lookup; lia).
  by rewrite !result_bind_ok.
Qed.

End CFL.

Section CFL_claims.
Context {F : Type} `{OrderLaws F}.

Lemma cfl_run_accumulate (dtdx : list F) (s : list (list F))
    (mw0 n0 : Z) (mws ns : list Z) :
  (foldl (λ t mw,
     foldl (λ t n,
       cfl_step t (cfl_term1 dtdx s mw n) (cfl_term2 dtdx s mw n))
       t (n0 :: ns))
     (f_zero, cfl_term1 dtdx s mw0 n0, cfl_term2 dtdx s mw0 n0)
     (mw0 :: mws)).1.1
  = foldl (λ cfl mw,
      foldl (λ cfl n,
        pymax3 cfl (cfl_term1 dtdx s mw n) (cfl_term2 dtdx s mw n))
        cfl (n0 :: ns))
      f_zero (mw0 :: mws).
Proof.
  destruct (cfl_step_seed (cfl_term1 dtdx s mw0 n0) (cfl_term2 dtdx s mw0 n0))
    as [Hseed Hb0].
  destruct (cfl_inner_fold dtdx s mw0 ns _ Hb0) as [Hin Hb1].
  destruct (cfl_outer_fold dtdx s (n0 :: ns) mws _ Hb1) as [Hout _].
  etrans; [exact Hout|]. rewrite Hin, Hseed. reflexivity.
Qed.

Lemma is_maximum_foldl_pymax (l : list F) (c : F) :
  is_maximum (foldl pymax c l) (c :: l).
Proof.
  revert c. induction l as [|x l IH]; intros c; simpl.
  - split; [by left|]. intros t ->%list_elem_of_singleton.
    apply f_lt_irrefl.
  - destruct (IH (pymax c x)) as [Hin Hub]. split.
    + apply elem_of_cons in Hin as [Hin|Hin].
      * rewrite Hin. destruct (pymax_cases c x) as [-> | ->].
        -- by left.
        -- right. by left.
      * by do 2 right.
    + assert ((foldl pymax (pymax c x) l <? pymax c x)%flt = false) as Hm
        by (apply Hub; by left).
      intros t [->|[->|Ht]%elem_of_cons]%elem_of_cons.
      * eapply f_nlt_trans; [apply pymax_ge_l | exact Hm].
      * eapply f_nlt_trans; [apply pymax_ge_r | exact Hm].
      * apply Hub. by right.
Qed.

Lemma cfl_accumulate_flat (num_waves : Z) (dtdx : list F)
    (s : list (list F)) (LL UL : Z) :
  cfl_accumulate num_waves dtdx s LL UL
  = foldl pymax f_zero (cfl_terms num_waves dtdx s LL UL).
Proof.
  unfold cfl_accumulate, cfl_terms.
  generalize (seqZ 0 num_waves) as mws. generalize (seqZ LL (UL - LL)) as ns.
  generalize f_zero as c. intros c ns mws. revert c.
  induction mws as [|mw mws IH]; intros c; simpl; [done|].
  rewrite foldl_app. rewrite <- IH. f_equal.
  clear IH. revert c. induction ns as [|n ns IHn]; intros c; simpl; [done|].
  by rewrite <- IHn.
Qed.

(** C3, amended.  In exact arithmetic, where [<] is a strict total order
    (so without NaN): on arrays of fitting shapes, with at least one wave
    family and at least one interface in [LL .. UL-1], the compiled kernel,
    which is the one [compute_max_wave_speed] calls, returns the value of
    the accumulation
    [cfl = max(cfl, dtdx[n]*s[mw,n-1], -dtdx[n-1]*s[mw,n-1])] from [cfl = 0]
    over all families and interfaces, and that value is the greatest of 0
    and all these terms. *)
Theorem compute_max_wave_speed_exact (wave : list (list (list F)))
    (dtdx : list F) (s : list (list F)) (LL UL : Z) :
  cfl_shapes wave dtdx s LL UL → LL < UL →
  compute_max_wave_speed wave dtdx s LL UL
  = Ok (cfl_accumulate (shape1 wave) dtdx s LL UL) ∧
  compute_max_wave_speed_compiled wave dtdx s LL UL
  = Ok (cfl_accumulate (shape1 wave) dtdx s LL UL) ∧
  is_maximum (cfl_accumulate (shape1 wave) dtdx s LL UL)
    (f_zero :: cfl_terms (shape1 wave) dtdx s LL UL).
Proof.
  intros Hshapes Hlt.
  assert (compute_max_wave_speed_compiled wave dtdx s LL UL
          = Ok (cfl_accumulate (shape1 wave) dtdx s LL UL)) as Hrun.
  { rewrite compute_max_wave_speed_compiled_run by done. f_equal.
    destruct Hshapes as (_ & _ & _ & _ & _ & Hnw & _).
    unfold cfl_run, cfl_accumulate.
    rewrite (seqZ_cons 0) by lia. rewrite (seqZ_cons LL) by lia.
    apply cfl_run_accumulate. }
  split; [exact Hrun|]. split; [exact Hrun|].
  rewrite cfl_accumulate_flat. apply is_maximum_foldl_pymax.
Qed.

Lemma cfl_step_nonneg (st : cfl_state) (a b : F) :
  (st.1.1 <? f_zero)%flt = false →
  ((cfl_step st a b).1.1 <? f_zero)%flt = false.
Proof.
  destruct st as [[c s1] s2]. simpl. intros Hc. unfold pymax3.
  eapply f_nlt_trans; [exact Hc|].
  eapply f_nlt_trans; apply pymax_ge_l.
Qed.

Lemma cfl_run_nonneg (num_waves : Z) (dtdx : list F) (s : list (list F))
    (LL UL : Z) :
  ((cfl_run num_waves dtdx s LL UL).1.1 <? f_zero)%flt = false.
Proof.
  unfold cfl_run.
  generalize (seqZ 0 num_waves) as mws. generalize (seqZ LL (UL - LL)) as ns.
  intros ns mws.
  assert (∀ st : cfl_state, (st.1.1 <? f_zero)%flt = false →
    ((foldl (λ t mw, foldl (λ t n,
        cfl_step t (cfl_term1 dtdx s mw n) (cfl_term2 dtdx s mw n)) t ns)
        st mws).1.1 <? f_zero)%flt = false) as Hall.
  { induction mws as [|mw mws IH]; intros st Hst; simpl; [done|].
    apply IH. clear IH. revert st Hst.
    induction ns as [|n ns IHn]; intros st Hst; simpl; [done|].
    apply IHn. by apply cfl_step_nonneg. }
  apply Hall. simpl. apply f_lt_irrefl.
Qed.

(** C8.  On arrays of fitting shapes, with at least one wave family and
    [1 <= LL <= UL], the kernel returns a value, and the value is not
    negative, whatever the signs of the speeds are and also when there is
    no interface to sweep: the maxima [smax1] and [smax2] are seeded with
    terms of any sign, but [cfl] starts at 0 and never decreases. *)
Theorem compute_max_wave_speed_nonneg (wave : list (list (list F)))
    (dtdx : list F) (s : list (list F)) (LL UL : Z) :
  cfl_shapes wave dtdx s LL UL →
  ∃ cfl,
    compute_max_wave_speed wave dtdx s LL UL = Ok cfl ∧
    compute_max_wave_speed_compiled wave dtdx s LL UL = Ok cfl ∧
    (f_zero <=? cfl)%flt = true.
Proof.
  intros Hshapes. exists (cfl_run (shape1 wave) dtdx s LL UL).1.1.
  pose proof (compute_max_wave_speed_compiled_run _ _ _ _ _ Hshapes) as Hrun.
  split; [exact Hrun|]. split; [exact Hrun|].
  by rewrite f_le_lt, cfl_run_nonneg.
Qed.

End CFL_claims.

(** The rationals satisfy the order laws. *)
Lemma Qc_lt_true (a b : Qc) : (a <? b)%flt = true ↔ (a < b)%Qc.
Proof.
  change (a <? b)%flt
    with (match Qccompare a b with Lt => true | _ => false end).
  rewrite Qclt_alt. destruct (Qccompare a b); split; congruence.
Qed.

Lemma Qc_le_true (a b : Qc) : (a <=? b)%flt = true ↔ (a <= b)%Qc.
Proof.
  change (a <=? b)%flt
    with (match Qccompare a b with Gt => false | _ => true end).
  rewrite Qcle_alt. destruct (Qccompare a b); split; congruence.
Qed.

#[export] Instance Qc_order_laws : OrderLaws Qc.
Proof.
  split.
  - intros a. destruct (a <? a)%flt eqn:E; [|done].
    apply Qc_lt_true in E. by apply Qclt_not_eq in E.
  - intros a b c Hab%Qc_lt_true Hbc%Qc_lt_true. apply Qc_lt_true.
    by eapply Qclt_trans.
  - intros a b Hab Hba. apply Qcle_antisym.
    + apply Qcnot_lt_le. intros Hlt%Qc_lt_true. congruence.
    + apply Qcnot_lt_le. intros Hlt%Qc_lt_true. congruence.
  - intros a b.
    destruct (a <=? b)%flt eqn:Hle; destruct (b <? a)%flt eqn:Hlt; try done.
    + apply Qc_le_true in Hle. apply Qc_lt_true in Hlt.
      by destruct (Qcle_not_lt _ _ Hle).
    + assert (¬ (a <= b)%Qc) as Hn
        by (intros Hab%Qc_le_true; congruence).
      apply Qcnot_le_lt in Hn. apply Qc_lt_true in Hn. congruence.
Qed.

Lemma ex_cfl_shapes : cfl_shapes ex_wave ex_dtdx ex_s 1 4.
Proof.
  unfold cfl_shapes, int_range.
  repeat split; try (repeat constructor; simpl; lia); simpl; lia.
Defined.

Lemma compute_max_wave_speed_exact_witness :
  compute_max_wave_speed ex_wave ex_dtdx ex_s 1 4
  = Ok (cfl_accumulate (shape1 ex_wave) ex_dtdx ex_s 1 4) ∧
  compute_max_wave_speed_compiled ex_wave ex_dtdx ex_s 1 4
  = Ok (cfl_accumulate (shape1 ex_wave) ex_dtdx ex_s 1 4) ∧
  is_maximum (cfl_accumulate (shape1 ex_wave) ex_dtdx ex_s 1 4)
    (f_zero :: cfl_terms (shape1 ex_wave) ex_dtdx ex_s 1 4).
Proof.
  apply (compute_max_wave_speed_exact ex_wave ex_dtdx ex_s 1 4).
  - exact ex_cfl_shapes.
  - lia.
Defined.

Section NaN_speed.
#[local] Existing Instance nan_float64.

Lemma nan_cfl_shapes : cfl_shapes nan_wave nan_dtdx nan_s 1 4.
Proof.
  unfold cfl_shapes, int_range.
  repeat split; try (repeat constructor; simpl; lia); simpl; lia.
Qed.

(** C3 as stated fails for a speed array with a NaN: the kernel seeds
    [smax1] and [smax2] with the terms of the first interface and no
    comparison replaces a NaN, so with [s[0,LL-1]] a NaN both stay NaN,
    [cfl] is never raised and the kernel returns 0, while the accumulation
    from [cfl = 0] skips the two NaN terms and ends at [dtdx[2]*s[0,1]],
    which is 5/2. *)
Lemma compute_max_wave_speed_nan_counterexample :
  cfl_shapes nan_wave nan_dtdx nan_s 1 4 ∧ 1 < 4 ∧
  compute_max_wave_speed nan_wave nan_dtdx nan_s 1 4 = Ok f_zero ∧
  compute_max_wave_speed_compiled nan_wave nan_dtdx nan_s 1 4 = Ok f_zero ∧
  cfl_accumulate (shape1 nan_wave) nan_dtdx nan_s 1 4
  = (get nan_dtdx 2 * get (row_of nan_s 0) 1)%flt ∧
  (get nan_dtdx 2 * get (row_of nan_s 0) 1)%flt = Some (qc 5 2) ∧
  (f_zero <? cfl_accumulate (shape1 nan_wave) nan_dtdx nan_s 1 4)%flt = true.
Proof.
  split; [exact nan_cfl_shapes|]. split; [lia|].
  split; [vm_compute; reflexivity|]. split; [vm_compute; reflexivity|].
  split; [vm_compute; reflexivity|].
  split; [reflexivity | vm_compute; reflexivity].
Qed.

End NaN_speed.

(** No interface to sweep, and negative speeds only. *)
Lemma ex_cfl_shapes_empty : cfl_shapes ex_wave ex_dtdx ex_s_neg 2 2.
Proof.
  unfold cfl_shapes, int_range.
  repeat split; try (repeat constructor; simpl; lia); simpl; lia.
Defined.

Lemma compute_max_wave_speed_nonneg_witness :
  ∃ cfl,
    compute_max_wave_speed ex_wave ex_dtdx ex_s_neg 2 2 = Ok cfl ∧
    compute_max_wave_speed_compiled ex_wave ex_dtdx ex_s_neg 2 2 = Ok cfl ∧
    (f_zero <=? cfl)%flt = true.
Proof.
  exact (compute_max_wave_speed_nonneg _ _ _ _ _ ex_cfl_shapes_empty).
Defined.

(** ** Conservation *)

Section Conservation.
Context {F : Type} `{RingLaws F}.

Add Ring F_ring : (f_ring (F := F)).

Lemma sum_over_empty (f : Z → F) (a b : Z) : b ≤ a → sum_over f a b = f_zero.
Proof. intros. unfold sum_over. by rewrite seqZ_nil by lia. Qed.

Lemma sum_over_snoc (f : Z → F) (a b : Z) :
  a ≤ b → sum_over f a (b + 1) = (sum_over f a b + f b)%flt.
Proof.
  intros Hab. unfold sum_over.
  replace (b + 1 - a) with ((b - a) + 1) by lia.
  rewrite seqZ_app by lia. rewrite foldl_app.
  replace (a + (b - a)) with b by lia.
  replace (seqZ b 1) with [b]; [done|].
  unfold seqZ. simpl. f_equal; lia.
Qed.

Lemma sum_over_last (f : Z → F) (a b : Z) :
  a < b → sum_over f a b = (sum_over f a (b - 1) + f (b - 1)%Z)%flt.
Proof.
  intros Hab. replace b with (b - 1 + 1) at 1 by lia.
  by rewrite sum_over_snoc by lia.
Qed.

Lemma sum_over_ext (f g : Z → F) (a b : Z) :
  (∀ j, a ≤ j < b → f j = g j) → sum_over f a b = sum_over g a b.
Proof.
  intros Hfg. destruct (decide (b ≤ a)) as [Hle|Hlt].
  { by rewrite !sum_over_empty by done. }
  assert (∀ k : nat, a + Z.of_nat k ≤ b →
    sum_over f a (a + Z.of_nat k) = sum_over g a (a + Z.of_nat k)) as Hk.
  { induction k as [|k IH]; intros Hb.
    - by rewrite !sum_over_empty by lia.
    - replace (a + Z.of_nat (S k)) with (a + Z.of_nat k + 1) by lia.
      rewrite !sum_over_snoc by lia. rewrite IH by lia.
      by rewrite Hfg by lia. }
  specialize (Hk (Z.to_nat (b - a))).
  replace (a + Z.of_nat (Z.to_nat (b - a))) with b in Hk by lia.
  apply Hk. lia.
Qed.

(** A sum of flux differences telescopes. *)
Lemma sum_over_telescope (flux : Z → F) (a b : Z) :
  a ≤ b →
  sum_over (λ i, flux i - flux (i - 1)%Z)%flt a b
  = (flux (b - 1)%Z - flux (a - 1)%Z)%flt.
Proof.
  intros Hab.
  assert (∀ k : nat,
    sum_over (λ i, flux i - flux (i - 1)%Z)%flt a (a + Z.of_nat k)
    = (flux (a + Z.of_nat k - 1)%Z - flux (a - 1)%Z)%flt) as Hk.
  { induction k as [|k IH].
    - replace (a + Z.of_nat 0) with a by lia.
      rewrite sum_over_empty by lia. ring.
    - replace (a + Z.of_nat (S k)) with (a + Z.of_nat k + 1) by lia.
      rewrite sum_over_snoc by lia. rewrite IH.
      replace (a + Z.of_nat k + 1 - 1) with (a + Z.of_nat k) by lia. ring. }
  specialize (Hk (Z.to_nat (b - a))).
  by replace (a + Z.of_nat (Z.to_nat (b - a))) with b in Hk by lia.
Qed.

(** The sum of a swept row, for a constant [dtdx]. *)
Lemma sum_godunov_cells (dtdx ap am row : list F) (c : F) (LL UL : Z) :
  1 ≤ LL ≤ UL →
  (∀ n, LL - 1 ≤ n < UL → get dtdx n = c) →
  sum_over (λ j, godunov_cell dtdx ap am LL UL j (get row j)) (LL - 1) UL
  = (sum_cells row (LL - 1) UL
     - c * sum_over (λ i, get am i + get ap i) (LL - 1) (UL - 1))%flt.
Proof.
  intros HLL Hc.
  assert (∀ k : nat, LL + Z.of_nat k ≤ UL →
    sum_over (λ j, godunov_cell dtdx ap am LL (LL + Z.of_nat k) j (get row j))
      (LL - 1) (LL + Z.of_nat k)
    = (sum_cells row (LL - 1) (LL + Z.of_nat k)
       - c * sum_over (λ i, get am i + get ap i)
               (LL - 1) (LL + Z.of_nat k - 1))%flt) as Hk.
  { unfold sum_cells. induction k as [|k IH]; intros Hb.
    - replace (LL + Z.of_nat 0) with (LL - 1 + 1) by lia.
      rewrite !sum_over_snoc by lia.
      rewrite !sum_over_empty by lia.
      unfold godunov_cell. rewrite !bool_decide_eq_false_2 by lia. ring.
    - specialize (IH ltac:(lia)).
      replace (LL + Z.of_nat (S k)) with (LL + Z.of_nat k + 1) by lia.
      set (K := LL + Z.of_nat k) in *.
      rewrite (sum_over_last
        (λ j, godunov_cell dtdx ap am LL K j (get row j)) (LL - 1) K) in IH
        by lia.
      rewrite (sum_over_last
        (λ j, godunov_cell dtdx ap am LL (K + 1) j (get row j))
        (LL - 1) (K + 1)) by lia.
      rewrite (sum_over_last (get row) (LL - 1) (K + 1)) by lia.
      replace (K + 1 - 1) with K by lia.
      rewrite (sum_over_last (λ i, get am i + get ap i)%flt (LL - 1) K) by lia.
      rewrite (sum_over_last
        (λ j, godunov_cell dtdx ap am LL (K + 1) j (get row j))
        (LL - 1) K) by lia.
      rewrite (sum_over_ext
        (λ j, godunov_cell dtdx ap am LL (K + 1) j (get row j))
        (λ j, godunov_cell dtdx ap am LL K j (get row j)) (LL - 1) (K - 1)).
      2:{ intros j Hj. unfold godunov_cell.
          repeat case_bool_decide; try lia; done. }
      assert (godunov_cell dtdx ap am LL (K + 1) (K - 1) (get row (K - 1))
              = (godunov_cell dtdx ap am LL K (K - 1) (get row (K - 1))
                 - c * get am (K - 1))%flt) as ->.
      { unfold godunov_cell. rewrite (Hc (K - 1)) by lia.
        repeat case_bool_decide; try lia; done. }
      assert (godunov_cell dtdx ap am LL (K + 1) K (get row K)
              = (get row K - c * get ap (K - 1))%flt) as ->.
      { unfold godunov_cell. rewrite (Hc K) by lia.
        repeat case_bool_decide; try lia; done. }
      match type of IH with
      | (?s1 + ?v)%flt = _ =>
          transitivity ((s1 + v) - c * get am (K - 1)
                        + (get row K - c * get ap (K - 1)))%flt; [ring|]
      end.
      rewrite IH. ring. }
  specialize (Hk (Z.to_nat (UL - LL))).
  replace (LL + Z.of_nat (Z.to_nat (UL - LL))) with UL in Hk by lia.
  apply Hk. lia.
Qed.

Lemma get_godunov_row (dtdx ap am row : list F) (LL UL j : Z) :
  0 ≤ j < Z.of_nat (length row) →
  get (godunov_row dtdx ap am LL UL row) j
  = godunov_cell dtdx ap am LL UL j (get row j).
Proof.
  intros Hj. rewrite !get_nat by lia. rewrite lookup_godunov_row.
  destruct (lookup_lt_is_Some_2 row (Z.to_nat j)) as [x ->]; [lia|].
  simpl. by rewrite Z2Nat.id by lia.
Qed.

Lemma row_of_godunov_rows (dtdx : list F) (apdq amdq : list (list F))
    (num_eqn LL UL : Z) (q : list (list F)) (m : Z) :
  0 ≤ m < num_eqn → m < Z.of_nat (length q) →
  row_of (godunov_rows dtdx apdq amdq num_eqn LL UL q) m
  = godunov_row dtdx (row_of apdq m) (row_of amdq m) LL UL (row_of q m).
Proof.
  intros Hm Hlen. unfold row_of at 1 4, lookupZ.
  rewrite bool_decide_eq_true_2 by lia.
  rewrite lookup_godunov_rows.
  destruct (lookup_lt_is_Some_2 q (Z.to_nat m)) as [row ->]; [lia|].
  simpl. rewrite Z2Nat.id by lia.
  by rewrite bool_decide_eq_true_2 by lia.
Qed.

End Conservation.

Section Conservation_claim.
Context {F : Type} `{RingLaws F}.

Add Ring F_ring' : (f_ring (F := F)).

(** The sum over cells that lie between two swept interfaces, for a
    constant [dtdx]: besides the fluctuations of the interfaces [a .. b-1]
    it gains the right-going fluctuation that enters at [a - 1] and loses
    the one that leaves at [b - 1]. *)
Lemma sum_godunov_interior (dtdx ap am row : list F) (c : F) (LL UL a b : Z) :
  LL ≤ a ≤ b → b ≤ UL - 1 →
  (∀ n, a ≤ n < b → get dtdx n = c) →
  sum_over (λ j, godunov_cell dtdx ap am LL UL j (get row j)) a b
  = (sum_cells row a b
     - c * (sum_over (λ i, get am i + get ap i) a b
            + get ap (a - 1) - get ap (b - 1)))%flt.
Proof.
  intros Ha Hb Hc.
  assert (∀ k : nat, a + Z.of_nat k ≤ b →
    sum_over (λ j, godunov_cell dtdx ap am LL UL j (get row j))
      a (a + Z.of_nat k)
    = (sum_cells row a (a + Z.of_nat k)
       - c * (sum_over (λ i, get am i + get ap i) a (a + Z.of_nat k)
              + get ap (a - 1) - get ap (a + Z.of_nat k - 1)))%flt) as Hk.
  { unfold sum_cells. induction k as [|k IH]; intros Hk.
    - replace (a + Z.of_nat 0) with a by lia.
      rewrite !sum_over_empty by lia. ring.
    - specialize (IH ltac:(lia)).
      replace (a + Z.of_nat (S k)) with (a + Z.of_nat k + 1) by lia.
      set (K := a + Z.of_nat k) in *.
      rewrite !sum_over_snoc by lia. rewrite IH.
      replace (K + 1 - 1) with K by lia.
      unfold godunov_cell. rewrite (Hc K) by lia.
      rewrite !bool_decide_eq_true_2 by lia. ring. }
  specialize (Hk (Z.to_nat (b - a))).
  replace (a + Z.of_nat (Z.to_nat (b - a))) with b in Hk by lia.
  apply Hk. lia.
Qed.

(** C5, amended.  In exact arithmetic (the ring laws; on [double] every
    operation rounds, and the equalities need not hold to the last bit).
    For [dtdx] equal to [c] on the cells [LL-1 .. UL-1], the update changes
    the sum of row [m] of [q] over these cells by [- c] times the sum of
    [amdq[m,i] + apdq[m,i]] over the interfaces [LL-1 .. UL-2]; when these
    pairs are flux differences [F i - F (i-1)] with
    [F (UL-2) = F (LL-2)], that sum of [q] is unchanged.  Over cells
    [a .. b-1] inside the range, such as the physical cells, the sum changes
    by [- c] times the fluctuation pairs of the interfaces [a .. b-1] and
    the net right-going fluctuation [apdq[m,a-1] - apdq[m,b-1]] through the
    two ends; it is unchanged when the pairs are flux differences and both
    the fluxes and the right-going fluctuations agree at the two ends. *)
Theorem godunov_update_conservation (dtdx : list F)
    (apdq amdq : list (list F)) (num_eqn LL UL : Z) (q : list (list F))
    (c : F) (m : Z) :
  godunov_shapes dtdx apdq amdq num_eqn LL UL q →
  (∀ n, LL - 1 ≤ n < UL → get dtdx n = c) →
  0 ≤ m < num_eqn →
  ∃ q',
    godunov_update dtdx apdq amdq num_eqn LL UL q = Ok q' ∧
    let fluct := λ i, (get (row_of amdq m) i + get (row_of apdq m) i)%flt in
    sum_cells (row_of q' m) (LL - 1) UL
    = (sum_cells (row_of q m) (LL - 1) UL
       - c * sum_over fluct (LL - 1) (UL - 1))%flt ∧
    (∀ flux : Z → F,
       (∀ i, LL - 1 ≤ i < UL - 1 →
          fluct i = (flux i - flux (i - 1)%Z)%flt) →
       flux (UL - 2) = flux (LL - 2) →
       sum_cells (row_of q' m) (LL - 1) UL
       = sum_cells (row_of q m) (LL - 1) UL) ∧
    (∀ a b, LL ≤ a ≤ b → b ≤ UL - 1 →
       sum_cells (row_of q' m) a b
       = (sum_cells (row_of q m) a b
          - c * (sum_over fluct a b + get (row_of apdq m) (a - 1)
                 - get (row_of apdq m) (b - 1)))%flt) ∧
    (∀ (flux : Z → F) a b, LL ≤ a ≤ b → b ≤ UL - 1 →
       (∀ i, a ≤ i < b → fluct i = (flux i - flux (i - 1)%Z)%flt) →
       flux (b - 1) = flux (a - 1) →
       get (row_of apdq m) (b - 1) = get (row_of apdq m) (a - 1) →
       sum_cells (row_of q' m) a b = sum_cells (row_of q m) a b).
Proof.
  intros Hshapes Hc Hm.
  exists (godunov_rows dtdx apdq amdq num_eqn LL UL q).
  split; [by apply godunov_update_compiled_rows|].
  destruct Hshapes as (_ & _ & _ & _ & HLL & _ & Hq & _ & _ & Hrq & _ & _).
  rewrite row_of_godunov_rows by lia.
  set (row := row_of q m). set (ap := row_of apdq m).
  set (am := row_of amdq m).
  assert (UL ≤ Z.of_nat (length row)) as Hlen.
  { rewrite Forall_forall in Hrq. apply Hrq.
    pose proof (row_of_lookup q m ltac:(lia)) as Hl.
    apply lookupZ_Some in Hl as [_ Hl]. by eapply list_elem_of_lookup_2. }
  assert (∀ a b, LL - 1 ≤ a → b ≤ UL →
    sum_cells (godunov_row dtdx ap am LL UL row) a b
    = sum_over (λ j, godunov_cell dtdx ap am LL UL j (get row j)) a b)
    as Hsum.
  { intros a b Ha Hb. apply sum_over_ext. intros j Hj.
    apply get_godunov_row. lia. }
  assert (sum_cells (godunov_row dtdx ap am LL UL row) (LL - 1) UL
          = (sum_cells row (LL - 1) UL
             - c * sum_over (λ i, get am i + get ap i) (LL - 1) (UL - 1))%flt)
    as Htotal.
  { rewrite Hsum by lia. by apply sum_godunov_cells. }
  assert (∀ a b, LL ≤ a ≤ b → b ≤ UL - 1 →
    sum_cells (godunov_row dtdx ap am LL UL row) a b
    = (sum_cells row a b
       - c * (sum_over (λ i, get am i + get ap i) a b
              + get ap (a - 1) - get ap (b - 1)))%flt) as Hinner.
  { intros a b Ha Hb. rewrite Hsum by lia.
    apply sum_godunov_interior; [done..|]. intros n Hn. apply Hc. lia. }
  intros fluct. split; [exact Htotal|]. split; [|split; [exact Hinner|]].
  - intros flux Hflux Hends. rewrite Htotal.
    rewrite (sum_over_ext _ (λ i, flux i - flux (i - 1)%Z)%flt) by exact Hflux.
    rewrite sum_over_telescope by lia.
    replace (UL - 1 - 1) with (UL - 2) by lia.
    replace (LL - 1 - 1) with (LL - 2) by lia.
    rewrite Hends. ring.
  - intros flux a b Ha Hb Hflux Hends Hap. rewrite Hinner by done.
    rewrite (sum_over_ext _ (λ i, flux i - flux (i - 1)%Z)%flt) by exact Hflux.
    rewrite sum_over_telescope by lia.
    rewrite Hends, Hap. ring.
Qed.

End Conservation_claim.

(** The rationals satisfy the ring laws. *)
#[export] Instance Qc_ring_laws : RingLaws Qc := {| f_ring := Qcrt |}.

(** A property that holds at every element of a range holds on the range. *)
Lemma forall_range (P : Z → Prop) (a b : Z) :
  Forall P (seqZ a (b - a)) → ∀ n, a ≤ n < b → P n.
Proof.
  intros Hall n Hn. rewrite Forall_forall in Hall. apply Hall.
  apply elem_of_seqZ. lia.
Qed.

Lemma pulse_shapes :
  godunov_shapes pulse_dtdx pulse_apdq pulse_amdq 1 1 6 pulse_q.
Proof.
  unfold godunov_shapes, int_range.
  repeat split; try (repeat constructor; simpl; lia); simpl; lia.
Defined.

(** The pulse in the middle of the grid: the sum over the physical cells
    [2 .. 4] is unchanged. *)
Lemma godunov_update_conservation_witness :
  ∃ q',
    godunov_update pulse_dtdx pulse_apdq pulse_amdq 1 1 6 pulse_q = Ok q' ∧
    sum_cells (row_of q' 0) 2 5 = sum_cells (row_of pulse_q 0) 2 5.
Proof.
  destruct (godunov_update_conservation pulse_dtdx pulse_apdq pulse_amdq
              1 1 6 pulse_q (qc 1 2) 0 pulse_shapes)
    as (q' & Hrun & _ & _ & _ & Hphys).
  - apply forall_range. repeat constructor.
  - lia.
  - exists q'. split; [exact Hrun|].
    apply (Hphys pulse_flux 2 5); [lia | lia | | reflexivity | reflexivity].
    apply forall_range.
    repeat constructor; apply Qc_is_canon; reflexivity.
Defined.

(** C5 as stated fails: with the fluctuations of [edge_apdq] and [edge_amdq]
    every pair [amdq + apdq] is the difference of the fluxes [edge_flux],
    which are all equal, and yet the sum over the physical cell changes. *)
Lemma conservation_physical_cells_counterexample :
  ∃ q',
    godunov_update edge_dtdx edge_apdq edge_amdq 1 1 4 edge_q = Ok q' ∧
    (∀ n, 1 - 1 ≤ n < 4 → get edge_dtdx n = qc 1 1) ∧
    (∀ i, 1 - 1 ≤ i < 4 - 1 →
       (get (row_of edge_amdq 0) i + get (row_of edge_apdq 0) i)%flt
       = (edge_flux i - edge_flux (i - 1))%flt) ∧
    edge_flux (4 - 2) = edge_flux (1 - 2) ∧
    sum_cells (row_of q' 0) 2 3 ≠ sum_cells (row_of edge_q 0) 2 3.
Proof.
  eexists. split; [vm_compute; reflexivity|].
  split; [|split; [|split]].
  - apply forall_range. repeat constructor.
  - apply forall_range. repeat constructor; apply Qc_is_canon; reflexivity.
  - reflexivity.
  - intros Heq. apply (f_equal this) in Heq. vm_compute in Heq. discriminate.
Qed.

(** ** The step driver *)

Section Driver_claims.
Context {F : Type} `{Float64 F} {Src Cfl Env : Type}.
Variable ext : collaborators F Src Cfl Env.

Lemma run_bind {A B : Type} (d : driver A) (k : A → driver B)
    (w : world F Src Cfl Env) :
  run (d ≫= k) w
  = match run d w with
    | Ok (a, w1, log1) =>
        match run (k a) w1 with
        | Ok (b, w2, log2) => Ok (b, w2, log1 ++ log2)
        | Fault e => Fault e
        end
    | Fault e => Fault e
    end.
Proof.
  unfold mbind, driver_bind. simpl.
  destruct (run d w) as [[[a w1] log1]|e]; simpl; [|done].
  by destruct (run (k a) w1) as [[[b w2] log2]|e].
Qed.

Lemma run_invoke (c : call F Src) (body : world F Src Cfl Env → result _)
    (w : world F Src Cfl Env) :
  run (invoke c body) w
  = match body w with Ok w' => Ok ((), w', [c]) | Fault e => Fault e end.
Proof. unfold invoke. simpl. by destruct (body w). Qed.

Lemma run_attr {A : Type} (field : world F Src Cfl Env → A)
    (w : world F Src Cfl Env) :
  run (attr field) w = Ok (field w, w, []).
Proof. reflexivity. Qed.

Lemma run_ret {A : Type} (a : A) (w : world F Src Cfl Env) :
  run (mret a) w = Ok (a, w, []).
Proof. reflexivity. Qed.

(** Running a computation of the driver up to its next call. *)
Ltac drive :=
  repeat (first [ rewrite run_bind | rewrite run_invoke
                | rewrite run_attr | rewrite run_ret ];
          cbv iota beta).

(** The first part of [step] ends with the call of [step_hyperbolic]. *)
Lemma step_to_hyperbolic_log (take_one_step : bool) (tstart tend : F)
    (w w1 : world F Src Cfl Env) (log1 : list (call F Src)) :
  run (step_to_hyperbolic ext take_one_step tstart tend) w = Ok ((), w1, log1) →
  ∃ pre, log1 = pre ++ [CallStepHyperbolic].
Proof.
  unfold step_to_hyperbolic. drive.
  destruct (get_dt ext w tstart tend take_one_step) as [wa|e]; [|done].
  drive.
  match goal with
  | |- context [run (if ?c then ?x else ?y) ?w'] =>
      destruct (run (if c then x else y) w') as [[[[] wc] lc]|e]; [|done]
  end.
  drive.
  destruct (step_hyperbolic ext wc) as [wd|e]; [|done].
  cbv iota beta. intros [= <- <-].
  by exists (CallGetDt :: CallSetGlobalMax f_zero :: lc).
Qed.

(** C2, amended.  Let the first part of [step] end in the world [w1]: the
    hyperbolic sub-step is its last call, and [c] is the CFL number that the
    tracker then holds.  If the comparison [c >= cfl_max] is true, [step]
    returns [False] at once: the world is [w1] and no call follows.
    Whenever [step] returns, it returns [False] exactly when that comparison
    is true and [True] exactly when it is false: a CFL number equal to
    [cfl_max] is rejected, and a NaN, with which every comparison is false,
    is accepted.  No law of arithmetic is assumed. *)
Theorem step_rejects_cfl_ge_cfl_max (take_one_step : bool) (tstart tend : F)
    (w w1 : world F Src Cfl Env) (log1 : list (call F Src)) :
  run (step_to_hyperbolic ext take_one_step tstart tend) w = Ok ((), w1, log1) →
  let c := get_cached_max ext (cfl w1) in
  (∃ pre, log1 = pre ++ [CallStepHyperbolic]) ∧
  ((cfl_max w1 <=? c)%flt = true →
     run (step ext take_one_step tstart tend) w = Ok (false, w1, log1)) ∧
  (∀ b w2 log,
     run (step ext take_one_step tstart tend) w = Ok (b, w2, log) →
     (b = false ↔ (cfl_max w1 <=? c)%flt = true) ∧
     (b = true ↔ (cfl_max w1 <=? c)%flt = false) ∧
     (b = false → w2 = w1 ∧ log = log1)).
Proof.
  intros Hpre c.
  split; [by eapply step_to_hyperbolic_log|].
  unfold step. rewrite run_bind, Hpre. cbv iota beta.
  unfold step_after_hyperbolic. drive.
  fold c.
  destruct (cfl_max w1 <=? c)%flt eqn:Hc; cbv iota.
  - drive. rewrite !app_nil_r. split; [done|].
    intros b w2 log [= <- <- <-]. by repeat split.
  - split; [done|]. intros b w2 log. drive.
    match goal with
    | |- context [run (if ?g then ?x else ?y) ?w'] =>
        destruct (run (if g then x else y) w') as [[[[] wc] lc]|e]; [|done]
    end.
    drive. intros [= <- <- <-]. by repeat split.
Qed.

(** C6.  Let [get_dt] leave the world [wa], and let the hyperbolic step and
    the source-term routine leave the splitting mode, the routine and the
    step size [dt] as they are.  In a step that returns [True], under Strang
    splitting the routine is called twice with [dt / 2], once before the
    hyperbolic step and once after it; under Godunov splitting it is called
    once, after the hyperbolic step, with [dt]; and without a routine the
    step makes no such call, whatever it returns.  In a step that returns
    [False] only the call before the hyperbolic step is made. *)
Theorem step_source_calls (take_one_step : bool) (tstart tend : F)
    (w wa : world F Src Cfl Env) :
  get_dt ext w tstart tend take_one_step = Ok wa →
  keeps_config (step_hyperbolic ext) →
  (∀ routine h, keeps_config (λ w, run_source ext routine w h)) →
  ∀ b w2 log,
    run (step ext take_one_step tstart tend) w = Ok (b, w2, log) →
    (∀ routine,
       source_split wa = 2 → step_source wa = Some routine →
       let half := (dt wa / f_two)%flt in
       if b
       then log = [CallGetDt; CallSetGlobalMax f_zero;
                   CallStepSource routine half; CallStepHyperbolic;
                   CallStepSource routine half] ∧
            source_calls log = [(routine, half); (routine, half)]
       else log = [CallGetDt; CallSetGlobalMax f_zero;
                   CallStepSource routine half; CallStepHyperbolic] ∧
            source_calls log = [(routine, half)]) ∧
    (∀ routine,
       source_split wa = 1 → step_source wa = Some routine →
       if b
       then log = [CallGetDt; CallSetGlobalMax f_zero; CallStepHyperbolic;
                   CallStepSource routine (dt wa)] ∧
            source_calls log = [(routine, dt wa)]
       else log = [CallGetDt; CallSetGlobalMax f_zero; CallStepHyperbolic] ∧
            source_calls log = []) ∧
    (step_source wa = None →
       log = [CallGetDt; CallSetGlobalMax f_zero; CallStepHyperbolic] ∧
       source_calls log = []).
Proof.
  intros Hdt Hhyp Hsrc b w2 log.
  unfold step, step_to_hyperbolic. drive. rewrite Hdt. drive.
  cbn [source_split step_source dt cfl_max cfl env].
  set (wb := World _ _ _ _ _ _).
  assert (source_split wb = source_split wa ∧ step_source wb = step_source wa
          ∧ dt wb = dt wa) as (Hb1 & Hb2 & Hb3) by done.
  destruct (step_source wa) as [r|] eqn:Hr.
  - destruct (decide (source_split wa = 2)) as [Hsplit|Hsplit].
    + rewrite bool_decide_eq_true_2 by done.
      rewrite bool_decide_eq_true_2 by eauto. cbn [andb].
      drive. unfold call_step_source at 1. drive. rewrite Hb2. drive.
      rewrite Hb3.
      destruct (run_source ext r wb (dt wa / f_two)%flt) as [wc|e] eqn:Hc;
        [|done].
      destruct (Hsrc r _ wb wc Hc) as (Hc1 & Hc2 & Hc3).
      drive.
      destruct (step_hyperbolic ext wc) as [wd|e] eqn:Hd; [|done].
      destruct (Hhyp wc wd Hd) as (Hd1 & Hd2 & Hd3).
      drive. unfold step_after_hyperbolic. drive.
      destruct (cfl_max wd <=? get_cached_max ext (cfl wd))%flt.
      { drive. intros [= <- <- <-].
        split; [|split]; [| intros routine Hone; lia | done].
        intros routine _ [= <-]. done. }
      drive.
      rewrite Hd2, Hc2, Hb2. rewrite bool_decide_eq_true_2 by eauto.
      drive. rewrite Hd1, Hc1, Hb1.
      rewrite bool_decide_eq_true_2 by done.
      drive. unfold call_step_source at 1. drive.
      rewrite Hd2, Hc2, Hb2. drive. rewrite Hd3, Hc3, Hb3.
      destruct (run_source ext r wd (dt wa / f_two)%flt) as [we|e] eqn:He;
        [|done].
      destruct (Hsrc r _ wd we He) as (He1 & He2 & He3).
      drive. rewrite He1, Hd1, Hc1, Hb1.
      rewrite bool_decide_eq_false_2 by lia.
      drive. intros [= <- <- <-].
      split; [|split]; [| intros routine Hone; lia | done].
      intros routine _ [= <-]. done.
    + rewrite bool_decide_eq_false_2 by done. cbn [andb].
      drive.
      destruct (step_hyperbolic ext wb) as [wd|e] eqn:Hd; [|done].
      destruct (Hhyp wb wd Hd) as (Hd1 & Hd2 & Hd3).
      drive. unfold step_after_hyperbolic. drive.
      destruct (cfl_max wd <=? get_cached_max ext (cfl wd))%flt.
      { drive. intros [= <- <- <-].
        split; [|split]; [intros routine Htwo; lia | | done].
        intros routine _ _. done. }
      drive.
      rewrite Hd2, Hb2. rewrite bool_decide_eq_true_2 by eauto.
      drive. rewrite Hd1, Hb1.
      rewrite bool_decide_eq_false_2 by done.
      drive. rewrite Hd1, Hb1.
      destruct (decide (source_split wa = 1)) as [Hone|Hone].
      * rewrite bool_decide_eq_true_2 by done.
        drive. unfold call_step_source at 1. drive.
        rewrite Hd2, Hb2. drive. rewrite Hd3, Hb3.
        destruct (run_source ext r wd (dt wa)) as [we|e] eqn:He; [|done].
        drive. intros [= <- <- <-].
        split; [|split]; [intros routine Htwo; lia | | done].
        intros routine _ [= <-]. done.
      * rewrite bool_decide_eq_false_2 by done.
        drive. intros [= <- <- <-].
        split; [|split]; [intros; lia.. | done].
  - rewrite (bool_decide_eq_false_2 (is_Some None))
      by (intros [? ?]; done).
    rewrite andb_false_r. drive.
    destruct (step_hyperbolic ext wb) as [wd|e] eqn:Hd; [|done].
    destruct (Hhyp wb wd Hd) as (Hd1 & Hd2 & Hd3).
    drive. unfold step_after_hyperbolic. drive.
    destruct (cfl_max wd <=? get_cached_max ext (cfl wd))%flt.
    { drive. intros [= <- <- <-].
      split; [|split]; [intros; done.. | done]. }
    drive. rewrite Hd2, Hb2.
    rewrite (bool_decide_eq_false_2 (is_Some None))
      by (intros [? ?]; done).
    drive. intros [= <- <- <-].
    split; [|split]; [intros; done.. | done].
Qed.

End Driver_claims.

Lemma demo_keeps_config_hyperbolic : keeps_config (step_hyperbolic demo_ext).
Proof. intros w w' [= <-]. done. Defined.

Lemma demo_keeps_config_source (routine : ()) (h : Qc) :
  keeps_config (λ w, run_source demo_ext routine w h).
Proof. intros w w' [= <-]. done. Defined.

(** [cfl_max = 1] and a measured CFL number of 3/2 under Godunov splitting:
    the step fails after the hyperbolic sub-step, and the source-term
    routine is not called. *)
Lemma step_rejects_cfl_ge_cfl_max_witness :
  run (step demo_ext true (qc 0 1) (qc 1 1))
      (demo_world 1 (Some ()) (qc 3 2))
  = Ok (false,
        World 1 (Some ()) (qc 1 1) (qc 1 10) (qc 3 2) (qc 3 2),
        [CallGetDt; CallSetGlobalMax (qc 0 1); CallStepHyperbolic]) ∧
  source_calls (Src := ())
    [CallGetDt; CallSetGlobalMax (qc 0 1); CallStepHyperbolic] = [].
Proof.
  assert (run (step_to_hyperbolic demo_ext true (qc 0 1) (qc 1 1))
              (demo_world 1 (Some ()) (qc 3 2))
          = Ok ((), World 1 (Some ()) (qc 1 1) (qc 1 10) (qc 3 2) (qc 3 2),
                [CallGetDt; CallSetGlobalMax (qc 0 1); CallStepHyperbolic]))
    as Hpre by (vm_compute; reflexivity).
  destruct (step_rejects_cfl_ge_cfl_max demo_ext true (qc 0 1) (qc 1 1)
              _ _ _ Hpre) as (_ & Hreject & _).
  split; [apply Hreject; vm_compute; reflexivity | reflexivity].
Defined.

(** C2 as stated fails: with [cfl_max = 1] and a measured CFL number of
    exactly 1, which does not exceed [cfl_max], the step returns [False]. *)
Lemma step_rejects_cfl_equal_to_cfl_max :
  ∃ w1 log,
    run (step demo_ext true (qc 0 1) (qc 1 1))
        (demo_world 1 (Some ()) (qc 1 1))
    = Ok (false, w1, log) ∧
    get_cached_max demo_ext (cfl w1) = qc 1 1 ∧
    cfl_max w1 = qc 1 1 ∧
    (cfl_max w1 <? get_cached_max demo_ext (cfl w1))%flt = false.
Proof.
  exists (World 1 (Some ()) (qc 1 1) (qc 1 10) (qc 1 1) (qc 1 1)).
  exists [CallGetDt; CallSetGlobalMax (qc 0 1); CallStepHyperbolic].
  repeat split; vm_compute; reflexivity.
Qed.

Section NaN_step.
#[local] Existing Instance nan_float64.

(** A measured CFL number that is a NaN under Godunov splitting: the
    comparison with [cfl_max = 1] is false, the step returns [True] and the
    source-term routine is called with the whole step. *)
Lemma step_accepts_nan_cfl :
  run (step nan_ext true (Some (qc 0 1)) (Some (qc 1 1)))
      (nan_world 1 (Some ()) None)
  = Ok (true,
        World 1 (Some ()) (Some (qc 1 1)) (Some (qc 1 10)) None None,
        [CallGetDt; CallSetGlobalMax (Some (qc 0 1)); CallStepHyperbolic;
         CallStepSource () (Some (qc 1 10))]) ∧
  (Some (qc 1 1) <=? (None : nan_qc))%flt = false.
Proof. split; vm_compute; reflexivity. Qed.

End NaN_step.

(** Strang splitting with a CFL number of 1/2: the step succeeds and the
    routine is called twice with half of the step 1/10. *)
Lemma step_source_calls_witness :
  ∃ w2 log,
    run (step demo_ext true (qc 0 1) (qc 1 1))
        (demo_world 2 (Some ()) (qc 1 2))
    = Ok (true, w2, log) ∧
    source_calls log = [((), (qc 1 10 / f_two)%flt);
                        ((), (qc 1 10 / f_two)%flt)].
Proof.
  assert (∃ w2 log,
    run (step demo_ext true (qc 0 1) (qc 1 1))
        (demo_world 2 (Some ()) (qc 1 2)) = Ok (true, w2, log))
    as (w2 & log & Hrun) by (vm_compute; eauto).
  exists w2, log. split; [exact Hrun|].
  assert (get_dt demo_ext (demo_world 2 (Some ()) (qc 1 2))
            (qc 0 1) (qc 1 1) true
          = Ok (World 2 (Some ()) (qc 1 1) (qc 1 10) (qc 0 1) (qc 1 2)))
    as Hdt by reflexivity.
  destruct (step_source_calls demo_ext true (qc 0 1) (qc 1 1) _ _
              Hdt demo_keeps_config_hyperbolic demo_keeps_config_source
              true w2 log Hrun) as (Hstrang & _ & _).
  by destruct (Hstrang () eq_refl eq_refl) as [_ Hcalls].
Defined.

(** ** The limiter list *)

Lemma list_times_singleton {A : Type} (x : A) (n : Z) :
  list_times [x] n = replicate (Z.to_nat n) x.
Proof.
  unfold list_times. induction (Z.to_nat n) as [|k IH]; simpl; [done|].
  by rewrite IH.
Qed.

(** C7.  For a number of wave families [num_waves >= 0]: a value that is
    not a list, and a list of length 1, are replicated [num_waves] times; a
    list of length [num_waves] is kept; for a list of any other length the
    method raises; and whenever it returns, [_mthlim] holds exactly one
    limiter per wave family. *)
Theorem set_mthlim_resolves {A : Type} (num_waves : Z) :
  0 ≤ num_waves →
  (∀ a : A,
     _set_mthlim (Atom a) num_waves
     = (replicate (Z.to_nat num_waves) (Atom a), Ok ())) ∧
  (∀ x : value A,
     _set_mthlim (PyList [x]) num_waves
     = (replicate (Z.to_nat num_waves) x, Ok ())) ∧
  (∀ items : list (value A),
     Z.of_nat (length items) = num_waves →
     _set_mthlim (PyList items) num_waves = (items, Ok ())) ∧
  (∀ items : list (value A),
     Z.of_nat (length items) ≠ 1 → Z.of_nat (length items) ≠ num_waves →
     _set_mthlim (PyList items) num_waves
     = (items, Fault (Raised "Exception"))) ∧
  (∀ (limiters : value A) (mthlim : list (value A)),
     _set_mthlim limiters num_waves = (mthlim, Ok ()) →
     Z.of_nat (length mthlim) = num_waves).
Proof.
  intros Hnw.
  assert (∀ x : value A,
    _set_mthlim (PyList [x]) num_waves
    = (replicate (Z.to_nat num_waves) x, Ok ())) as Hone.
  { intros x. unfold _set_mthlim. simpl length.
    rewrite !(bool_decide_eq_true_2 (Z.of_nat 1 = 1)) by done.
    rewrite list_times_singleton.
    by rewrite bool_decide_eq_false_2 by (rewrite length_replicate; lia). }
  split; [|split; [|split; [|split]]].
  - intros a. apply (Hone (Atom a)).
  - exact Hone.
  - intros items Hlen.
    destruct (decide (Z.of_nat (length items) = 1)) as [Hl1|Hl1].
    + destruct items as [|x [|y items]]; simpl in Hl1; try lia.
      rewrite Hone. simpl in Hlen. by subst num_waves.
    + unfold _set_mthlim.
      rewrite !(bool_decide_eq_false_2 (Z.of_nat (length items) = 1)) by done.
      by rewrite bool_decide_eq_false_2 by lia.
  - intros items Hl1 Hln. unfold _set_mthlim.
    rewrite !(bool_decide_eq_false_2 (Z.of_nat (length items) = 1)) by done.
    by rewrite bool_decide_eq_true_2 by done.
  - intros limiters mthlim. unfold _set_mthlim. cbv zeta.
    match goal with
    | |- (if bool_decide (Z.of_nat (length ?m) ≠ _) then _ else _) = _ → _ =>
        destruct (decide (Z.of_nat (length m) = num_waves)) as [Heq|Hne]
    end.
    + rewrite bool_decide_eq_false_2 by lia. by intros [= <-].
    + by rewrite bool_decide_eq_true_2 by done.
Qed.

(** One limiter for three wave families. *)
Lemma set_mthlim_resolves_witness :
  _set_mthlim (Atom 1) 3 = ([Atom 1; Atom 1; Atom 1], Ok ()) ∧
  _set_mthlim (PyList [Atom 1; Atom 2]) 3
  = ([Atom 1; Atom 2], Fault (Raised "Exception")).
Proof.
  destruct (set_mthlim_resolves (A := Z) 3 ltac:(lia))
    as (Hatom & _ & _ & Hother & _).
  split.
  - apply (Hatom 1).
  - apply (Hother [Atom 1; Atom 2]); simpl; lia.
Defined.

(** ** The correction fluxes in flux-splitting mode *)

(** C4 fails on the code.  With one equation, one wave family, one cell and
    two ghost cells ([LL = 1], [UL = 4]) and [fwave] set, the compiled
    kernel, which [compute_correction_fluxes] calls, stores [ssign[3]] in an
    array of three cells and returns no array [f]; the fallback branch
    returns the fluxes of the specification. *)
Theorem fwave_correction_not_computed :
  compute_correction_fluxes ex_wave ex_s ex_dtdx 1 2 1 1 4 true
  = Fault (OutOfBounds "ssign" 3) ∧
  ∃ f,
    compute_correction_fluxes_numpy ex_wave ex_s ex_dtdx 1 2 1 1 4 true
    = Ok f ∧
    ∀ n, 1 ≤ n < 4 →
      lookup2 f 0 n
      = Some (f_zero + fwave_correction ex_wave ex_s ex_dtdx 0 0 n)%flt.
Proof.
  split; [vm_compute; reflexivity|].
  eexists. split; [vm_compute; reflexivity|].
  apply forall_range.
  repeat constructor; simpl; f_equal; apply Qc_is_canon; reflexivity.
Qed.

(** C9 fails on the code.  On the same input, where [ssign] has
    [UL - LL = 3] cells, the loops write the cells 1, 2, 3 and then read the
    cells 0, 1, 2: the write of cell 3 is outside the array, and the read of
    cell 0 is of a cell that was never written. *)
Theorem ssign_accesses_unsafe :
  ssign_accesses ex_wave ex_s ex_dtdx 1 2 1 1 4 1
  = Ok [Write 1; Write 2; Write 3; Read 0; Read 1; Read 2] ∧
  ¬ accesses_in_bounds (4 - 1)
      [Write 1; Write 2; Write 3; Read 0; Read 1; Read 2] ∧
  ¬ reads_written [] [Write 1; Write 2; Write 3; Read 0; Read 1; Read 2] ∧
  compute_correction_fluxes_compiled ex_wave ex_s ex_dtdx 1 2 1 1 4 1
  = Fault (OutOfBounds "ssign" 3).
Proof.
  split; [vm_compute; reflexivity|]. split; [|split].
  - intros Hall. unfold accesses_in_bounds in Hall.
    rewrite !Forall_cons in Hall. simpl in Hall. lia.
  - simpl. intros [Hin _]. rewrite !elem_of_cons, elem_of_nil in Hin.
    destruct Hin as [?|[?|[?|[]]]]; done.
  - vm_compute. reflexivity.
Qed.

(** *** The accesses to [ssign] on every input *)

Lemma for_each_log {St : Type} (proj : St → list access)
    (ev : Z → list access) (idx : list Z) (body : Z → St → result St)
    (s s' : St) :
  (∀ i t t', body i t = Ok t' → proj t' = proj t ++ ev i) →
  for_each idx body s = Ok s' →
  proj s' = proj s ++ (idx ≫= ev).
Proof.
  intros Hbody. revert s. induction idx as [|i idx IH]; intros s; simpl.
  - intros [= <-]. by rewrite app_nil_r.
  - destruct (body i s) as [t|e] eqn:Ht; simpl; [|done].
    intros Hrun. rewrite (IH _ Hrun), (Hbody _ _ _ Ht).
    by rewrite <- app_assoc.
Qed.

(** Inverting a sequence of steps that ended without a fault. *)
Ltac invert_ok H :=
  repeat match type of H with
  | (let '(_, _) := ?p in _) = Ok _ => destruct p
  | (?m ≫= _) = Ok _ =>
      let E := fresh "E" in
      destruct m eqn:E; simpl in H; [|discriminate H]
  | (if ?c then _ else _) = Ok _ => destruct c eqn:?
  | Ok _ = Ok _ => injection H as H
  | mret _ = Ok _ => injection H as H
  end.

Section Sign_accesses.
Context {F : Type} `{Float64 F}.

Lemma correction_work_step_log (s : list (list F))
    (dtdxave : list (option F)) (LL fwave mw n : Z)
    (work work' : list (option F) * list (option F) * list access) :
  fwave ≠ 0 →
  correction_work_step recording_store s dtdxave LL fwave mw n work
  = Ok work' →
  work'.2 = work.2 ++ [Write n].
Proof.
  intros Hfwave Hrun. unfold correction_work_step in Hrun.
  destruct work as [[sabs om] log].
  rewrite bool_decide_eq_true_2 in Hrun by done.
  invert_ok Hrun. subst work'. simpl in *. congruence.
Qed.

Lemma correction_flux_step_log (wave : list (list (list F)))
    (sabs om : list (option F)) (LL fwave m mw n : Z)
    (fs fs' : list (list F) * list access) :
  fwave ≠ 0 →
  correction_flux_step recording_store wave sabs om LL fwave m mw n fs
  = Ok fs' →
  fs'.2 = fs.2 ++ [Read (to_uint (n - LL))].
Proof.
  intros Hfwave Hrun. unfold correction_flux_step in Hrun.
  destruct fs as [f log].
  rewrite bool_decide_eq_true_2 in Hrun by done. simpl in Hrun.
  invert_ok Hrun. by subst fs'.
Qed.

Lemma correction_family_step_log (wave : list (list (list F)))
    (s : list (list F)) (dtdxave : list (option F))
    (num_eqn LL UL fwave mw : Z)
    (st st' : list (list F)
              * (list (option F) * list (option F) * list access)) :
  fwave ≠ 0 →
  0 ≤ LL < 2 ^ 32 → 0 ≤ UL < 2 ^ 32 → 0 ≤ num_eqn < 2 ^ 32 →
  correction_family_step recording_store wave s dtdxave num_eqn LL UL
    fwave mw st = Ok st' →
  st'.2.2
  = st.2.2 ++
    ((n ← seqZ LL (UL - LL); [Write n]) ++
     (m ← seqZ 0 num_eqn;
      n ← seqZ LL (UL - LL); [Read (to_uint (n - LL))])).
Proof.
  intros Hfwave HLL HUL Hne Hrun.
  unfold correction_family_step, for_range_uint in Hrun.
  rewrite !(to_uint_small LL), !(to_uint_small UL), (to_uint_small num_eqn),
    (to_uint_small 0) in Hrun by lia.
  destruct st as [f [[sabs om] log]].
  destruct (for_range LL UL _ (sabs, om, log)) as [[[sabs' om'] log']|e]
    eqn:Hsweep; simpl in Hrun; [|done].
  destruct (for_range 0 num_eqn _ (f, log')) as [[f' log'']|e] eqn:Hflux;
    simpl in Hrun; [|done].
  injection Hrun as <-. simpl.
  apply (for_each_log snd (λ n, [Write n])) in Hsweep.
  2:{ intros i t t'. by apply correction_work_step_log. }
  apply (for_each_log snd (λ m, seqZ LL (UL - LL) ≫=
           λ n, [Read (to_uint (n - LL))])) in Hflux.
  2:{ intros i t t'. apply (for_each_log snd).
      intros j u u'. by apply correction_flux_step_log. }
  simpl in Hsweep, Hflux. rewrite Hflux, Hsweep.
  rewrite <- app_assoc. by rewrite Z.sub_0_r.
Qed.

(** In flux-splitting mode the loops make exactly the accesses of
    [ssign_trace], on every input on which they run to their end. *)
Lemma ssign_accesses_trace (wave : list (list (list F)))
    (s : list (list F)) (dtdx : list F)
    (num_eqn num_ghost num_cells LL UL fwave : Z) (log : list access) :
  fwave ≠ 0 →
  0 ≤ LL < 2 ^ 32 → 0 ≤ UL < 2 ^ 32 → 0 ≤ num_eqn < 2 ^ 32 →
  shape1 wave < 2 ^ 32 →
  ssign_accesses wave s dtdx num_eqn num_ghost num_cells LL UL fwave
  = Ok log →
  log = ssign_trace (shape1 wave) num_eqn LL UL.
Proof.
  intros Hfwave HLL HUL Hne Hnw Hrun.
  assert (0 ≤ shape1 wave) as Hnw0.
  { unfold shape1. destruct wave; simpl; lia. }
  unfold ssign_accesses, compute_correction_fluxes_on, for_range_uint in Hrun.
  rewrite !(to_uint_small LL), !(to_uint_small UL),
    (to_uint_small (shape1 wave)), (to_uint_small 0) in Hrun by lia.
  rewrite bool_decide_eq_true_2 in Hrun by done.
  destruct (np_zeros2 _ _) as [f|e]; simpl in Hrun; [|done].
  destruct (np_empty (UL - LL)) as [cells|e]; simpl in Hrun; [|done].
  destruct (bool_decide (UL - LL < 0)); simpl in Hrun; [done|].
  destruct (for_range LL UL _ cells) as [dtdxave|e]; simpl in Hrun; [|done].
  destruct (for_range 0 (shape1 wave) _ _) as [st|e] eqn:Hloop;
    simpl in Hrun; [|done].
  injection Hrun as <-.
  apply (for_each_log (λ st, st.2.2)
           (λ _, (n ← seqZ LL (UL - LL); [Write n]) ++
                 (m ← seqZ 0 num_eqn;
                  n ← seqZ LL (UL - LL); [Read (to_uint (n - LL))]))) in Hloop.
  2:{ intros i t t'. by apply correction_family_step_log. }
  simpl in Hloop. rewrite Hloop. unfold ssign_trace.
  by rewrite Z.sub_0_r.
Qed.

End Sign_accesses.

Lemma reads_written_elem (log : list access) (written : list Z) (i : Z) :
  reads_written written log → Read i ∈ log → i ∈ written ∨ Write i ∈ log.
Proof.
  revert written. induction log as [|[j|j] log IH]; intros written; simpl.
  - intros _ Hin. by apply elem_of_nil in Hin.
  - intros Hrest [Hin|Hin]%elem_of_cons; [done|].
    destruct (IH _ Hrest Hin) as [[->|Hw]%elem_of_cons|Hw].
    + right. by left.
    + by left.
    + right. by right.
  - intros [Hj Hrest] [Hin|Hin]%elem_of_cons.
    + injection Hin as ->. by left.
    + destruct (IH _ Hrest Hin) as [Hw|Hw]; [by left|]. right. by right.
Qed.

(** In flux-splitting mode, with [LL >= 1] and at least one interface, one
    wave family and one equation, the accesses to [ssign] are never all
    inside its [UL - LL] cells (the write at [UL - 1] is not), and never are
    all reads of cells written before (cell 0 is read and never written). *)
Lemma ssign_accesses_never_safe {F : Type} `{Float64 F}
    (wave : list (list (list F))) (s : list (list F)) (dtdx : list F)
    (num_eqn num_ghost num_cells LL UL fwave : Z) (log : list access) :
  fwave ≠ 0 → 1 ≤ LL < UL → UL < 2 ^ 31 →
  1 ≤ shape1 wave < 2 ^ 32 → 1 ≤ num_eqn < 2 ^ 31 →
  ssign_accesses wave s dtdx num_eqn num_ghost num_cells LL UL fwave
  = Ok log →
  ¬ accesses_in_bounds (UL - LL) log ∧ ¬ reads_written [] log.
Proof.
  intros Hfwave HLL HUL Hnw Hne Hrun.
  apply ssign_accesses_trace in Hrun as ->; [|done || lia..].
  assert (0 ∈ seqZ 0 (shape1 wave)) as Hmw by (apply elem_of_seqZ; lia).
  split.
  - intros Hall. unfold accesses_in_bounds in Hall.
    rewrite Forall_forall in Hall.
    assert (Write (UL - 1) ∈ ssign_trace (shape1 wave) num_eqn LL UL) as Hin.
    { unfold ssign_trace. apply list_elem_of_bind. exists 0. split; [|done].
      apply elem_of_app. left. apply list_elem_of_bind. exists (UL - 1).
      split; [|apply elem_of_seqZ; lia].
      by left. }
    apply Hall in Hin. simpl in Hin. lia.
  - intros Hreads.
    assert (Read 0 ∈ ssign_trace (shape1 wave) num_eqn LL UL) as Hin.
    { unfold ssign_trace. apply list_elem_of_bind. exists 0. split; [|done].
      apply elem_of_app. right. apply list_elem_of_bind. exists 0.
      split; [|apply elem_of_seqZ; lia].
      apply list_elem_of_bind. exists LL.
      split; [|apply elem_of_seqZ; lia].
      replace (LL - LL) with 0 by lia. by left. }
    destruct (reads_written_elem _ _ _ Hreads Hin) as [Hw|Hw].
    { by apply elem_of_nil in Hw. }
    unfold ssign_trace in Hw.
    apply list_elem_of_bind in Hw as (mw & Hw & _).
    apply elem_of_app in Hw as [Hw|Hw].
    + apply list_elem_of_bind in Hw as (n & Hw & Hn).
      apply elem_of_seqZ in Hn.
      apply list_elem_of_singleton in Hw. injection Hw as Hw. lia.
    + apply list_elem_of_bind in Hw as (m & Hw & _).
      apply list_elem_of_bind in Hw as (n & Hw & _).
      by apply list_elem_of_singleton in Hw.
Qed.

(** ** The two branches of [compute_max_wave_speed] *)

Section Slices.
Context {F : Type} `{Float64 F}.

(** A slice inside its array, element by element. *)
Lemma slice_fmap (a : list F) (i j k : Z) (g : Z → F) :
  0 ≤ i ≤ j → j ≤ Z.of_nat (length a) →
  (∀ n, k ≤ n < k + (j - i) → g n = get a (n - k + i)) →
  slice a i j = g <$> seqZ k (j - i).
Proof.
  intros Hi Hj Hg. apply list_eq; intros p. rewrite list_lookup_fmap.
  rewrite slice_in by done.
  destruct (decide (Z.of_nat p < j - i)) as [Hp|Hp].
  - rewrite lookup_seqZ_lt by lia. simpl.
    rewrite lookup_take_lt by lia. rewrite lookup_drop.
    rewrite Hg by lia.
    replace (k + Z.of_nat p - k + i) with (Z.of_nat (Z.to_nat i + p)) by lia.
    rewrite get_nat by lia. rewrite Nat2Z.id.
    by destruct (lookup_lt_is_Some_2 a (Z.to_nat i + p)) as [x ->]; [lia|].
  - rewrite lookup_seqZ_ge by lia. simpl.
    apply lookup_ge_None. rewrite length_take. lia.
Qed.

Lemma zip_with_fmap_same {A : Type} (op : F → F → F) (g h : A → F)
    (l : list A) :
  zip_with op (g <$> l) (h <$> l) = (λ x, op (g x) (h x)) <$> l.
Proof. induction l as [|x l IH]; csimpl; [done|]. by f_equal. Qed.

End Slices.

Section CFL_fallback.
Context {F : Type} `{Float64 F}.

(** The fallback branch: per wave family, the two maxima over the
    interfaces, and the running maximum of the three. *)
Lemma compute_max_wave_speed_numpy_run (wave : list (list (list F)))
    (dtdx : list F) (s : list (list F)) (LL UL : Z) :
  cfl_shapes wave dtdx s LL UL → LL < UL →
  compute_max_wave_speed_numpy wave dtdx s LL UL
  = Ok (foldl (λ cfl mw,
          pymax3 cfl
            (foldl pymax (cfl_term1 dtdx s mw LL)
               (cfl_term1 dtdx s mw <$> seqZ (LL + 1) (UL - LL - 1)))
            (foldl pymax (cfl_term2 dtdx s mw LL)
               (cfl_term2 dtdx s mw <$> seqZ (LL + 1) (UL - LL - 1))))
        f_zero (seqZ 0 (shape1 wave))).
Proof.
  intros (HiLL & HiUL & HLL & Hd1 & Hd & Hnw & Hs & Hrows) Hlt.
  unfold compute_max_wave_speed_numpy.
  erewrite (for_range_pure 0 (shape1 wave) _ (λ mw cfl,
    pymax3 cfl
      (foldl pymax (cfl_term1 dtdx s mw LL)
         (cfl_term1 dtdx s mw <$> seqZ (LL + 1) (UL - LL - 1)))
      (foldl pymax (cfl_term2 dtdx s mw LL)
         (cfl_term2 dtdx s mw <$> seqZ (LL + 1) (UL - LL - 1))))).
  { by rewrite Z.sub_0_r. }
  intros mw cfl Hmw.
  pose proof (length_s_row s mw LL UL Hrows ltac:(lia)) as [Hr Hr'].
  rewrite (np_item_ok s mw (row_of s mw)) by (apply row_of_lookup; lia).
  rewrite result_bind_ok.
  rewrite (slice_fmap dtdx LL UL LL (get dtdx))
    by (lia || intros; f_equal; lia).
  replace (UL - 1 - (LL - 1)) with (UL - LL) by lia.
  rewrite (slice_fmap (row_of s mw) (LL - 1) (UL - 1) LL
             (λ n, get (row_of s mw) (n - 1)))
    by (lia || intros; f_equal; lia).
  rewrite (slice_fmap dtdx (LL - 1) (UL - 1) LL (λ n, get dtdx (n - 1)))
    by (lia || intros; f_equal; lia).
  replace (UL - 1 - (LL - 1)) with (UL - LL) by lia.
  rewrite <- list_fmap_compose.
  rewrite !broadcast_same by (by rewrite !length_fmap).
  rewrite !zip_with_fmap_same.
  rewrite (seqZ_cons LL) by lia.
  replace (Z.succ LL) with (LL + 1) by lia.
  replace (Z.pred (UL - LL)) with (UL - LL - 1) by lia.
  reflexivity.
Qed.

(** With no interface to sweep the compiled kernel returns 0.0 and the
    fallback branch raises: [np.max] of an empty array. *)
Theorem compute_max_wave_speed_empty_range (wave : list (list (list F)))
    (dtdx : list F) (s : list (list F)) (LL : Z) :
  cfl_shapes wave dtdx s LL LL →
  compute_max_wave_speed wave dtdx s LL LL = Ok f_zero ∧
  compute_max_wave_speed_numpy wave dtdx s LL LL
  = Fault (Raised "ValueError").
Proof.
  intros Hshapes. split.
  - unfold compute_max_wave_speed. simpl.
    rewrite compute_max_wave_speed_compiled_run by done. f_equal.
    unfold cfl_run. rewrite Z.sub_diag. simpl.
    by induction (seqZ 0 (shape1 wave)) as [|mw mws IH].
  - destruct Hshapes as (HiLL & HiUL & HLL & Hd1 & Hd & Hnw & Hs & Hrows).
    unfold compute_max_wave_speed_numpy, for_range.
    rewrite (seqZ_cons 0) by lia. simpl.
    pose proof (length_s_row s 0 LL LL Hrows ltac:(lia)) as [Hr Hr'].
    rewrite (np_item_ok s 0 (row_of s 0)) by (apply row_of_lookup; lia).
    rewrite result_bind_ok.
    assert (∀ (a : list F) i, 0 ≤ i → i ≤ Z.of_nat (length a) →
              slice a i i = []) as Hnil.
    { intros a i Hi Hle. apply nil_length_inv.
      rewrite length_slice by lia. lia. }
    rewrite !Hnil by lia. reflexivity.
Qed.

End CFL_fallback.

Section CFL_paths.
Context {F : Type} `{OrderLaws F}.

Lemma pymax_comm (a b : F) : pymax a b = pymax b a.
Proof.
  unfold pymax. destruct (a <? b)%flt eqn:Hab.
  - by rewrite (f_lt_asym a b Hab).
  - destruct (b <? a)%flt eqn:Hba; [done|]. by apply f_lt_total.
Qed.

Lemma pymax_assoc (a b c : F) : pymax (pymax a b) c = pymax a (pymax b c).
Proof.
  unfold pymax.
  destruct (a <? b)%flt eqn:Hab; destruct (b <? c)%flt eqn:Hbc;
    rewrite ?Hab, ?Hbc; try done.
  - by rewrite (f_lt_trans a b c Hab Hbc).
  - by rewrite (f_nlt_trans c b a Hbc Hab).
Qed.

(** The maximum over the interfaces, interface by interface or list by
    list. *)
Lemma pymax3_fold (a b : Z → F) (ns : list Z) (c x y : F) :
  foldl (λ c n, pymax3 c (a n) (b n)) (pymax3 c x y) ns
  = pymax3 c (foldl pymax x (a <$> ns)) (foldl pymax y (b <$> ns)).
Proof.
  revert x y. induction ns as [|n ns IH]; intros x y; csimpl; [done|].
  rewrite <- IH. f_equal. unfold pymax3.
  rewrite !pymax_assoc. f_equal. f_equal.
  rewrite <- !pymax_assoc. f_equal. apply pymax_comm.
Qed.

Lemma pymax3_again (c a b : F) :
  pymax3 (pymax3 c a b) a b = pymax3 c a b.
Proof.
  unfold pymax3.
  assert (pymax (pymax (pymax c a) b) a = pymax (pymax c a) b) as ->.
  { unfold pymax at 1.
    by rewrite (f_nlt_trans _ _ _ (pymax_ge_r c a) (pymax_ge_l (pymax c a) b)). }
  unfold pymax at 1. by rewrite pymax_ge_r.
Qed.

(** The accumulation of the compiled kernel, as the kernel computes it. *)
Lemma cfl_run_is_accumulate (num_waves : Z) (dtdx : list F)
    (s : list (list F)) (LL UL : Z) :
  1 ≤ num_waves → LL < UL →
  (cfl_run num_waves dtdx s LL UL).1.1 = cfl_accumulate num_waves dtdx s LL UL.
Proof.
  intros Hnw Hlt. unfold cfl_run, cfl_accumulate.
  rewrite (seqZ_cons 0) by lia. rewrite (seqZ_cons LL) by lia.
  apply cfl_run_accumulate.
Qed.

(** On a range of interfaces that is not empty, and in exact arithmetic,
    the compiled kernel and the fallback branch return the same CFL
    number. *)
Theorem compute_max_wave_speed_paths_agree (wave : list (list (list F)))
    (dtdx : list F) (s : list (list F)) (LL UL : Z) :
  cfl_shapes wave dtdx s LL UL → LL < UL →
  ∃ cfl,
    compute_max_wave_speed_compiled wave dtdx s LL UL = Ok cfl ∧
    compute_max_wave_speed_numpy wave dtdx s LL UL = Ok cfl.
Proof.
  intros Hshapes Hlt.
  exists (cfl_accumulate (shape1 wave) dtdx s LL UL).
  pose proof Hshapes as (_ & _ & _ & _ & _ & Hnw & _).
  split.
  - rewrite compute_max_wave_speed_compiled_run by done. f_equal.
    apply cfl_run_is_accumulate; lia.
  - rewrite compute_max_wave_speed_numpy_run by done. f_equal.
    unfold cfl_accumulate. rewrite (seqZ_cons LL) by lia.
    replace (Z.succ LL) with (LL + 1) by lia.
    replace (Z.pred (UL - LL)) with (UL - LL - 1) by lia.
    generalize (seqZ 0 (shape1 wave)) as mws. generalize f_zero as c.
    intros c mws. revert c.
    induction mws as [|mw mws IH]; intros c; simpl; [done|].
    rewrite IH. f_equal. symmetry.
    apply (pymax3_fold (cfl_term1 dtdx s mw) (cfl_term2 dtdx s mw)).
Qed.

(** Linear advection: with the same speed [a] in every wave family and at
    every interface, and the same [dtdx = c] in every cell, the CFL number
    is [max(0, c * a, -c * a)]. *)
Theorem compute_max_wave_speed_uniform (wave : list (list (list F)))
    (dtdx : list F) (s : list (list F)) (LL UL : Z) (a c : F) :
  cfl_shapes wave dtdx s LL UL → LL < UL →
  (∀ n, LL - 1 ≤ n < UL → get dtdx n = c) →
  (∀ mw n, 0 ≤ mw < shape1 wave → LL - 1 ≤ n < UL - 1 →
     get (row_of s mw) n = a) →
  compute_max_wave_speed wave dtdx s LL UL
  = Ok (pymax3 f_zero (c * a) (- c * a))%flt.
Proof.
  intros Hshapes Hlt Hc Ha.
  pose proof Hshapes as (_ & _ & HLL & _ & _ & Hnw & _).
  unfold compute_max_wave_speed. simpl.
  rewrite compute_max_wave_speed_compiled_run by done. f_equal.
  rewrite cfl_run_is_accumulate by lia. unfold cfl_accumulate.
  assert (∀ ns x, (∀ n, n ∈ ns → LL ≤ n < UL) →
    ∀ mw, 0 ≤ mw < shape1 wave →
    foldl (λ cfl n,
      pymax3 cfl (cfl_term1 dtdx s mw n) (cfl_term2 dtdx s mw n)) x ns
    = foldl (λ cfl _, pymax3 cfl (c * a) (- c * a))%flt x ns) as Hinner.
  { intros ns. induction ns as [|n ns IH]; intros x Hns mw Hmw; simpl; [done|].
    rewrite IH by (done || intros; apply Hns; by right).
    unfold cfl_term1, cfl_term2.
    assert (LL ≤ n < UL) as Hn by (apply Hns; by left).
    by rewrite !Hc, Ha by lia. }
  assert (∀ (ns : list Z) x,
    (foldl (λ cfl _, pymax3 cfl (c * a) (- c * a))
      (pymax3 x (c * a) (- c * a)) ns
    = pymax3 x (c * a) (- c * a))%flt) as Hconst.
  { intros ns x. induction ns as [|n ns IH]; simpl; [done|].
    by rewrite pymax3_again. }
  assert (∀ mws x, (∀ mw, mw ∈ mws → 0 ≤ mw < shape1 wave) →
    (foldl (λ cfl mw, foldl (λ cfl n,
        pymax3 cfl (cfl_term1 dtdx s mw n) (cfl_term2 dtdx s mw n))
        cfl (seqZ LL (UL - LL)%Z))
      (pymax3 x (c * a) (- c * a)) mws
    = pymax3 x (c * a) (- c * a))%flt) as Houter.
  { intros mws. induction mws as [|mw mws IH]; intros x Hmws; simpl; [done|].
    rewrite Hinner.
    - rewrite Hconst. apply IH. intros; apply Hmws; by right.
    - intros n Hn%elem_of_seqZ. lia.
    - apply Hmws. by left. }
  assert ((foldl (λ cfl _, pymax3 cfl (c * a) (- c * a)) f_zero
             (seqZ LL (UL - LL)%Z)
           = pymax3 f_zero (c * a) (- c * a))%flt) as Hfirst.
  { rewrite (seqZ_cons LL) by lia. cbn [foldl]. apply Hconst. }
  rewrite (seqZ_cons 0) by lia. cbn [foldl].
  rewrite Hinner by (lia || intros n Hn%elem_of_seqZ; lia).
  rewrite Hfirst. apply Houter. intros mw Hmw%elem_of_seqZ. lia.
Qed.

End CFL_paths.

Lemma compute_max_wave_speed_empty_range_witness :
  compute_max_wave_speed ex_wave ex_dtdx ex_s_neg 2 2 = Ok f_zero ∧
  compute_max_wave_speed_numpy ex_wave ex_dtdx ex_s_neg 2 2
  = Fault (Raised "ValueError").
Proof.
  exact (compute_max_wave_speed_empty_range _ _ _ _ ex_cfl_shapes_empty).
Defined.

Lemma compute_max_wave_speed_paths_agree_witness :
  ∃ cfl,
    compute_max_wave_speed_compiled ex_wave ex_dtdx ex_s 1 4 = Ok cfl ∧
    compute_max_wave_speed_numpy ex_wave ex_dtdx ex_s 1 4 = Ok cfl.
Proof.
  apply (compute_max_wave_speed_paths_agree ex_wave ex_dtdx ex_s 1 4).
  - exact ex_cfl_shapes.
  - lia.
Defined.

Lemma uniform_cfl_shapes : cfl_shapes ex_wave ex_dtdx uniform_s 1 4.
Proof.
  unfold cfl_shapes, int_range.
  repeat split; try (repeat constructor; simpl; lia); simpl; lia.
Defined.

(** Speed -3 and [dtdx = 1/2]: the CFL number is [max(0, -3/2, 3/2)]. *)
Lemma compute_max_wave_speed_uniform_witness :
  compute_max_wave_speed ex_wave ex_dtdx uniform_s 1 4
  = Ok (pymax3 f_zero (qc 1 2 * qc (-3) 1) (- qc 1 2 * qc (-3) 1))%flt.
Proof.
  apply (compute_max_wave_speed_uniform ex_wave ex_dtdx uniform_s 1 4).
  - exact uniform_cfl_shapes.
  - lia.
  - apply forall_range. repeat constructor.
  - intros mw n Hmw. assert (mw = 0) as -> by (simpl in Hmw; lia).
    revert n. apply forall_range. repeat constructor.
Defined.

(** ** The correction fluxes *)

(** Two closed forms of a cell agree, case by case. *)
Ltac cell_cases :=
  repeat case_bool_decide; try done; try (exfalso; lia);
  try (destruct_and?; subst; done).

Section Matrices.
Context {F : Type} `{Float64 F}.

Lemma lookupZ_fmap_seqZ {A : Type} (g : Z → A) (n i : Z) :
  0 ≤ i < n → lookupZ (g <$> seqZ 0 n) i = Some (g i).
Proof.
  intros Hi. unfold lookupZ. rewrite bool_decide_eq_true_2 by lia.
  rewrite list_lookup_fmap, lookup_seqZ_lt by lia. simpl. f_equal. f_equal. lia.
Qed.

Lemma fmap_seqZ_ext {A : Type} (g h : Z → A) (lo n : Z) :
  (∀ i, lo ≤ i < lo + n → g i = h i) → g <$> seqZ lo n = h <$> seqZ lo n.
Proof.
  intros Hgh. apply list_fmap_ext. intros k i Hi.
  apply Hgh. apply lookup_seqZ in Hi. lia.
Qed.

Lemma insert_fmap_seqZ {A : Type} (g : Z → A) (n i : Z) (x : A) :
  0 ≤ i →
  <[Z.to_nat i := x]> (g <$> seqZ 0 n)
  = (λ j, if bool_decide (j = i) then x else g j) <$> seqZ 0 n.
Proof.
  intros Hi. apply list_eq; intros k.
  destruct (decide (k = Z.to_nat i)) as [->|Hk].
  - destruct (decide (i < n)) as [Hlt|Hge].
    + rewrite list_lookup_insert_eq by (rewrite length_fmap, length_seqZ; lia).
      rewrite list_lookup_fmap, lookup_seqZ_lt by lia. simpl.
      by rewrite bool_decide_eq_true_2 by lia.
    + rewrite list_insert_ge by (rewrite length_fmap, length_seqZ; lia).
      rewrite !list_lookup_fmap. by rewrite lookup_seqZ_ge by lia.
  - rewrite list_lookup_insert_ne by done. rewrite !list_lookup_fmap.
    destruct (seqZ 0 n !! k) as [j|] eqn:Hj; [|done]. simpl.
    apply lookup_seqZ in Hj. by rewrite bool_decide_eq_false_2 by lia.
Qed.

Lemma mk_matrix_ext (rows cols : Z) (g h : Z → Z → F) :
  (∀ i j, 0 ≤ i < rows → 0 ≤ j < cols → g i j = h i j) →
  mk_matrix rows cols g = mk_matrix rows cols h.
Proof.
  intros Hgh. unfold mk_matrix. apply fmap_seqZ_ext. intros i Hi.
  apply fmap_seqZ_ext. intros j Hj. apply Hgh; lia.
Qed.

Lemma length_mk_matrix (rows cols : Z) (g : Z → Z → F) :
  0 ≤ rows → Z.of_nat (length (mk_matrix rows cols g)) = rows.
Proof. intros. unfold mk_matrix. rewrite length_fmap, length_seqZ. lia. Qed.

Lemma lookupZ_mk_matrix (rows cols : Z) (g : Z → Z → F) (i : Z) :
  0 ≤ i < rows →
  lookupZ (mk_matrix rows cols g) i = Some (g i <$> seqZ 0 cols).
Proof. intros. unfold mk_matrix. by rewrite lookupZ_fmap_seqZ. Qed.

Lemma lookup2_mk_matrix (rows cols : Z) (g : Z → Z → F) (i j : Z) :
  0 ≤ i < rows → 0 ≤ j < cols →
  lookup2 (mk_matrix rows cols g) i j = Some (g i j).
Proof.
  intros Hi Hj. unfold lookup2. rewrite lookupZ_mk_matrix by done. simpl.
  by rewrite lookupZ_fmap_seqZ.
Qed.

Lemma np_zeros2_matrix (rows cols : Z) :
  0 ≤ rows → 0 ≤ cols →
  np_zeros2 rows cols = Ok (mk_matrix rows cols (λ _ _, f_zero)).
Proof.
  intros Hr Hc. unfold np_zeros2. rewrite bool_decide_eq_false_2 by lia.
  f_equal. unfold mk_matrix.
  assert (∀ {A} (x : A) n, 0 ≤ n →
    replicate (Z.to_nat n) x = (λ _, x) <$> seqZ 0 n) as Hrep.
  { intros A x n Hn. apply list_eq; intros k.
    destruct (decide (Z.of_nat k < n)) as [Hk|Hk].
    - rewrite lookup_replicate_2 by lia.
      by rewrite list_lookup_fmap, lookup_seqZ_lt by lia.
    - rewrite list_lookup_fmap, lookup_seqZ_ge by lia.
      apply lookup_replicate_None. lia. }
  rewrite (Hrep _ f_zero cols Hc). by rewrite Hrep.
Qed.

Lemma load2_matrix (name : string) (rows cols : Z) (g : Z → Z → F) (i j : Z) :
  0 ≤ i < rows → 0 ≤ j < cols →
  load2 name (mk_matrix rows cols g) i j = Ok (g i j).
Proof.
  intros Hi Hj. apply (load2_ok _ _ _ _ (g i <$> seqZ 0 cols)).
  - by apply lookupZ_mk_matrix.
  - by apply lookupZ_fmap_seqZ.
Qed.

Lemma insert_matrix_row (rows cols : Z) (g : Z → Z → F) (i : Z) (h : Z → F) :
  0 ≤ i →
  <[Z.to_nat i := h <$> seqZ 0 cols]> (mk_matrix rows cols g)
  = mk_matrix rows cols (λ i' j, if bool_decide (i' = i) then h j else g i' j).
Proof.
  intros Hi. unfold mk_matrix. rewrite insert_fmap_seqZ by done.
  apply fmap_seqZ_ext. intros i' Hi'. by case_bool_decide.
Qed.

Lemma store2_matrix (name : string) (rows cols : Z) (g : Z → Z → F) (i j : Z)
    (x : F) :
  0 ≤ i < rows → 0 ≤ j < cols →
  store2 name (mk_matrix rows cols g) i j x
  = Ok (mk_matrix rows cols (λ i' j',
          if bool_decide (i' = i ∧ j' = j) then x else g i' j')).
Proof.
  intros Hi Hj.
  rewrite (store2_ok _ _ _ _ (g i <$> seqZ 0 cols)).
  - f_equal. rewrite insert_fmap_seqZ by lia.
    rewrite insert_matrix_row by lia. apply mk_matrix_ext.
    intros i' j' Hi' Hj'.
    cell_cases.
  - by apply lookupZ_mk_matrix.
  - rewrite length_fmap, length_seqZ. lia.
Qed.

End Matrices.

Section Work_arrays.
Context {F : Type} `{Float64 F}.

Lemma cells_upto_start (a : list (option F)) (len : Z) (g : Z → F) :
  Z.of_nat (length a) = len → cells_upto a len 0 g.
Proof. intros Hlen. split; [done|]. intros j Hj. lia. Qed.

Lemma cells_upto_insert (a : list (option F)) (len k : Z) (g : Z → F) (x : F) :
  cells_upto a len k g → 0 ≤ k < len → x = g k →
  cells_upto (<[Z.to_nat k := Some x]> a) len (k + 1) g.
Proof.
  intros [Hlen Hcells] Hk ->. split; [by rewrite length_insert|].
  intros j Hj. apply lookupZ_Some. split; [lia|].
  destruct (decide (j = k)) as [->|Hne].
  - apply list_lookup_insert_eq. lia.
  - rewrite list_lookup_insert_ne by lia.
    by apply lookupZ_Some, Hcells; lia.
Qed.

Lemma load_cell_ok (name : string) (a : list (option F)) (i : Z) (x : F) :
  lookupZ a i = Some (Some x) → load_cell name a i = Ok x.
Proof. intros Hx. unfold load_cell. by rewrite (load1_ok _ _ _ _ Hx). Qed.

Lemma np_empty_ok (n : Z) :
  0 ≤ n → np_empty n = Ok (replicate (Z.to_nat n) (None : option F)).
Proof. intros. unfold np_empty. by rewrite bool_decide_eq_false_2 by lia. Qed.

Lemma get3_lookup (wave : list (list (list F))) (rows cols m mw : Z) :
  Forall (λ plane,
    rows ≤ Z.of_nat (length plane) ∧
    Forall (λ row, cols ≤ Z.of_nat (length row)) plane) wave →
  0 ≤ m < Z.of_nat (length wave) → 0 ≤ mw < rows →
  ∃ plane row,
    lookupZ wave m = Some plane ∧ lookupZ plane mw = Some row ∧
    cols ≤ Z.of_nat (length row) ∧ ∀ n, get3 wave m mw n = get row n.
Proof.
  intros Hwave Hm Hmw. rewrite Forall_forall in Hwave.
  destruct (lookupZ_is_Some wave m Hm) as [plane Hplane].
  pose proof Hplane as [_ Hin]%lookupZ_Some.
  apply list_elem_of_lookup_2 in Hin.
  destruct (Hwave _ Hin) as [Hrows Hcols]. rewrite Forall_forall in Hcols.
  destruct (lookupZ_is_Some plane mw ltac:(lia)) as [row Hrow].
  pose proof Hrow as [_ Hin']%lookupZ_Some.
  apply list_elem_of_lookup_2 in Hin'. pose proof (Hcols _ Hin') as Hlen.
  exists plane, row. split; [done|]. split; [done|]. split; [done|].
  intros n. unfold get3, get. rewrite Hplane. simpl. by rewrite Hrow.
Qed.

Lemma load3_ok (name : string) (wave : list (list (list F)))
    (rows cols m mw n : Z) :
  Forall (λ plane,
    rows ≤ Z.of_nat (length plane) ∧
    Forall (λ row, cols ≤ Z.of_nat (length row)) plane) wave →
  0 ≤ m < Z.of_nat (length wave) → 0 ≤ mw < rows → 0 ≤ n < cols →
  load3 name wave m mw n = Ok (get3 wave m mw n).
Proof.
  intros Hwave Hm Hmw Hn.
  destruct (get3_lookup wave rows cols m mw)
    as (plane & row & H1 & H2 & Hlen & H3); try done.
  unfold load3. rewrite (load1_ok _ _ _ _ H1). simpl.
  apply (load2_ok _ _ _ _ row); [done|].
  rewrite H3. apply get_lookup. lia.
Qed.

(** The loop that fills [dtdxave]. *)
Lemma dtdxave_loop (dtdx : list F) (LL UL : Z) :
  1 ≤ LL ≤ UL → UL < 2 ^ 31 → UL ≤ Z.of_nat (length dtdx) →
  ∃ dtdxave,
    for_range_uint LL UL (λ i dtdxave,
      a ← load1 "dtdx" dtdx (to_uint (i - 1));
      b ← load1 "dtdx" dtdx i;
      store1 "dtdxave" dtdxave (to_uint (i - LL))
        (Some (f_half * (a + b))%flt))
      (replicate (Z.to_nat (UL - LL)) None)
    = Ok dtdxave ∧
    cells_upto dtdxave (UL - LL) (UL - LL) (dtdx_average dtdx LL).
Proof.
  intros HLL HUL Hd. rewrite for_range_uint_small by lia.
  match goal with |- ∃ _, for_range _ _ ?body ?s0 = _ ∧ _ =>
    destruct (for_range_invariant
      (λ k a, cells_upto a (UL - LL) (k - LL) (dtdx_average dtdx LL))
      LL UL body s0) as (a & Hrun & Ha); [lia | | | by exists a]
  end.
  - cbv beta. rewrite Z.sub_diag.
    apply cells_upto_start. rewrite length_replicate. lia.
  - intros i a Hi Ha. pose proof Ha as [Hlen _].
    rewrite (to_uint_small (i - 1)), (to_uint_small (i - LL)) by lia.
    rewrite (load1_ok _ dtdx (i - 1) (get dtdx (i - 1)))
      by (apply get_lookup; lia).
    rewrite result_bind_ok.
    rewrite (load1_ok _ dtdx i (get dtdx i)) by (apply get_lookup; lia).
    rewrite result_bind_ok.
    rewrite store1_ok by lia. eexists. split; [done|].
    replace (i + 1 - LL) with (i - LL + 1) by lia.
    apply cells_upto_insert; [done | lia |].
    unfold dtdx_average. repeat f_equal; lia.
Qed.

(** One iteration of the first inner loop. *)
Lemma correction_work_step_ok {S : Type} (store : sign_store S)
    (s : list (list F)) (dtdxave : list (option F)) (LL fwave mw n : Z)
    (sabs om : list (option F)) (ssign : S) (d : F) :
  1 ≤ LL ≤ n → n < 2 ^ 31 →
  0 ≤ mw < Z.of_nat (length s) →
  n - 1 < Z.of_nat (length (row_of s mw)) →
  n - LL < Z.of_nat (length sabs) → n - LL < Z.of_nat (length om) →
  lookupZ dtdxave (n - LL) = Some (Some d) →
  let v := get (row_of s mw) (n - 1) in
  correction_work_step store s dtdxave LL fwave mw n (sabs, om, ssign)
  = (ssign' ← (if bool_decide (fwave ≠ 0)
               then ssign_write _ store ssign n (sign_expr v)
               else Ok ssign);
     mret (<[Z.to_nat (n - LL) := Some (f_abs v)]> sabs,
           <[Z.to_nat (n - LL) := Some (f_one - f_abs v * d)%flt]> om,
           ssign')).
Proof.
  intros HLL Hn Hmw Hrow Hsabs Hom Hd v. unfold correction_work_step.
  rewrite (to_uint_small (n - 1)), (to_uint_small (n - LL)) by lia.
  rewrite (load2_ok _ s mw (n - 1) (row_of s mw) v)
    by (apply row_of_lookup || apply get_lookup; lia).
  rewrite result_bind_ok.
  rewrite store1_ok by lia. rewrite result_bind_ok.
  rewrite (load_cell_ok "sabs" _ _ (f_abs v)).
  2:{ apply lookupZ_Some. split; [lia|]. apply list_lookup_insert_eq. lia. }
  rewrite result_bind_ok.
  rewrite (load_cell_ok _ _ _ d Hd). rewrite result_bind_ok.
  rewrite store1_ok by lia. rewrite result_bind_ok.
  by destruct (bool_decide (fwave ≠ 0)).
Qed.

End Work_arrays.

Section Unsplit_mode.
Context {F : Type} `{Float64 F}.

(** The first inner loop when [fwave] is off: it fills [sabs] and [om]. *)
Lemma correction_work_loop_off {S : Type} (store : sign_store S)
    (s : list (list F)) (dtdx : list F) (dtdxave : list (option F))
    (LL UL mw : Z) (sabs om : list (option F)) (ssign : S) :
  1 ≤ LL ≤ UL → UL < 2 ^ 31 →
  0 ≤ mw < Z.of_nat (length s) →
  UL - 1 ≤ Z.of_nat (length (row_of s mw)) →
  cells_upto dtdxave (UL - LL) (UL - LL) (dtdx_average dtdx LL) →
  Z.of_nat (length sabs) = UL - LL → Z.of_nat (length om) = UL - LL →
  ∃ sabs' om',
    for_range_uint LL UL (λ n,
      correction_work_step store s dtdxave LL 0 mw n) (sabs, om, ssign)
    = Ok (sabs', om', ssign) ∧
    cells_upto sabs' (UL - LL) (UL - LL) (sabs_cell s LL mw) ∧
    cells_upto om' (UL - LL) (UL - LL) (om_cell s dtdx LL mw).
Proof.
  intros HLL HUL Hmw Hrow [_ Hdave] Hsabs Hom.
  rewrite for_range_uint_small by lia.
  destruct (for_range_invariant
    (λ k (w : list (option F) * list (option F) * S),
       cells_upto w.1.1 (UL - LL) (k - LL) (sabs_cell s LL mw) ∧
       cells_upto w.1.2 (UL - LL) (k - LL) (om_cell s dtdx LL mw) ∧
       w.2 = ssign)
    LL UL (λ n, correction_work_step store s dtdxave LL 0 mw n)
    (sabs, om, ssign)) as ([[sabs' om'] sg] & Hrun & Ha & Ho & Hs);
    [lia | | | ].
  - cbv beta. rewrite Z.sub_diag. simpl.
    split; [by apply cells_upto_start|]. split; [by apply cells_upto_start|].
    done.
  - intros n [[a o] sg] Hn (Ha & Ho & Hsg). simpl in Ha, Ho, Hsg. subst sg.
    pose proof Ha as [Hla _]. pose proof Ho as [Hlo _].
    rewrite (correction_work_step_ok store s dtdxave LL 0 mw n a o ssign
               (dtdx_average dtdx LL (n - LL))); try lia.
    2:{ apply Hdave. lia. }
    rewrite bool_decide_eq_false_2 by (intros Hne; by apply Hne).
    eexists. split; [reflexivity|]. simpl.
    replace (n + 1 - LL) with (n - LL + 1) by lia.
    split; [|split; [|done]].
    + apply cells_upto_insert; [done | lia |].
      unfold sabs_cell. repeat f_equal. lia.
    + apply cells_upto_insert; [done | lia |].
      unfold om_cell, sabs_cell. repeat f_equal. lia.
  - simpl in Ha, Ho, Hs. subst sg. by exists sabs', om'.
Qed.

(** One iteration of the second inner loop when [fwave] is off. *)
Lemma correction_flux_step_off {S : Type} (store : sign_store S)
    (wave : list (list (list F))) (sabs om : list (option F))
    (LL m mw n rows cols wrows wcols : Z) (g : Z → Z → F) (ssign : S)
    (a o : F) :
  1 ≤ LL ≤ n → n < 2 ^ 31 → 0 ≤ m < rows → n < cols →
  Forall (λ plane,
    wrows ≤ Z.of_nat (length plane) ∧
    Forall (λ row, wcols ≤ Z.of_nat (length row)) plane) wave →
  m < Z.of_nat (length wave) → 0 ≤ mw < wrows → n - 1 < wcols →
  lookupZ sabs (n - LL) = Some (Some a) →
  lookupZ om (n - LL) = Some (Some o) →
  correction_flux_step store wave sabs om LL 0 m mw n
    (mk_matrix rows cols g, ssign)
  = Ok (mk_matrix rows cols (λ i j,
          if bool_decide (i = m ∧ j = n)
          then (g m n + f_half * a * o * get3 wave m mw (n - 1))%flt
          else g i j), ssign).
Proof.
  intros HLL Hn Hm Hcols Hwave Hlw Hmw Hwc Ha Ho.
  unfold correction_flux_step.
  rewrite bool_decide_eq_false_2 by (intros Hne; by apply Hne).
  rewrite (to_uint_small (n - 1)), (to_uint_small (n - LL)) by lia.
  rewrite (load_cell_ok _ _ _ a Ha), result_bind_ok.
  rewrite (load_cell_ok _ _ _ o Ho), result_bind_ok.
  rewrite (load3_ok _ wave wrows wcols) by (done || lia).
  rewrite result_bind_ok.
  rewrite load2_matrix by lia. rewrite result_bind_ok.
  by rewrite store2_matrix by lia.
Qed.

Lemma wave_correction_cells (wave : list (list (list F)))
    (s : list (list F)) (dtdx : list F) (LL m mw n : Z) :
  (f_half * sabs_cell s LL mw (n - LL) * om_cell s dtdx LL mw (n - LL)
   * get3 wave m mw (n - 1))%flt
  = wave_correction wave s dtdx m mw n.
Proof.
  unfold wave_correction, om_cell, sabs_cell, dtdx_average.
  replace (LL + (n - LL) - 1) with (n - 1) by lia.
  by replace (LL + (n - LL)) with n by lia.
Qed.

(** The second inner loop on row [m] when [fwave] is off. *)
Lemma correction_row_loop_off {S : Type} (store : sign_store S)
    (wave : list (list (list F))) (s : list (list F)) (dtdx : list F)
    (sabs om : list (option F)) (LL UL m mw rows cols : Z) (g : Z → Z → F)
    (ssign : S) :
  1 ≤ LL ≤ UL → UL < 2 ^ 31 → 0 ≤ m < rows → UL ≤ cols →
  Forall (λ plane,
    shape1 wave ≤ Z.of_nat (length plane) ∧
    Forall (λ row, UL - 1 ≤ Z.of_nat (length row)) plane) wave →
  m < Z.of_nat (length wave) → 0 ≤ mw < shape1 wave →
  cells_upto sabs (UL - LL) (UL - LL) (sabs_cell s LL mw) →
  cells_upto om (UL - LL) (UL - LL) (om_cell s dtdx LL mw) →
  for_range_uint LL UL (λ n,
    correction_flux_step store wave sabs om LL 0 m mw n)
    (mk_matrix rows cols g, ssign)
  = Ok (mk_matrix rows cols (λ i j,
          if bool_decide (i = m ∧ LL ≤ j < UL)
          then (g i j + wave_correction wave s dtdx i mw j)%flt
          else g i j), ssign).
Proof.
  intros HLL HUL Hm Hcols Hwave Hlw Hmw [_ Hsabs] [_ Hom].
  rewrite for_range_uint_small by lia.
  destruct (for_range_invariant
    (λ k (st : list (list F) * S),
       st = (mk_matrix rows cols (λ i j,
               if bool_decide (i = m ∧ LL ≤ j < k)
               then (g i j + wave_correction wave s dtdx i mw j)%flt
               else g i j), ssign))
    LL UL (λ n, correction_flux_step store wave sabs om LL 0 m mw n)
    (mk_matrix rows cols g, ssign)) as (st & Hrun & ->); [lia | | | done].
  - f_equal. apply mk_matrix_ext. intros i j Hi Hj.
    by rewrite bool_decide_eq_false_2 by lia.
  - intros n t Hn ->.
    rewrite (correction_flux_step_off store wave sabs om LL m mw n rows cols
               (shape1 wave) (UL - 1) _ ssign
               (sabs_cell s LL mw (n - LL)) (om_cell s dtdx LL mw (n - LL)));
      try done; try lia; try (apply Hsabs; lia); try (apply Hom; lia).
    eexists. split; [reflexivity|]. f_equal.
    apply mk_matrix_ext. intros i j Hi Hj.
    rewrite wave_correction_cells.
    cell_cases.
Qed.

(** The loop over the equations when [fwave] is off. *)
Lemma correction_eqn_loop_off {S : Type} (store : sign_store S)
    (wave : list (list (list F))) (s : list (list F)) (dtdx : list F)
    (sabs om : list (option F)) (num_eqn LL UL mw rows cols : Z)
    (g : Z → Z → F) (ssign : S) :
  1 ≤ LL ≤ UL → UL < 2 ^ 31 → 0 ≤ num_eqn ≤ rows → num_eqn < 2 ^ 31 →
  UL ≤ cols →
  Forall (λ plane,
    shape1 wave ≤ Z.of_nat (length plane) ∧
    Forall (λ row, UL - 1 ≤ Z.of_nat (length row)) plane) wave →
  num_eqn ≤ Z.of_nat (length wave) → 0 ≤ mw < shape1 wave →
  cells_upto sabs (UL - LL) (UL - LL) (sabs_cell s LL mw) →
  cells_upto om (UL - LL) (UL - LL) (om_cell s dtdx LL mw) →
  for_range_uint 0 num_eqn (λ m,
    for_range_uint LL UL (λ n,
      correction_flux_step store wave sabs om LL 0 m mw n))
    (mk_matrix rows cols g, ssign)
  = Ok (mk_matrix rows cols (λ i j,
          if bool_decide (0 ≤ i < num_eqn ∧ LL ≤ j < UL)
          then (g i j + wave_correction wave s dtdx i mw j)%flt
          else g i j), ssign).
Proof.
  intros HLL HUL Hne Hne' Hcols Hwave Hlw Hmw Hsabs Hom.
  rewrite for_range_uint_small by lia.
  destruct (for_range_invariant
    (λ k (st : list (list F) * S),
       st = (mk_matrix rows cols (λ i j,
               if bool_decide (0 ≤ i < k ∧ LL ≤ j < UL)
               then (g i j + wave_correction wave s dtdx i mw j)%flt
               else g i j), ssign))
    0 num_eqn
    (λ m, for_range_uint LL UL (λ n,
            correction_flux_step store wave sabs om LL 0 m mw n))
    (mk_matrix rows cols g, ssign)) as (st & Hrun & ->); [lia | | | done].
  - f_equal. apply mk_matrix_ext. intros i j Hi Hj.
    by rewrite bool_decide_eq_false_2 by lia.
  - intros m t Hm ->.
    rewrite (correction_row_loop_off store wave s dtdx) by (done || lia).
    eexists. split; [reflexivity|]. f_equal.
    apply mk_matrix_ext. intros i j Hi Hj.
    cell_cases.
Qed.

Lemma correction_flux_snoc (term : Z → Z → Z → F) (k m n : Z) :
  0 ≤ k →
  correction_flux term (k + 1) m n
  = (correction_flux term k m n + term m k n)%flt.
Proof.
  intros Hk. unfold correction_flux.
  rewrite seqZ_app by lia. rewrite foldl_app. simpl.
  by replace (Z.of_nat 0 + (0 + k)) with k by lia.
Qed.

(** The body of the loop over the wave families when [fwave] is off. *)
Lemma correction_family_step_off {S : Type} (store : sign_store S)
    (wave : list (list (list F))) (s : list (list F)) (dtdx : list F)
    (dtdxave sabs om : list (option F)) (num_eqn LL UL mw rows cols : Z)
    (g : Z → Z → F) (ssign : S) :
  1 ≤ LL ≤ UL → UL < 2 ^ 31 → 0 ≤ num_eqn ≤ rows → num_eqn < 2 ^ 31 →
  UL ≤ cols →
  shape1 wave ≤ Z.of_nat (length s) →
  Forall (λ row, UL - 1 ≤ Z.of_nat (length row)) s →
  Forall (λ plane,
    shape1 wave ≤ Z.of_nat (length plane) ∧
    Forall (λ row, UL - 1 ≤ Z.of_nat (length row)) plane) wave →
  num_eqn ≤ Z.of_nat (length wave) → 0 ≤ mw < shape1 wave →
  cells_upto dtdxave (UL - LL) (UL - LL) (dtdx_average dtdx LL) →
  Z.of_nat (length sabs) = UL - LL → Z.of_nat (length om) = UL - LL →
  ∃ sabs' om',
    correction_family_step store wave s dtdxave num_eqn LL UL 0 mw
      (mk_matrix rows cols g, (sabs, om, ssign))
    = Ok (mk_matrix rows cols (λ i j,
            if bool_decide (0 ≤ i < num_eqn ∧ LL ≤ j < UL)
            then (g i j + wave_correction wave s dtdx i mw j)%flt
            else g i j), (sabs', om', ssign)) ∧
    Z.of_nat (length sabs') = UL - LL ∧ Z.of_nat (length om') = UL - LL.
Proof.
  intros HLL HUL Hne Hne' Hcols Hls Hs Hwave Hlw Hmw Hdave Hsabs Hom.
  assert (UL - 1 ≤ Z.of_nat (length (row_of s mw))) as Hrow.
  { rewrite Forall_forall in Hs. apply Hs.
    pose proof (row_of_lookup s mw ltac:(lia)) as [_ Hl]%lookupZ_Some.
    by eapply list_elem_of_lookup_2. }
  destruct (correction_work_loop_off store s dtdx dtdxave LL UL mw sabs om
              ssign) as (sabs' & om' & Hwork & Ha & Ho); try done; try lia.
  exists sabs', om'. unfold correction_family_step.
  rewrite Hwork. rewrite result_bind_ok. cbv iota beta.
  rewrite (correction_eqn_loop_off store wave s dtdx) by (done || lia).
  rewrite result_bind_ok.
  split; [done|]. split; [apply Ha | apply Ho].
Qed.

(** The compiled kernel when [fwave] is off, over any store for [ssign],
    which it leaves alone. *)
Lemma compute_correction_fluxes_on_off {S : Type} (store : sign_store S)
    (wave : list (list (list F))) (s : list (list F)) (dtdx : list F)
    (num_eqn num_ghost num_cells LL UL : Z) :
  correction_shapes wave s dtdx num_eqn num_ghost num_cells LL UL →
  compute_correction_fluxes_on store wave s dtdx num_eqn num_ghost num_cells
    LL UL 0
  = Ok (correction_fluxes (wave_correction wave s dtdx) (shape1 wave)
          num_eqn (num_cells + 2 * num_ghost) LL UL, ssign_none _ store).
Proof.
  intros (Hine & Hne & HiLL & HiUL & _ & _ & HLL & Hcols & Hd & Hnw & Hls & Hs
          & Hlw & Hwave).
  unfold int_range in *. unfold compute_correction_fluxes_on.
  rewrite np_zeros2_matrix by lia. rewrite result_bind_ok.
  rewrite !np_empty_ok by lia. rewrite !result_bind_ok.
  rewrite bool_decide_eq_false_2 by (intros Hne0; by apply Hne0).
  rewrite result_bind_ok.
  destruct (dtdxave_loop dtdx LL UL) as (dtdxave & -> & Hdave); try lia.
  rewrite result_bind_ok.
  assert (0 ≤ shape1 wave) as Hnw0 by (unfold shape1; destruct wave; lia).
  rewrite for_range_uint_small by lia.
  set (cols := num_cells + 2 * num_ghost).
  set (term := wave_correction wave s dtdx).
  destruct (for_range_invariant
    (λ k (st : list (list F) * (list (option F) * list (option F) * S)),
       st.1 = correction_fluxes term k num_eqn cols LL UL ∧
       Z.of_nat (length st.2.1.1) = UL - LL ∧
       Z.of_nat (length st.2.1.2) = UL - LL ∧
       st.2.2 = ssign_none _ store)
    0 (shape1 wave)
    (λ mw, correction_family_step store wave s dtdxave num_eqn LL UL 0 mw)
    (mk_matrix num_eqn cols (λ _ _, f_zero),
     (replicate (Z.to_nat (UL - LL)) None,
      replicate (Z.to_nat (UL - LL)) None, ssign_none _ store)))
    as ([f [[sabs om] sg]] & Hrun & Hf & _ & _ & Hsg); [lia | | | ].
  - simpl. rewrite !length_replicate. split; [|repeat split; lia].
    apply mk_matrix_ext. intros i j Hi Hj. by case_bool_decide.
  - intros mw [f [[sabs om] sg]] Hmw (Hf & Hsabs & Hom & Hsg).
    simpl in Hf, Hsabs, Hom, Hsg. subst f sg.
    destruct (correction_family_step_off store wave s dtdx dtdxave sabs om
                num_eqn LL UL mw num_eqn cols
                (λ m n, if bool_decide (LL ≤ n < UL)
                        then correction_flux term mw m n else f_zero)
                (ssign_none _ store))
      as (sabs' & om' & Hstep & Hsabs' & Hom'); try done; try lia.
    unfold correction_fluxes at 1. rewrite Hstep.
    eexists. split; [reflexivity|]. simpl.
    split; [|done]. apply mk_matrix_ext. intros i j Hi Hj.
    rewrite correction_flux_snoc by lia.
    cell_cases.
  - simpl in Hf, Hsg. subst f sg. rewrite Hrun. by rewrite result_bind_ok.
Qed.

End Unsplit_mode.

Section Fallback.
Context {F : Type} `{Float64 F}.

Lemma slice_all (a : list F) : slice a 0 (Z.of_nat (length a)) = a.
Proof.
  rewrite slice_in by lia. simpl. rewrite Z.sub_0_r, Nat2Z.id.
  by rewrite firstn_all.
Qed.

Lemma get_fmap_seqZ (g : Z → F) (lo len i : Z) :
  0 ≤ i < len → get (g <$> seqZ lo len) i = g (lo + i).
Proof.
  intros Hi. rewrite get_nat by lia.
  rewrite list_lookup_fmap, lookup_seqZ_lt by lia. simpl. f_equal. lia.
Qed.

(** [row[LL:UL] op= t] on a row given cell by cell. *)
Lemma iop_slice_row (op : F → F → F) (g t : Z → F) (cols LL UL : Z) :
  0 ≤ LL ≤ UL → UL ≤ cols →
  iop_slice op (g <$> seqZ 0 cols) LL UL (t <$> seqZ LL (UL - LL))
  = Ok ((λ j, if bool_decide (LL ≤ j < UL) then op (g j) (t j) else g j)
          <$> seqZ 0 cols).
Proof.
  intros HLL HUL.
  rewrite iop_slice_ok;
    [|lia | rewrite length_fmap, length_seqZ; lia
      | rewrite length_fmap, length_seqZ; lia].
  f_equal.
  apply list_eq; intros k. rewrite list_lookup_imap, !list_lookup_fmap.
  destruct (seqZ 0 cols !! k) as [j|] eqn:Hj; [|done]. simpl.
  apply lookup_seqZ in Hj as [-> Hk]. rewrite Z.add_0_l. f_equal.
  case_bool_decide; [|done].
  rewrite get_fmap_seqZ by lia. do 2 f_equal. lia.
Qed.

(** The term of family [mw] at interface [n], in either mode. *)
Lemma correction_term_cells (wave : list (list (list F)))
    (s : list (list F)) (dtdx : list F) (fwave : bool) (m mw n : Z) :
  let v := get (row_of s mw) (n - 1) in
  (f_half * (if fwave then sign_expr v else f_abs v)
   * (f_one - f_abs v * (f_half * (get dtdx (n - 1) + get dtdx n)))
   * get3 wave m mw (n - 1))%flt
  = (if fwave then fwave_correction wave s dtdx
     else wave_correction wave s dtdx) m mw n.
Proof. by destruct fwave. Qed.

(** The fallback branch, in either mode. *)
Lemma compute_correction_fluxes_numpy_run (wave : list (list (list F)))
    (s : list (list F)) (dtdx : list F)
    (num_eqn num_ghost num_cells LL UL : Z) (fwave : bool) :
  correction_shapes wave s dtdx num_eqn num_ghost num_cells LL UL →
  compute_correction_fluxes_numpy wave s dtdx num_eqn num_ghost num_cells
    LL UL fwave
  = Ok (correction_fluxes
          (if fwave then fwave_correction wave s dtdx
           else wave_correction wave s dtdx)
          (shape1 wave) num_eqn (num_cells + 2 * num_ghost) LL UL).
Proof.
  intros (Hine & Hne & HiLL & HiUL & _ & _ & HLL & Hcols & Hd & Hnw & Hls & Hs
          & Hlw & Hwave).
  unfold int_range in *. unfold compute_correction_fluxes_numpy.
  rewrite np_zeros2_matrix by lia. rewrite result_bind_ok.
  set (cols := num_cells + 2 * num_ghost) in *.
  set (term := if fwave then fwave_correction wave s dtdx
               else wave_correction wave s dtdx).
  set (ns := seqZ LL (UL - LL)).
  rewrite (slice_fmap dtdx (LL - 1) (UL - 1) LL (λ n, get dtdx (n - 1)))
    by (lia || intros; f_equal; lia).
  rewrite (slice_fmap dtdx LL UL LL (get dtdx))
    by (lia || intros; f_equal; lia).
  replace (UL - 1 - (LL - 1)) with (UL - LL) by lia. fold ns.
  rewrite broadcast_same by (by rewrite !length_fmap).
  rewrite result_bind_ok. rewrite zip_with_fmap_same.
  rewrite <- list_fmap_compose.
  assert (0 ≤ shape1 wave) as Hnw0 by (unfold shape1; destruct wave; lia).
  match goal with |- for_range _ _ ?body _ = _ =>
    destruct (for_range_invariant
      (λ k f, f = correction_fluxes term k num_eqn cols LL UL)
      0 (shape1 wave) body (mk_matrix num_eqn cols (λ _ _, f_zero)))
      as (f & Hrun & ->); [lia | | | exact Hrun]
  end.
  { apply mk_matrix_ext. intros i j Hi Hj. by case_bool_decide. }
  intros mw f Hmw ->.
  assert (UL - 1 ≤ Z.of_nat (length (row_of s mw))) as Hrow.
  { rewrite Forall_forall in Hs. apply Hs.
    pose proof (row_of_lookup s mw ltac:(lia)) as [_ Hl]%lookupZ_Some.
    by eapply list_elem_of_lookup_2. }
  rewrite (np_item_ok s mw (row_of s mw)) by (apply row_of_lookup; lia).
  rewrite result_bind_ok.
  rewrite (slice_fmap (row_of s mw) (LL - 1) (UL - 1) LL
             (λ n, get (row_of s mw) (n - 1)))
    by (lia || intros; f_equal; lia).
  replace (UL - 1 - (LL - 1)) with (UL - LL) by lia. fold ns.
  rewrite <- !list_fmap_compose.
  match goal with |- context [slice ?a 0 (UL - LL)] =>
    replace (slice a 0 (UL - LL)) with a
  end.
  2:{ symmetry. etrans; [|apply slice_all]. f_equal.
      unfold ns. rewrite length_fmap, length_seqZ. lia. }
  rewrite broadcast_same by (by rewrite !length_fmap).
  rewrite result_bind_ok. rewrite zip_with_fmap_same.
  rewrite <- list_fmap_compose.
  match goal with |- ∃ _, for_range _ _ ?body _ = _ ∧ _ =>
    destruct (for_range_invariant
      (λ k f, f = mk_matrix num_eqn cols (λ i j,
         if bool_decide (0 ≤ i < k ∧ LL ≤ j < UL)
         then (correction_flux term mw i j + term i mw j)%flt
         else if bool_decide (LL ≤ j < UL)
              then correction_flux term mw i j else f_zero))
      0 num_eqn body (correction_fluxes term mw num_eqn cols LL UL))
      as (f & Hrun & ->); [lia | | | ]
  end.
  - apply mk_matrix_ext. intros i j Hi Hj.
    by rewrite (bool_decide_eq_false_2 (0 ≤ i < 0 ∧ _)) by lia.
  - intros m f Hm ->.
    destruct (get3_lookup wave (shape1 wave) (UL - 1) m mw)
      as (plane & w & Hplane & Hw & Hlen & Hget); try done; try lia.
    rewrite (np_item_ok wave m plane Hplane), result_bind_ok.
    rewrite (np_item_ok plane mw w Hw), result_bind_ok.
    assert (∀ {A} (b : bool) (x y : A → F) (l : list A),
      (if b then x <$> l else y <$> l) = (λ n, if b then x n else y n) <$> l)
      as Hif by (by intros A []).
    rewrite Hif. rewrite <- list_fmap_compose.
    rewrite broadcast_same by (by rewrite !length_fmap).
    rewrite result_bind_ok. rewrite zip_with_fmap_same.
    rewrite (slice_fmap w (LL - 1) (UL - 1) LL
               (λ n, get3 wave m mw (n - 1)))
      by (lia || intros; rewrite Hget; f_equal; lia).
    replace (UL - 1 - (LL - 1)) with (UL - LL) by lia. fold ns.
    rewrite broadcast_same by (by rewrite !length_fmap).
    rewrite result_bind_ok. rewrite zip_with_fmap_same.
    rewrite (np_item_ok _ m _ (lookupZ_mk_matrix num_eqn cols _ m Hm)).
    rewrite result_bind_ok.
    unfold ns. rewrite iop_slice_row by lia. rewrite result_bind_ok.
    rewrite np_set_item_ok by (rewrite length_mk_matrix; lia).
    rewrite insert_matrix_row by lia.
    eexists. split; [reflexivity|].
    apply mk_matrix_ext. intros i j Hi Hj. simpl.
    pose proof (correction_term_cells wave s dtdx fwave m mw j) as Hterm.
    simpl in Hterm. fold term in Hterm.
    cell_cases; destruct_and?; subst; try (exfalso; lia).
    all: rewrite <- Hterm; by destruct fwave.
  - exists (correction_fluxes term (mw + 1) num_eqn cols LL UL).
    split; [|done]. rewrite Hrun. f_equal.
    apply mk_matrix_ext. intros i j Hi Hj.
    rewrite correction_flux_snoc by lia. cell_cases.
Qed.

End Fallback.

Section Correction_results.
Context {F : Type} `{Float64 F}.

Lemma correction_fluxes_cells (term : Z → Z → Z → F)
    (num_waves num_eqn cols LL UL : Z) :
  0 ≤ num_eqn → 0 ≤ cols →
  let f := correction_fluxes term num_waves num_eqn cols LL UL in
  Z.of_nat (length f) = num_eqn ∧
  Forall (λ row, Z.of_nat (length row) = cols) f ∧
  (∀ m n, 0 ≤ m < num_eqn → 0 ≤ n < cols → LL ≤ n < UL →
     lookup2 f m n = Some (correction_flux term num_waves m n)) ∧
  (∀ m n, 0 ≤ m < num_eqn → 0 ≤ n < cols → ¬ LL ≤ n < UL →
     lookup2 f m n = Some f_zero).
Proof.
  intros Hne Hcols f. split; [by apply length_mk_matrix|]. split; [|split].
  - unfold f, correction_fluxes, mk_matrix. apply Forall_fmap, Forall_true.
    intros i. simpl. rewrite length_fmap, length_seqZ. lia.
  - intros m n Hm Hn Hin. unfold f, correction_fluxes.
    rewrite lookup2_mk_matrix by done. by rewrite bool_decide_eq_true_2.
  - intros m n Hm Hn Hout. unfold f, correction_fluxes.
    rewrite lookup2_mk_matrix by done. by rewrite bool_decide_eq_false_2.
Qed.

(** When [fwave] is off and the arrays have fitting shapes, the compiled
    kernel, which is the one [compute_correction_fluxes] calls, ends without
    a fault and returns an array [f] of [num_eqn] rows and
    [num_cells + 2*num_ghost] columns: at an interface [n] of [LL .. UL-1],
    [f[m, n]] holds the terms
    [0.5 * |s| * (1 - |s| * 0.5*(dtdx[n-1]+dtdx[n])) * wave[m,mw,n-1]] of the
    wave families, added to 0.0 one after the other; every other cell
    holds 0.0. *)
Theorem compute_correction_fluxes_unsplit_exact
    (wave : list (list (list F))) (s : list (list F)) (dtdx : list F)
    (num_eqn num_ghost num_cells LL UL : Z) :
  correction_shapes wave s dtdx num_eqn num_ghost num_cells LL UL →
  ∃ f,
    compute_correction_fluxes wave s dtdx num_eqn num_ghost num_cells LL UL
      false = Ok f ∧
    Z.of_nat (length f) = num_eqn ∧
    Forall (λ row, Z.of_nat (length row) = num_cells + 2 * num_ghost) f ∧
    (∀ m n, 0 ≤ m < num_eqn → 0 ≤ n < num_cells + 2 * num_ghost →
       LL ≤ n < UL →
       lookup2 f m n
       = Some (correction_flux (wave_correction wave s dtdx) (shape1 wave)
                 m n)) ∧
    (∀ m n, 0 ≤ m < num_eqn → 0 ≤ n < num_cells + 2 * num_ghost →
       ¬ LL ≤ n < UL → lookup2 f m n = Some f_zero).
Proof.
  intros Hshapes. eexists. split.
  - unfold compute_correction_fluxes. simpl.
    unfold compute_correction_fluxes_compiled.
    by rewrite compute_correction_fluxes_on_off by done.
  - destruct Hshapes as (_ & Hne & _ & _ & _ & _ & HLL & Hcols & _).
    apply correction_fluxes_cells; lia.
Qed.

(** When [fwave] is off, the loops of the compiled kernel and the slice
    expressions of the fallback branch both end without a fault and return
    the same array. *)
Theorem compute_correction_fluxes_paths_agree
    (wave : list (list (list F))) (s : list (list F)) (dtdx : list F)
    (num_eqn num_ghost num_cells LL UL : Z) :
  correction_shapes wave s dtdx num_eqn num_ghost num_cells LL UL →
  ∃ f,
    compute_correction_fluxes_compiled wave s dtdx num_eqn num_ghost
      num_cells LL UL 0 = Ok f ∧
    compute_correction_fluxes_numpy wave s dtdx num_eqn num_ghost
      num_cells LL UL false = Ok f.
Proof.
  intros Hshapes. eexists. split.
  - unfold compute_correction_fluxes_compiled.
    by rewrite compute_correction_fluxes_on_off by done.
  - by rewrite compute_correction_fluxes_numpy_run by done.
Qed.

(** With [fwave] set, the fallback branch ends without a fault and returns
    the array whose cell [f[m, n]], at an interface [n] of [LL .. UL-1],
    holds the terms
    [0.5 * sign(s) * (1 - |s| * 0.5*(dtdx[n-1]+dtdx[n])) * wave[m,mw,n-1]] of
    the wave families, added to 0.0 one after the other; every other cell
    holds 0.0. *)
Theorem compute_correction_fluxes_numpy_fwave_exact
    (wave : list (list (list F))) (s : list (list F)) (dtdx : list F)
    (num_eqn num_ghost num_cells LL UL : Z) :
  correction_shapes wave s dtdx num_eqn num_ghost num_cells LL UL →
  ∃ f,
    compute_correction_fluxes_numpy wave s dtdx num_eqn num_ghost num_cells
      LL UL true = Ok f ∧
    Z.of_nat (length f) = num_eqn ∧
    Forall (λ row, Z.of_nat (length row) = num_cells + 2 * num_ghost) f ∧
    (∀ m n, 0 ≤ m < num_eqn → 0 ≤ n < num_cells + 2 * num_ghost →
       LL ≤ n < UL →
       lookup2 f m n
       = Some (correction_flux (fwave_correction wave s dtdx) (shape1 wave)
                 m n)) ∧
    (∀ m n, 0 ≤ m < num_eqn → 0 ≤ n < num_cells + 2 * num_ghost →
       ¬ LL ≤ n < UL → lookup2 f m n = Some f_zero).
Proof.
  intros Hshapes. eexists. split.
  - by rewrite compute_correction_fluxes_numpy_run by done.
  - destruct Hshapes as (_ & Hne & _ & _ & _ & _ & HLL & Hcols & _).
    apply correction_fluxes_cells; lia.
Qed.

End Correction_results.

Lemma ex_correction_shapes : correction_shapes ex_wave ex_s ex_dtdx 1 2 1 1 4.
Proof.
  unfold correction_shapes, int_range.
  repeat split; try (repeat constructor; simpl; lia); simpl; lia.
Defined.

Lemma compute_correction_fluxes_unsplit_exact_witness :
  ∃ f,
    compute_correction_fluxes ex_wave ex_s ex_dtdx 1 2 1 1 4 false = Ok f ∧
    Z.of_nat (length f) = 1 ∧
    Forall (λ row, Z.of_nat (length row) = 1 + 2 * 2) f ∧
    (∀ m n, 0 ≤ m < 1 → 0 ≤ n < 1 + 2 * 2 → 1 ≤ n < 4 →
       lookup2 f m n
       = Some (correction_flux (wave_correction ex_wave ex_s ex_dtdx)
                 (shape1 ex_wave) m n)) ∧
    (∀ m n, 0 ≤ m < 1 → 0 ≤ n < 1 + 2 * 2 → ¬ 1 ≤ n < 4 →
       lookup2 f m n = Some f_zero).
Proof.
  exact (compute_correction_fluxes_unsplit_exact _ _ _ _ _ _ _ _
           ex_correction_shapes).
Defined.

Lemma compute_correction_fluxes_paths_agree_witness :
  ∃ f,
    compute_correction_fluxes_compiled ex_wave ex_s ex_dtdx 1 2 1 1 4 0
    = Ok f ∧
    compute_correction_fluxes_numpy ex_wave ex_s ex_dtdx 1 2 1 1 4 false
    = Ok f.
Proof.
  exact (compute_correction_fluxes_paths_agree _ _ _ _ _ _ _ _
           ex_correction_shapes).
Defined.

Lemma compute_correction_fluxes_numpy_fwave_exact_witness :
  ∃ f,
    compute_correction_fluxes_numpy ex_wave ex_s ex_dtdx 1 2 1 1 4 true
    = Ok f ∧
    Z.of_nat (length f) = 1 ∧
    Forall (λ row, Z.of_nat (length row) = 1 + 2 * 2) f ∧
    (∀ m n, 0 ≤ m < 1 → 0 ≤ n < 1 + 2 * 2 → 1 ≤ n < 4 →
       lookup2 f m n
       = Some (correction_flux (fwave_correction ex_wave ex_s ex_dtdx)
                 (shape1 ex_wave) m n)) ∧
    (∀ m n, 0 ≤ m < 1 → 0 ≤ n < 1 + 2 * 2 → ¬ 1 ≤ n < 4 →
       lookup2 f m n = Some f_zero).
Proof.
  exact (compute_correction_fluxes_numpy_fwave_exact _ _ _ _ _ _ _ _
           ex_correction_shapes).
Defined.

(** *** The compiled kernel with [fwave] set *)

Lemma for_range_fault {St : Type} (lo k hi : Z) (body : Z → St → result St)
    (s t : St) (e : fault) :
  lo ≤ k < hi → for_range lo k body s = Ok t → body k t = Fault e →
  for_range lo hi body s = Fault e.
Proof.
  intros Hk Hpre Hbody. unfold for_range in *.
  replace (hi - lo) with ((k - lo) + (hi - k)) by lia.
  rewrite seqZ_app by lia. rewrite for_each_app, Hpre. simpl.
  replace (lo + (k - lo)) with k by lia.
  rewrite (seqZ_cons k) by lia. simpl. by rewrite Hbody.
Qed.

Section Fwave_fault.
Context {F : Type} `{Float64 F}.

(** The first inner loop with [fwave] set: [ssign[n]] is stored at the
    interface number itself, and the first [n] that is not below the length
    [UL - LL] of [ssign] falls outside it. *)
Lemma correction_work_loop_fwave (s : list (list F)) (dtdx : list F)
    (dtdxave : list (option F)) (LL UL mw : Z)
    (sabs om ssign : list (option F)) :
  1 ≤ LL < UL → UL < 2 ^ 31 →
  0 ≤ mw < Z.of_nat (length s) →
  UL - 1 ≤ Z.of_nat (length (row_of s mw)) →
  cells_upto dtdxave (UL - LL) (UL - LL) (dtdx_average dtdx LL) →
  Z.of_nat (length sabs) = UL - LL → Z.of_nat (length om) = UL - LL →
  Z.of_nat (length ssign) = UL - LL →
  for_range_uint LL UL (λ n,
    correction_work_step strict_store s dtdxave LL 1 mw n) (sabs, om, ssign)
  = Fault (OutOfBounds "ssign" (Z.max LL (UL - LL))).
Proof.
  intros HLL HUL Hmw Hrow [_ Hdave] Hsabs Hom Hssign.
  rewrite for_range_uint_small by lia.
  set (k := Z.max LL (UL - LL)).
  destruct (for_range_invariant
    (λ (_ : Z) (w : list (option F) * list (option F) * list (option F)),
       Z.of_nat (length w.1.1) = UL - LL ∧
       Z.of_nat (length w.1.2) = UL - LL ∧
       Z.of_nat (length w.2) = UL - LL)
    LL k (λ n, correction_work_step strict_store s dtdxave LL 1 mw n)
    (sabs, om, ssign)) as ([[a o] sg] & Hpre & Ha & Ho & Hsg);
    [lia | done | | ].
  - intros n [[a o] sg] Hn (Ha & Ho & Hsg). simpl in Ha, Ho, Hsg.
    rewrite (correction_work_step_ok strict_store s dtdxave LL 1 mw n a o sg
               (dtdx_average dtdx LL (n - LL))); try lia.
    2:{ apply Hdave. lia. }
    rewrite bool_decide_eq_true_2 by done. cbn [ssign_write strict_store].
    rewrite store1_ok by lia. eexists. split; [reflexivity|]. simpl.
    by rewrite !length_insert.
  - simpl in Ha, Ho, Hsg.
    apply (for_range_fault LL k UL _ _ (a, o, sg)); [lia | done |].
    rewrite (correction_work_step_ok strict_store s dtdxave LL 1 mw k a o sg
               (dtdx_average dtdx LL (k - LL))); try lia.
    2:{ apply Hdave. lia. }
    rewrite bool_decide_eq_true_2 by done. cbn [ssign_write strict_store].
    unfold store1, lookupZ. rewrite bool_decide_eq_true_2 by lia.
    by rewrite lookup_ge_None_2 by lia.
Qed.

(** The compiled kernel with [fwave] set: the first store to [ssign] that
    falls outside it. *)
Lemma compute_correction_fluxes_compiled_fwave
    (wave : list (list (list F))) (s : list (list F)) (dtdx : list F)
    (num_eqn num_ghost num_cells LL UL : Z) :
  correction_shapes wave s dtdx num_eqn num_ghost num_cells LL UL →
  LL < UL → 1 ≤ shape1 wave →
  compute_correction_fluxes_compiled wave s dtdx num_eqn num_ghost num_cells
    LL UL 1
  = Fault (OutOfBounds "ssign" (Z.max LL (UL - LL))).
Proof.
  intros (Hine & Hne & HiLL & HiUL & _ & _ & HLL & Hcols & Hd & Hnw & Hls & Hs
          & Hlw & Hwave) Hlt Hnw1.
  unfold int_range in *.
  unfold compute_correction_fluxes_compiled, compute_correction_fluxes_on.
  rewrite np_zeros2_matrix by lia. rewrite result_bind_ok.
  rewrite !np_empty_ok by lia. rewrite !result_bind_ok.
  rewrite bool_decide_eq_true_2 by done. cbn [ssign_alloc strict_store].
  rewrite np_empty_ok by lia. rewrite result_bind_ok.
  destruct (dtdxave_loop dtdx LL UL) as (dtdxave & -> & Hdave); try lia.
  rewrite result_bind_ok.
  rewrite for_range_uint_small by lia.
  match goal with |- (for_range _ _ ?body ?init ≫= _) ≫= _ = _ =>
    rewrite (for_range_fault 0 0 (shape1 wave) body init init
               (OutOfBounds "ssign" (Z.max LL (UL - LL))))
  end; [done | lia | by apply for_range_empty |].
  unfold correction_family_step.
  rewrite (correction_work_loop_fwave s dtdx); try done; try lia.
  - rewrite Forall_forall in Hs. apply Hs.
    pose proof (row_of_lookup s 0 ltac:(lia)) as [_ Hl]%lookupZ_Some.
    by eapply list_elem_of_lookup_2.
  - rewrite length_replicate. lia.
  - rewrite length_replicate. lia.
  - rewrite length_replicate. lia.
Qed.

(** With [fwave] set, on arrays of fitting shapes with at least one wave
    family and one interface, the compiled kernel, which is the one
    [compute_correction_fluxes] calls, stores outside an array: every access
    before it is inside its array, and in the first wave family it stores
    [ssign[n]] for [n = max(LL, UL - LL)], outside the [UL - LL] cells of
    [ssign].  With bounds checking off nothing stops the program there;
    what it does from that store on is outside the model. *)
Theorem compute_correction_fluxes_fwave_out_of_bounds
    (wave : list (list (list F))) (s : list (list F)) (dtdx : list F)
    (num_eqn num_ghost num_cells LL UL : Z) :
  correction_shapes wave s dtdx num_eqn num_ghost num_cells LL UL →
  LL < UL → 1 ≤ shape1 wave →
  compute_correction_fluxes wave s dtdx num_eqn num_ghost num_cells LL UL
    true
  = Fault (OutOfBounds "ssign" (Z.max LL (UL - LL))).
Proof.
  intros Hshapes Hlt Hnw. unfold compute_correction_fluxes. simpl.
  by apply compute_correction_fluxes_compiled_fwave.
Qed.

End Fwave_fault.

Lemma compute_correction_fluxes_fwave_out_of_bounds_witness :
  compute_correction_fluxes ex_wave ex_s ex_dtdx 1 2 1 1 4 true
  = Fault (OutOfBounds "ssign" (Z.max 1 (4 - 1))).
Proof.
  apply compute_correction_fluxes_fwave_out_of_bounds.
  - exact ex_correction_shapes.
  - lia.
  - simpl. lia.
Defined.

(** ** The Python kernel of [ClawSolver1D.step_hyperbolic] *)

Section Python_kernel_shapes.
Context {F : Type} `{Float64 F}.

Lemma kernel_1d_godunov_shapes (num_eqn num_ghost num_cells : Z)
    (dtdx : list F) (wave : list (list (list F)))
    (s amdq apdq q : list (list F)) :
  kernel_1d_shapes num_eqn num_ghost num_cells dtdx wave s amdq apdq q →
  2 ≤ num_ghost →
  godunov_shapes dtdx apdq amdq num_eqn (num_ghost - 1)
    (num_ghost + num_cells + 1) q.
Proof.
  intros (Hine & Hne & Hnc & Hng & Hic & Hd & Hq & Hqr & Hap & Hapr & Ham
          & Hamr & Hnw & Hs & Hsr & Hw & Hwr) Hg.
  unfold int_range in *. unfold godunov_shapes, int_range.
  repeat split; try lia.
  - eapply Forall_impl; [exact Hqr|]. simpl. intros; lia.
  - eapply Forall_impl; [exact Hapr|]. simpl. intros; lia.
  - eapply Forall_impl; [exact Hamr|]. simpl. intros; lia.
Qed.

Lemma kernel_1d_cfl_shapes (num_eqn num_ghost num_cells : Z)
    (dtdx : list F) (wave : list (list (list F)))
    (s amdq apdq q : list (list F)) :
  kernel_1d_shapes num_eqn num_ghost num_cells dtdx wave s amdq apdq q →
  2 ≤ num_ghost →
  cfl_shapes wave dtdx s (num_ghost - 1) (num_ghost + num_cells + 1).
Proof.
  intros (Hine & Hne & Hnc & Hng & Hic & Hd & Hq & Hqr & Hap & Hapr & Ham
          & Hamr & Hnw & Hs & Hsr & Hw & Hwr) Hg.
  unfold int_range in *. unfold cfl_shapes, int_range.
  repeat split; try lia.
  eapply Forall_impl; [exact Hsr|]. simpl. intros; lia.
Qed.

Lemma kernel_1d_correction_shapes (num_eqn num_ghost num_cells : Z)
    (dtdx : list F) (wave : list (list (list F)))
    (s amdq apdq q : list (list F)) :
  kernel_1d_shapes num_eqn num_ghost num_cells dtdx wave s amdq apdq q →
  2 ≤ num_ghost →
  correction_shapes wave s dtdx num_eqn num_ghost num_cells
    (num_ghost - 1) (num_ghost + num_cells + 1).
Proof.
  intros (Hine & Hne & Hnc & Hng & Hic & Hd & Hq & Hqr & Hap & Hapr & Ham
          & Hamr & Hnw & Hs & Hsr & Hw & Hwr) Hg.
  unfold int_range in *. unfold correction_shapes, int_range.
  repeat split; try lia.
  - eapply Forall_impl; [exact Hsr|]. simpl. intros; lia.
  - eapply Forall_impl; [exact Hwr|]. simpl. intros plane [Hp Hr].
    split; [lia|]. eapply Forall_impl; [exact Hr|]. simpl. intros; lia.
Qed.

End Python_kernel_shapes.

Section Correction_update.
Context {F : Type} `{Float64 F}.

(** [a[i:j] op= t] for a right-hand side given interface by interface. *)
Lemma iop_slice_fmap (op : F → F → F) (a : list F) (i j : Z) (t : Z → F) :
  0 ≤ i ≤ j → j ≤ Z.of_nat (length a) →
  iop_slice op a i j (t <$> seqZ i (j - i))
  = Ok (imap (λ n x, if bool_decide (i ≤ Z.of_nat n < j)
                     then op x (t (Z.of_nat n)) else x) a).
Proof.
  intros Hi Hj.
  rewrite iop_slice_ok by (lia || rewrite length_fmap, length_seqZ; lia).
  f_equal. apply imap_ext. intros n x Hx. simpl.
  case_bool_decide; [|done].
  rewrite get_fmap_seqZ by lia. do 2 f_equal. lia.
Qed.

Lemma lookup_correction_rows (dtdx : list F) (f : list (list F))
    (num_eqn LL UL : Z) (q : list (list F)) (m : nat) :
  correction_rows dtdx f num_eqn LL UL q !! m
  = (λ row, if bool_decide (Z.of_nat m < num_eqn)
            then imap (λ j, correction_cell dtdx (row_of f (Z.of_nat m)) LL UL
                              (Z.of_nat j)) row
            else row) <$> q !! m.
Proof. unfold correction_rows. by rewrite list_lookup_imap. Qed.

Lemma correction_rows_none (dtdx : list F) (f : list (list F))
    (num_eqn LL UL : Z) (q : list (list F)) :
  num_eqn ≤ 0 → correction_rows dtdx f num_eqn LL UL q = q.
Proof.
  intros Hle. apply list_eq; intros m. rewrite lookup_correction_rows.
  destruct (q !! m) as [row|]; [|done]. simpl.
  by rewrite bool_decide_eq_false_2 by lia.
Qed.

(** The update by the flux differences computes the closed form. *)
Lemma correction_update_rows (dtdx : list F) (f : list (list F))
    (num_eqn LL UL : Z) (q : list (list F)) :
  0 ≤ LL < UL → UL - 1 ≤ Z.of_nat (length dtdx) →
  0 ≤ num_eqn ≤ Z.of_nat (length q) → num_eqn ≤ Z.of_nat (length f) →
  Forall (λ row, UL - 1 ≤ Z.of_nat (length row)) q →
  Forall (λ row, UL ≤ Z.of_nat (length row)) f →
  correction_update dtdx f num_eqn LL UL q
  = Ok (correction_rows dtdx f num_eqn LL UL q).
Proof.
  intros HLL Hd Hq Hf Hqr Hfr. rewrite Forall_forall in Hqr, Hfr.
  unfold correction_update.
  match goal with |- for_range _ _ ?body _ = _ =>
    destruct (for_range_invariant
      (λ k q', q' = correction_rows dtdx f k LL UL q) 0 num_eqn body q)
      as (q' & Hrun & ->); [lia | | | exact Hrun]
  end.
  - by rewrite correction_rows_none.
  - intros m t Hm ->. eexists. split; [|reflexivity].
    destruct (lookupZ_is_Some q m ltac:(lia)) as [row Hrow].
    apply lookupZ_Some in Hrow as Hrow'. destruct Hrow' as [_ Hrow'].
    pose proof (row_of_lookup f m ltac:(lia)) as Hfrow.
    assert (UL - 1 ≤ Z.of_nat (length row)) as Hlr
      by (apply Hqr; by eapply list_elem_of_lookup_2).
    assert (UL ≤ Z.of_nat (length (row_of f m))) as Hlf.
    { apply Hfr. apply lookupZ_Some in Hfrow as [_ Hl].
      by eapply list_elem_of_lookup_2. }
    set (t := correction_rows dtdx f m LL UL q).
    assert (length t = length q) as Hlt
      by (unfold t, correction_rows; apply length_imap).
    assert (lookupZ t m = Some row) as Ht.
    { apply lookupZ_Some. split; [lia|]. unfold t.
      rewrite lookup_correction_rows, Hrow'. simpl.
      by rewrite bool_decide_eq_false_2 by lia. }
    rewrite (np_item_ok t m row Ht), result_bind_ok.
    rewrite (np_item_ok f m _ Hfrow), result_bind_ok.
    rewrite (slice_fmap (row_of f m) (LL + 1) UL LL
               (λ n, get (row_of f m) (n + 1)))
      by (lia || intros; f_equal; lia).
    rewrite (slice_fmap (row_of f m) LL (UL - 1) LL (get (row_of f m)))
      by (lia || intros; f_equal; lia).
    replace (UL - (LL + 1)) with (UL - 1 - LL) by lia.
    rewrite broadcast_same by (by rewrite !length_fmap).
    rewrite result_bind_ok. rewrite zip_with_fmap_same.
    rewrite (slice_fmap dtdx LL (UL - 1) LL (get dtdx))
      by (lia || intros; f_equal; lia).
    rewrite broadcast_same by (by rewrite !length_fmap).
    rewrite result_bind_ok. rewrite zip_with_fmap_same.
    rewrite iop_slice_fmap by lia. rewrite result_bind_ok.
    rewrite np_set_item_ok by lia. f_equal.
    apply list_eq; intros i. rewrite lookup_correction_rows.
    destruct (decide (i = Z.to_nat m)) as [->|Hi].
    + rewrite list_lookup_insert_eq by lia.
      rewrite Hrow'. simpl. rewrite Z2Nat.id by lia.
      by rewrite bool_decide_eq_true_2 by lia.
    + rewrite list_lookup_insert_ne by done. unfold t.
      rewrite lookup_correction_rows.
      destruct (q !! i) as [r|]; [|done]. simpl. f_equal.
      repeat case_bool_decide; try lia; done.
Qed.

End Correction_update.

Section Python_kernel_results.
Context {F : Type} `{Float64 F}.

Lemma lookup2_correction_rows (dtdx : list F) (f : list (list F))
    (num_eqn LL UL : Z) (q : list (list F)) (m n : Z) :
  lookup2 (correction_rows dtdx f num_eqn LL UL q) m n
  = (λ x, if bool_decide (m < num_eqn)
          then correction_cell dtdx (row_of f m) LL UL n x else x)
    <$> lookup2 q m n.
Proof.
  unfold lookup2, lookupZ.
  destruct (bool_decide (0 ≤ m)) eqn:Hm; simpl; [|done].
  apply bool_decide_eq_true in Hm.
  rewrite lookup_correction_rows.
  destruct (q !! Z.to_nat m) as [row|]; simpl; [|done].
  rewrite Z2Nat.id by done.
  destruct (bool_decide (0 ≤ n)) eqn:Hn; simpl; [|done].
  apply bool_decide_eq_true in Hn.
  case_bool_decide.
  - rewrite list_lookup_imap. by rewrite Z2Nat.id by done.
  - by destruct (row !! Z.to_nat n).
Qed.

Lemma godunov_rows_lengths (P : Z → Prop) (dtdx : list F)
    (apdq amdq : list (list F)) (num_eqn LL UL : Z) (q : list (list F)) :
  Forall (λ row, P (Z.of_nat (length row))) q →
  Forall (λ row, P (Z.of_nat (length row)))
    (godunov_rows dtdx apdq amdq num_eqn LL UL q).
Proof.
  rewrite !Forall_lookup. intros Hq m row. rewrite lookup_godunov_rows.
  destruct (q !! m) as [r|] eqn:Hr; [|done]. simpl. intros [= <-].
  case_bool_decide; [rewrite length_godunov_row|]; by eapply Hq.
Qed.

(** The update by the differences of the correction fluxes, on arrays of
    fitting shapes: it ends without a fault; in a row [m < num_eqn] a cell
    [n] of [LL .. UL-2] loses [dtdx[n] * (f[m,n+1] - f[m,n])], and every
    other cell keeps its value. *)
Theorem correction_update_exact (dtdx : list F) (f : list (list F))
    (num_eqn LL UL : Z) (q : list (list F)) :
  0 ≤ LL < UL → UL - 1 ≤ Z.of_nat (length dtdx) →
  0 ≤ num_eqn ≤ Z.of_nat (length q) → num_eqn ≤ Z.of_nat (length f) →
  Forall (λ row, UL - 1 ≤ Z.of_nat (length row)) q →
  Forall (λ row, UL ≤ Z.of_nat (length row)) f →
  ∃ q',
    correction_update dtdx f num_eqn LL UL q = Ok q' ∧
    (∀ m n x, 0 ≤ m < num_eqn → LL ≤ n < UL - 1 → lookup2 q m n = Some x →
       lookup2 q' m n
       = Some (x - get dtdx n
                   * (get (row_of f m) (n + 1) - get (row_of f m) n))%flt) ∧
    (∀ m n, ¬ (0 ≤ m < num_eqn ∧ LL ≤ n < UL - 1) →
       lookup2 q' m n = lookup2 q m n).
Proof.
  intros HLL Hd Hq Hf Hqr Hfr.
  exists (correction_rows dtdx f num_eqn LL UL q).
  split; [by apply correction_update_rows|]. split.
  - intros m n x Hm Hn Hx. rewrite lookup2_correction_rows, Hx. simpl.
    rewrite bool_decide_eq_true_2 by lia. unfold correction_cell.
    by rewrite bool_decide_eq_true_2 by lia.
  - intros m n Hout. rewrite lookup2_correction_rows.
    destruct (lookup2 q m n) as [x|] eqn:Hx; [|done]. simpl. f_equal.
    case_bool_decide as Hm; [|done].
    assert (0 ≤ m) as Hm0.
    { unfold lookup2 in Hx. destruct (lookupZ q m) as [row|] eqn:Hrow; [|done].
      by apply lookupZ_Some in Hrow as [? _]. }
    unfold correction_cell. by rewrite bool_decide_eq_false_2 by lia.
Qed.

(** With the first interface at [LL = 0] the compiled update reads
    [apdq[m, n - 1]] at the unsigned index [2^32 - 1]. *)
Lemma godunov_update_compiled_first_interface (dtdx : list F)
    (apdq amdq : list (list F)) (num_eqn UL : Z) (q : list (list F)) :
  1 ≤ num_eqn < 2 ^ 31 → 1 ≤ UL < 2 ^ 31 →
  1 ≤ Z.of_nat (length dtdx) → 1 ≤ Z.of_nat (length apdq) →
  Z.of_nat (length (row_of apdq 0)) < 2 ^ 32 →
  godunov_update_compiled dtdx apdq amdq num_eqn 0 UL q
  = Fault (OutOfBounds "apdq" (2 ^ 32 - 1)).
Proof.
  intros Hne HUL Hd Hap Hrow. unfold godunov_update_compiled.
  rewrite for_range_uint_small by lia.
  apply (for_range_fault 0 0 num_eqn _ q q); [lia | by apply for_range_empty |].
  rewrite for_range_uint_small by lia.
  apply (for_range_fault 0 0 UL _ q q); [lia | by apply for_range_empty |].
  unfold godunov_update_interface.
  rewrite (load1_ok _ dtdx 0 (get dtdx 0)) by (apply get_lookup; lia).
  rewrite result_bind_ok.
  change (to_uint (0 - 1)) with (2 ^ 32 - 1).
  unfold load2. rewrite (load1_ok _ apdq 0 (row_of apdq 0))
    by (apply row_of_lookup; lia).
  rewrite result_bind_ok.
  assert (load1 "apdq" (row_of apdq 0) (2 ^ 32 - 1)
          = Fault (OutOfBounds "apdq" (2 ^ 32 - 1))) as ->; [|done].
  unfold load1, lookupZ. rewrite bool_decide_eq_true_2 by lia.
  by rewrite lookup_ge_None_2 by lia.
Qed.

Section Step.
Variable limit :
  Z → list (list (list F)) → list (list F) → list Z → list F →
  result (list (list (list F))).

(** With two ghost cells or more and arrays of the sizes of
    [kernel_1d_shapes], among them [dtdx] with [num_cells + 2*num_ghost]
    cells as it is built without a capacity function, the Python kernel
    stays inside its arrays.  The first-order update
    and the CFL number are computed; every physical cell
    [num_ghost .. num_ghost + num_cells - 1] loses the right-going
    fluctuation of its left interface and the left-going one of its right
    interface, each times [dtdx].  At an order other than 2 that is the
    result.  At order 2 with [fwave] off, and limiters that keep the shape
    of [wave], the correction fluxes are computed and every physical cell
    loses [dtdx[n] * (f[m,n+1] - f[m,n])] as well. *)
Theorem step_hyperbolic_1d_python_in_bounds
    (num_eqn num_ghost num_cells order : Z) (limiter : list Z)
    (dtdx : list F) (wave : list (list (list F)))
    (s amdq apdq q : list (list F)) :
  kernel_1d_shapes num_eqn num_ghost num_cells dtdx wave s amdq apdq q →
  2 ≤ num_ghost →
  let LL := num_ghost - 1 in
  let UL := num_ghost + num_cells + 1 in
  ∃ q1 cfl,
    godunov_update dtdx apdq amdq num_eqn LL UL q = Ok q1 ∧
    compute_max_wave_speed wave dtdx s LL UL = Ok cfl ∧
    (∀ m n x, 0 ≤ m < num_eqn → num_ghost ≤ n < num_ghost + num_cells →
       lookup2 q m n = Some x →
       lookup2 q1 m n
       = Some (x - get dtdx n * get (row_of apdq m) (n - 1)
                 - get dtdx n * get (row_of amdq m) n)%flt) ∧
    (order ≠ 2 →
     ∀ fwave,
       step_hyperbolic_1d_python limit num_eqn num_ghost num_cells order
         limiter fwave dtdx wave s amdq apdq q = Ok (q1, cfl)) ∧
    (order = 2 →
     ∀ wave',
       (if existsb (Z.ltb 0) limiter
        then limit num_eqn wave s limiter dtdx else Ok wave) = Ok wave' →
       kernel_1d_shapes num_eqn num_ghost num_cells dtdx wave' s amdq apdq q →
       ∃ f q2,
         compute_correction_fluxes wave' s dtdx num_eqn num_ghost num_cells
           LL UL false = Ok f ∧
         correction_update dtdx f num_eqn LL UL q1 = Ok q2 ∧
         step_hyperbolic_1d_python limit num_eqn num_ghost num_cells order
           limiter false dtdx wave s amdq apdq q = Ok (q2, cfl) ∧
         (∀ m n x, 0 ≤ m < num_eqn → num_ghost ≤ n < num_ghost + num_cells →
            lookup2 q1 m n = Some x →
            lookup2 q2 m n
            = Some (x - get dtdx n
                        * (get (row_of f m) (n + 1) - get (row_of f m) n))%flt)).
Proof.
  intros Hshapes Hg LL UL.
  pose proof (kernel_1d_godunov_shapes _ _ _ _ _ _ _ _ _ Hshapes Hg) as Hgod.
  pose proof (kernel_1d_cfl_shapes _ _ _ _ _ _ _ _ _ Hshapes Hg) as Hcfl.
  fold LL UL in Hgod, Hcfl.
  pose proof (godunov_update_compiled_rows _ _ _ _ _ _ _ Hgod) as Hrun1.
  pose proof (compute_max_wave_speed_compiled_run _ _ _ _ _ Hcfl) as Hrun2.
  set (q1 := godunov_rows dtdx apdq amdq num_eqn LL UL q) in *.
  set (cfl := (cfl_run (shape1 wave) dtdx s LL UL).1.1) in *.
  exists q1, cfl.
  split; [exact Hrun1|]. split; [exact Hrun2|]. split; [|split].
  - intros m n x Hm Hn Hx. unfold q1.
    rewrite lookup2_godunov_rows, Hx. simpl.
    rewrite bool_decide_eq_true_2 by lia. unfold godunov_cell.
    by rewrite !bool_decide_eq_true_2 by (unfold LL, UL; lia).
  - intros Horder fwave. unfold step_hyperbolic_1d_python.
    fold LL UL. unfold godunov_update, compute_max_wave_speed.
    cbn [use_cython]. cbv iota.
    rewrite Hrun1, result_bind_ok, Hrun2, result_bind_ok.
    by rewrite bool_decide_eq_false_2 by done.
  - intros Horder wave' Hlim Hshapes'.
    pose proof (kernel_1d_correction_shapes _ _ _ _ _ _ _ _ _ Hshapes' Hg)
      as Hcorr.
    fold LL UL in Hcorr.
    pose proof (compute_correction_fluxes_on_off strict_store _ _ _ _ _ _ _ _
                  Hcorr) as Hrun3.
    set (f := correction_fluxes (wave_correction wave' s dtdx) (shape1 wave')
                num_eqn (num_cells + 2 * num_ghost) LL UL) in *.
    destruct Hshapes as (Hine & Hne & Hnc & Hng & Hic & Hd & Hq & Hqr & _).
    unfold int_range in *.
    destruct (correction_fluxes_cells (wave_correction wave' s dtdx)
                (shape1 wave') num_eqn (num_cells + 2 * num_ghost) LL UL)
      as (Hlf & Hfr & _); [lia..|]. fold f in Hlf, Hfr.
    assert (correction_update dtdx f num_eqn LL UL q1
            = Ok (correction_rows dtdx f num_eqn LL UL q1)) as Hrun4.
    { apply correction_update_rows; unfold LL, UL; try lia.
      - unfold q1, godunov_rows. rewrite length_imap. lia.
      - apply (godunov_rows_lengths
                 (λ l, num_ghost + num_cells + 1 - 1 ≤ l)).
        eapply Forall_impl; [exact Hqr|]. simpl. intros; lia.
      - eapply Forall_impl; [exact Hfr|]. simpl. intros; lia. }
    assert (compute_correction_fluxes wave' s dtdx num_eqn num_ghost
              num_cells LL UL false = Ok f) as Hrun3'.
    { unfold compute_correction_fluxes. cbn [use_cython]. cbv iota.
      unfold compute_correction_fluxes_compiled. by rewrite Hrun3. }
    exists f, (correction_rows dtdx f num_eqn LL UL q1).
    split; [exact Hrun3'|]. split; [exact Hrun4|]. split.
    + unfold step_hyperbolic_1d_python. fold LL UL.
      unfold godunov_update, compute_max_wave_speed.
      cbn [use_cython]. cbv iota.
      rewrite Hrun1, result_bind_ok, Hrun2, result_bind_ok.
      rewrite bool_decide_eq_true_2 by done.
      rewrite Hlim, result_bind_ok, Hrun3', result_bind_ok.
      by rewrite Hrun4.
    + intros m n x Hm Hn Hx. rewrite lookup2_correction_rows, Hx. simpl.
      rewrite bool_decide_eq_true_2 by lia. unfold correction_cell.
      by rewrite bool_decide_eq_true_2 by (unfold LL, UL; lia).
Qed.

(** At order 2 with [fwave] set, on arrays of the sizes of
    [kernel_1d_shapes], every step of the Python kernel stores outside an
    array: the first-order update and the CFL number are computed inside
    the arrays, and then the compiled correction fluxes store [ssign] at
    index [max(num_ghost - 1, num_cells + 2)], outside its [num_cells + 2]
    cells.  With bounds checking off nothing stops the program there; what
    it does from that store on is outside the model. *)
Theorem step_hyperbolic_1d_python_fwave
    (num_eqn num_ghost num_cells : Z) (limiter : list Z)
    (dtdx : list F) (wave wave' : list (list (list F)))
    (s amdq apdq q : list (list F)) :
  kernel_1d_shapes num_eqn num_ghost num_cells dtdx wave s amdq apdq q →
  2 ≤ num_ghost →
  (if existsb (Z.ltb 0) limiter
   then limit num_eqn wave s limiter dtdx else Ok wave) = Ok wave' →
  kernel_1d_shapes num_eqn num_ghost num_cells dtdx wave' s amdq apdq q →
  step_hyperbolic_1d_python limit num_eqn num_ghost num_cells 2 limiter true
    dtdx wave s amdq apdq q
  = Fault (OutOfBounds "ssign" (Z.max (num_ghost - 1) (num_cells + 2))).
Proof.
  intros Hshapes Hg Hlim Hshapes'.
  pose proof (kernel_1d_godunov_shapes _ _ _ _ _ _ _ _ _ Hshapes Hg) as Hgod.
  pose proof (kernel_1d_cfl_shapes _ _ _ _ _ _ _ _ _ Hshapes Hg) as Hcfl.
  pose proof (kernel_1d_correction_shapes _ _ _ _ _ _ _ _ _ Hshapes' Hg)
    as Hcorr.
  destruct Hshapes' as (_ & _ & Hnc & _ & _ & _ & _ & _ & _ & _ & _ & _ & Hnw
                        & _).
  unfold step_hyperbolic_1d_python.
  unfold godunov_update, compute_max_wave_speed, compute_correction_fluxes.
  cbn [use_cython]. cbv iota.
  rewrite (godunov_update_compiled_rows _ _ _ _ _ _ _ Hgod), result_bind_ok.
  rewrite (compute_max_wave_speed_compiled_run _ _ _ _ _ Hcfl).
  rewrite result_bind_ok.
  rewrite bool_decide_eq_true_2 by done. rewrite Hlim, result_bind_ok.
  rewrite compute_correction_fluxes_compiled_fwave by (done || lia).
  simpl. do 3 f_equal. lia.
Qed.

(** With a single ghost cell the first interface is [LL = 0], and the
    compiled first-order update reads [apdq[m, n - 1]] at the unsigned index
    [2^32 - 1], outside the array. *)
Theorem step_hyperbolic_1d_python_one_ghost_cell
    (num_eqn num_cells order : Z) (limiter : list Z) (fwave : bool)
    (dtdx : list F) (wave : list (list (list F)))
    (s amdq apdq q : list (list F)) :
  kernel_1d_shapes num_eqn 1 num_cells dtdx wave s amdq apdq q →
  1 ≤ num_eqn →
  step_hyperbolic_1d_python limit num_eqn 1 num_cells order limiter fwave
    dtdx wave s amdq apdq q
  = Fault (OutOfBounds "apdq" (2 ^ 32 - 1)).
Proof.
  intros (Hine & Hne & Hnc & Hng & Hic & Hd & Hq & Hqr & Hap & Hapr & _) Hne1.
  unfold int_range in *.
  unfold step_hyperbolic_1d_python, godunov_update.
  cbn [use_cython]. cbv iota.
  replace (1 - 1) with 0 by lia.
  rewrite godunov_update_compiled_first_interface; [done|lia..|].
  rewrite Forall_forall in Hapr.
  rewrite (Hapr (row_of apdq 0)); [lia|].
  pose proof (row_of_lookup apdq 0 ltac:(lia)) as [_ Hl]%lookupZ_Some.
  by eapply list_elem_of_lookup_2.
Qed.

End Step.

End Python_kernel_results.

Section Correction_conservation.
Context {F : Type} `{RingLaws F}.

Add Ring F_ring_correction : (f_ring (F := F)).

Lemma sum_over_sub_scaled (x d : Z → F) (c : F) (a b : Z) :
  a ≤ b →
  sum_over (λ j, x j - c * d j)%flt a b
  = (sum_over x a b - c * sum_over d a b)%flt.
Proof.
  intros Hab.
  assert (∀ k : nat,
    sum_over (λ j, x j - c * d j)%flt a (a + Z.of_nat k)
    = (sum_over x a (a + Z.of_nat k)
       - c * sum_over d a (a + Z.of_nat k))%flt) as Hk.
  { induction k as [|k IH].
    - replace (a + Z.of_nat 0) with a by lia.
      rewrite !sum_over_empty by lia. ring.
    - replace (a + Z.of_nat (S k)) with (a + Z.of_nat k + 1) by lia.
      rewrite !sum_over_snoc by lia. rewrite IH. ring. }
  specialize (Hk (Z.to_nat (b - a))).
  by replace (a + Z.of_nat (Z.to_nat (b - a))) with b in Hk by lia.
Qed.

Lemma row_of_correction_rows (dtdx : list F) (f : list (list F))
    (num_eqn LL UL : Z) (q : list (list F)) (m : Z) :
  0 ≤ m < num_eqn → m < Z.of_nat (length q) →
  row_of (correction_rows dtdx f num_eqn LL UL q) m
  = imap (λ j, correction_cell dtdx (row_of f m) LL UL (Z.of_nat j))
      (row_of q m).
Proof.
  intros Hm Hlen. unfold row_of at 1 3, lookupZ.
  rewrite bool_decide_eq_true_2 by lia.
  rewrite lookup_correction_rows.
  destruct (lookup_lt_is_Some_2 q (Z.to_nat m)) as [row ->]; [lia|].
  simpl. rewrite Z2Nat.id by lia.
  by rewrite bool_decide_eq_true_2 by lia.
Qed.

(** For [dtdx] equal to [c] on the cells [LL .. UL-2], the update by the
    differences of the correction fluxes changes the sum of row [m] of [q]
    over these cells by [- c * (f[m,UL-1] - f[m,LL])]: the differences
    telescope, and the sum is unchanged when the correction fluxes at the
    two ends agree. *)
Theorem correction_update_conservation (dtdx : list F) (f : list (list F))
    (num_eqn LL UL : Z) (q : list (list F)) (c : F) (m : Z) :
  0 ≤ LL < UL → UL - 1 ≤ Z.of_nat (length dtdx) →
  0 ≤ num_eqn ≤ Z.of_nat (length q) → num_eqn ≤ Z.of_nat (length f) →
  Forall (λ row, UL - 1 ≤ Z.of_nat (length row)) q →
  Forall (λ row, UL ≤ Z.of_nat (length row)) f →
  (∀ n, LL ≤ n < UL - 1 → get dtdx n = c) →
  0 ≤ m < num_eqn →
  ∃ q',
    correction_update dtdx f num_eqn LL UL q = Ok q' ∧
    sum_cells (row_of q' m) LL (UL - 1)
    = (sum_cells (row_of q m) LL (UL - 1)
       - c * (get (row_of f m) (UL - 1) - get (row_of f m) LL))%flt ∧
    (get (row_of f m) (UL - 1) = get (row_of f m) LL →
     sum_cells (row_of q' m) LL (UL - 1) = sum_cells (row_of q m) LL (UL - 1)).
Proof.
  intros HLL Hd Hq Hf Hqr Hfr Hc Hm.
  exists (correction_rows dtdx f num_eqn LL UL q).
  split; [by apply correction_update_rows|].
  rewrite row_of_correction_rows by lia.
  set (row := row_of q m). set (frow := row_of f m).
  assert (UL - 1 ≤ Z.of_nat (length row)) as Hlen.
  { rewrite Forall_forall in Hqr. apply Hqr.
    pose proof (row_of_lookup q m ltac:(lia)) as Hl.
    apply lookupZ_Some in Hl as [_ Hl]. by eapply list_elem_of_lookup_2. }
  assert (sum_cells
            (imap (λ j, correction_cell dtdx frow LL UL (Z.of_nat j)) row)
            LL (UL - 1)
          = (sum_cells row LL (UL - 1)
             - c * (get frow (UL - 1) - get frow LL))%flt) as Hsum.
  { unfold sum_cells.
    rewrite (sum_over_ext _
      (λ j, get row j - c * (get frow (j + 1) - get frow (j - 1 + 1)))%flt).
    2:{ intros j Hj. replace (j - 1 + 1) with j by lia.
        rewrite (get_nat _ j), (get_nat row j) by lia.
        rewrite list_lookup_imap.
        destruct (lookup_lt_is_Some_2 row (Z.to_nat j)) as [x ->]; [lia|].
        simpl. rewrite Z2Nat.id by lia. unfold correction_cell.
        rewrite bool_decide_eq_true_2 by lia. by rewrite Hc by lia. }
    rewrite (sum_over_sub_scaled (get row)
               (λ j, get frow (j + 1) - get frow (j - 1 + 1))%flt) by lia.
    rewrite (sum_over_telescope (λ i, get frow (i + 1))) by lia.
    replace (UL - 1 - 1 + 1) with (UL - 1) by lia.
    by replace (LL - 1 + 1) with LL by lia. }
  split; [exact Hsum|]. intros Hends. rewrite Hsum, Hends. ring.
Qed.

End Correction_conservation.

Lemma correction_update_exact_witness :
  ∃ q',
    correction_update pulse_dtdx pulse_f 1 1 6 pulse_q = Ok q' ∧
    (∀ m n x, 0 ≤ m < 1 → 1 ≤ n < 6 - 1 → lookup2 pulse_q m n = Some x →
       lookup2 q' m n
       = Some (x - get pulse_dtdx n
                   * (get (row_of pulse_f m) (n + 1)
                      - get (row_of pulse_f m) n))%flt) ∧
    (∀ m n, ¬ (0 ≤ m < 1 ∧ 1 ≤ n < 6 - 1) →
       lookup2 q' m n = lookup2 pulse_q m n).
Proof.
  apply (correction_update_exact pulse_dtdx pulse_f 1 1 6 pulse_q);
    try (simpl; lia); repeat constructor; simpl; lia.
Defined.

(** The correction fluxes vanish at both ends of the range: the sum of the
    cells [1 .. 4] is unchanged. *)
Lemma correction_update_conservation_witness :
  ∃ q',
    correction_update pulse_dtdx pulse_f 1 1 6 pulse_q = Ok q' ∧
    sum_cells (row_of q' 0) 1 (6 - 1) = sum_cells (row_of pulse_q 0) 1 (6 - 1).
Proof.
  destruct (correction_update_conservation pulse_dtdx pulse_f 1 1 6 pulse_q
              (qc 1 2) 0) as (q' & Hrun & _ & Hsame);
    try (simpl; lia); try (repeat constructor; simpl; lia).
  - apply forall_range. repeat constructor.
  - exists q'. split; [exact Hrun|]. apply Hsame. reflexivity.
Defined.

Lemma ex_kernel_shapes :
  kernel_1d_shapes 1 2 1 ex_dtdx ex_wave ex_s ex_amdq ex_apdq ex_q.
Proof.
  unfold kernel_1d_shapes, int_range.
  repeat split; try (repeat constructor; simpl; lia); simpl; lia.
Defined.

Lemma ex_kernel_shapes_one_ghost :
  kernel_1d_shapes 1 1 3 ex_dtdx ex_wave ex_s ex_amdq ex_apdq ex_q.
Proof.
  unfold kernel_1d_shapes, int_range.
  repeat split; try (repeat constructor; simpl; lia); simpl; lia.
Defined.

(** One cell with two ghost cells on each side, at order 2 and without a
    limiter: the step is completed. *)
Lemma step_hyperbolic_1d_python_in_bounds_witness :
  ∃ q2 cfl,
    step_hyperbolic_1d_python demo_limit 1 2 1 2 [0] false
      ex_dtdx ex_wave ex_s ex_amdq ex_apdq ex_q = Ok (q2, cfl).
Proof.
  destruct (step_hyperbolic_1d_python_in_bounds demo_limit 1 2 1 2 [0]
              ex_dtdx ex_wave ex_s ex_amdq ex_apdq ex_q ex_kernel_shapes
              ltac:(lia)) as (q1 & cfl & _ & _ & _ & _ & Hsecond).
  destruct (Hsecond eq_refl ex_wave eq_refl ex_kernel_shapes)
    as (f & q2 & _ & _ & Hrun & _).
  by exists q2, cfl.
Defined.

Lemma step_hyperbolic_1d_python_fwave_witness :
  step_hyperbolic_1d_python demo_limit 1 2 1 2 [1] true
    ex_dtdx ex_wave ex_s ex_amdq ex_apdq ex_q
  = Fault (OutOfBounds "ssign" (Z.max (2 - 1) (1 + 2))).
Proof.
  apply (step_hyperbolic_1d_python_fwave demo_limit 1 2 1 [1]
           ex_dtdx ex_wave ex_wave).
  - exact ex_kernel_shapes.
  - lia.
  - reflexivity.
  - exact ex_kernel_shapes.
Defined.

Lemma step_hyperbolic_1d_python_one_ghost_cell_witness :
  step_hyperbolic_1d_python demo_limit 1 1 3 1 [0] false
    ex_dtdx ex_wave ex_s ex_amdq ex_apdq ex_q
  = Fault (OutOfBounds "apdq" (2 ^ 32 - 1)).
Proof.
  apply step_hyperbolic_1d_python_one_ghost_cell.
  - exact ex_kernel_shapes_one_ghost.
  - lia.
Defined.

(** ** The protocol of [ClawSolver.step] *)

Section Driver_protocol_results.
Context {F : Type} `{Float64 F} {Src Cfl Env : Type}.
Variable ext : collaborators F Src Cfl Env.

(** Running a computation of the driver up to its next call. *)
Ltac drive :=
  repeat (first [ rewrite run_bind | rewrite run_invoke
                | rewrite run_attr | rewrite run_ret ];
          cbv iota beta).

Lemma run_call_step_source (h : F) (w : world F Src Cfl Env) :
  run (call_step_source ext h) w
  = match step_source w with
    | Some routine =>
        match run_source ext routine w h with
        | Ok w' => Ok ((), w', [CallStepSource routine h])
        | Fault e => Fault e
        end
    | None => Fault (Raised "TypeError")
    end.
Proof.
  unfold call_step_source. rewrite run_bind, run_attr. cbv iota beta.
  destruct (step_source w) as [routine|].
  - rewrite run_invoke. by destruct (run_source ext routine w h).
  - done.
Qed.

(** A conditional call of the source-term routine makes at most one call,
    and no other. *)
Lemma run_optional_source (c : bool) (h : world F Src Cfl Env → F)
    (w w' : world F Src Cfl Env) (log : list (call F Src)) :
  run (if c then x ← attr h; call_step_source ext x else mret ()) w
  = Ok ((), w', log) →
  Forall is_source_call log ∧ (length log ≤ 1)%nat.
Proof.
  destruct c.
  - rewrite run_bind, run_attr. cbv iota beta. rewrite run_call_step_source.
    destruct (step_source w) as [routine|]; [|done].
    destruct (run_source ext routine w (h w)) as [w1|e]; [|done].
    intros [= <- <-]. simpl. split; [|lia]. by repeat constructor.
  - rewrite run_ret. intros [= <- <-]. split; [constructor | simpl; lia].
Qed.

(** Whenever [step] returns, it has called [get_dt] first, then reset the
    CFL tracker to 0, then taken the hyperbolic step exactly once; the only
    other calls are calls of the source-term routine, at most one before the
    hyperbolic step and at most two after it, and none after it when the
    step is rejected. *)
Theorem step_call_order (take_one_step : bool) (tstart tend : F)
    (w w2 : world F Src Cfl Env) (b : bool) (log : list (call F Src)) :
  run (step ext take_one_step tstart tend) w = Ok (b, w2, log) →
  ∃ pre post,
    log = CallGetDt :: CallSetGlobalMax f_zero :: pre
          ++ CallStepHyperbolic :: post ∧
    Forall is_source_call pre ∧ (length pre ≤ 1)%nat ∧
    Forall is_source_call post ∧ (length post ≤ 2)%nat ∧
    (b = false → post = []).
Proof.
  unfold step, step_to_hyperbolic. drive.
  destruct (get_dt ext w tstart tend take_one_step) as [wa|e]; [|done].
  drive.
  match goal with
  | |- context [run (if ?c then ?x else ?y) ?w'] =>
      destruct (run (if c then x else y) w') as [[[[] wc] pre]|e] eqn:Hpre;
        [|done]
  end.
  apply run_optional_source in Hpre as [Hpre Hlpre].
  drive.
  destruct (step_hyperbolic ext wc) as [wd|e]; [|done].
  drive. unfold step_after_hyperbolic. drive.
  destruct (cfl_max wd <=? get_cached_max ext (cfl wd))%flt.
  { drive. intros [= <- <- <-]. exists pre, [].
    rewrite ?app_nil_r. simpl. rewrite <- ?app_assoc. simpl.
    split; [done|]. split; [done|]. split; [done|].
    split; [constructor|]. split; [simpl; lia | done]. }
  drive.
  destruct (step_source wd) as [r|].
  - rewrite bool_decide_eq_true_2 by eauto. drive.
    match goal with
    | |- context [run (if ?c then ?x else ?y) ?w'] =>
        destruct (run (if c then x else y) w') as [[[[] we] post1]|e]
          eqn:Hpost1; [|done]
    end.
    apply run_optional_source in Hpost1 as [Hpost1 Hl1].
    drive.
    match goal with
    | |- context [run (if ?c then ?x else ?y) ?w'] =>
        destruct (run (if c then x else y) w') as [[[[] wf] post2]|e]
          eqn:Hpost2; [|done]
    end.
    apply run_optional_source in Hpost2 as [Hpost2 Hl2].
    drive. intros [= <- <- <-]. exists pre, (post1 ++ post2).
    rewrite ?app_nil_r. simpl. rewrite <- ?app_assoc. simpl.
    split; [done|]. split; [done|]. split; [done|].
    split; [by apply Forall_app|]. split; [rewrite length_app; lia | done].
  - rewrite (bool_decide_eq_false_2 (is_Some None))
      by (intros [? ?]; done).
    drive. intros [= <- <- <-]. exists pre, [].
    rewrite ?app_nil_r. simpl. rewrite <- ?app_assoc. simpl.
    split; [done|]. split; [done|]. split; [done|].
    split; [constructor|]. split; [simpl; lia | done].
Qed.

(** With a splitting mode other than 1 and 2 the source-term routine is
    never called, set or not: the step is [get_dt], the reset of the CFL
    tracker and the hyperbolic step. *)
Theorem step_other_split_no_source (take_one_step : bool) (tstart tend : F)
    (w wa : world F Src Cfl Env) :
  get_dt ext w tstart tend take_one_step = Ok wa →
  keeps_config (step_hyperbolic ext) →
  source_split wa ≠ 1 → source_split wa ≠ 2 →
  ∀ b w2 log,
    run (step ext take_one_step tstart tend) w = Ok (b, w2, log) →
    log = [CallGetDt; CallSetGlobalMax f_zero; CallStepHyperbolic] ∧
    source_calls log = [].
Proof.
  intros Hdt Hhyp Hone Htwo b w2 log.
  unfold step, step_to_hyperbolic. drive. rewrite Hdt. drive.
  cbn [source_split step_source dt cfl_max cfl env].
  set (wb := World _ _ _ _ _ _).
  assert (source_split wb = source_split wa ∧ step_source wb = step_source wa
          ∧ dt wb = dt wa) as (Hb1 & Hb2 & Hb3) by done.
  rewrite (bool_decide_eq_false_2 (source_split wa = 2)) by done.
  cbn [andb]. drive.
  destruct (step_hyperbolic ext wb) as [wd|e] eqn:Hd; [|done].
  destruct (Hhyp wb wd Hd) as (Hd1 & Hd2 & Hd3).
  drive. unfold step_after_hyperbolic. drive.
  destruct (cfl_max wd <=? get_cached_max ext (cfl wd))%flt.
  { drive. by intros [= <- <- <-]. }
  drive.
  destruct (bool_decide (is_Some (step_source wd))).
  - drive. rewrite Hd1, Hb1.
    rewrite (bool_decide_eq_false_2 (source_split wa = 2)) by done.
    drive. rewrite Hd1, Hb1.
    rewrite (bool_decide_eq_false_2 (source_split wa = 1)) by done.
    drive. by intros [= <- <- <-].
  - drive. by intros [= <- <- <-].
Qed.

(** With the [step_hyperbolic] of the generic class, which only raises,
    [step] never returns; when [get_dt] returns and no source-term call
    precedes the hyperbolic step, it raises the exception of the dummy
    routine. *)
Theorem step_needs_override (take_one_step : bool) (tstart tend : F)
    (w : world F Src Cfl Env) :
  (∀ w', step_hyperbolic ext w' = step_hyperbolic_dummy w') →
  (∃ e, run (step ext take_one_step tstart tend) w = Fault e) ∧
  (∀ wa, get_dt ext w tstart tend take_one_step = Ok wa →
     source_split wa ≠ 2 ∨ step_source wa = None →
     run (step ext take_one_step tstart tend) w
     = Fault (Raised "Exception")).
Proof.
  intros Hdummy.
  destruct (get_dt ext w tstart tend take_one_step) as [wa|e] eqn:Hdt.
  2:{ split; [exists e | by intros wa' [=]].
      unfold step, step_to_hyperbolic. drive. by rewrite Hdt. }
  split.
  - unfold step, step_to_hyperbolic. drive. rewrite Hdt. drive.
    match goal with
    | |- context [run (if ?c then ?x else ?y) ?w'] =>
        destruct (run (if c then x else y) w') as [[[[] wc] pre]|e];
          [|by eauto]
    end.
    drive. rewrite Hdummy. by eauto.
  - intros wa' [= <-] Hno.
    unfold step, step_to_hyperbolic. drive. rewrite Hdt. drive.
    cbn [source_split step_source dt cfl_max cfl env].
    assert (bool_decide (source_split wa = 2)
            && bool_decide (is_Some (step_source wa)) = false) as ->.
    { destruct Hno as [Hsplit| ->].
      - by rewrite bool_decide_eq_false_2 by done.
      - rewrite (bool_decide_eq_false_2 (is_Some None))
          by (intros [? ?]; done).
        apply andb_false_r. }
    drive. by rewrite Hdummy.
Qed.

End Driver_protocol_results.

(** A rejected step under Strang splitting: one call of the routine before
    the hyperbolic step, none after it. *)
Lemma step_call_order_witness :
  ∃ pre post,
    [CallGetDt; CallSetGlobalMax (qc 0 1);
     CallStepSource () (qc 1 10 / f_two)%flt; CallStepHyperbolic]
    = CallGetDt :: CallSetGlobalMax f_zero :: pre
      ++ CallStepHyperbolic :: post ∧
    Forall is_source_call pre ∧ (length pre ≤ 1)%nat ∧
    Forall is_source_call post ∧ (length post ≤ 2)%nat ∧
    (false = false → post = []).
Proof.
  apply (step_call_order demo_ext true (qc 0 1) (qc 1 1)
           (demo_world 2 (Some ()) (qc 3 2))
           (World 2 (Some ()) (qc 1 1) (qc 1 10) (qc 3 2) (qc 3 2))).
  vm_compute. reflexivity.
Defined.

(** Splitting mode 0 with a routine set: the routine is not called. *)
Lemma step_other_split_no_source_witness :
  ∃ w2 log,
    run (step demo_ext true (qc 0 1) (qc 1 1))
        (demo_world 0 (Some ()) (qc 1 2)) = Ok (true, w2, log) ∧
    source_calls log = [].
Proof.
  assert (∃ w2 log,
    run (step demo_ext true (qc 0 1) (qc 1 1))
        (demo_world 0 (Some ()) (qc 1 2)) = Ok (true, w2, log))
    as (w2 & log & Hrun) by (vm_compute; eauto).
  exists w2, log. split; [exact Hrun|].
  assert (get_dt demo_ext (demo_world 0 (Some ()) (qc 1 2))
            (qc 0 1) (qc 1 1) true
          = Ok (World 0 (Some ()) (qc 1 1) (qc 1 10) (qc 0 1) (qc 1 2)))
    as Hdt by reflexivity.
  by destruct (step_other_split_no_source demo_ext true (qc 0 1) (qc 1 1) _ _
                 Hdt demo_keeps_config_hyperbolic ltac:(simpl; lia)
                 ltac:(simpl; lia) true w2 log Hrun) as [_ Hcalls].
Defined.

Lemma step_needs_override_witness :
  run (step dummy_ext true (qc 0 1) (qc 1 1))
      (demo_world 1 (Some ()) (qc 1 2))
  = Fault (Raised "Exception").
Proof.
  destruct (step_needs_override dummy_ext true (qc 0 1) (qc 1 1)
              (demo_world 1 (Some ()) (qc 1 2)) (λ w', eq_refl))
    as [_ Hraise].
  apply (Hraise _ eq_refl). left. simpl. lia.
Defined.

(** ** Methods that configure the solver *)

Section Set_method_results.
Variable np_int : Z → bool.

(** Whenever [_set_method] returns, each of the seven cells of [_method]
    left by [np.empty] has been given a value: the flag [dt_variable], the
    order, the transverse mode (0 in one dimension, -1 with dimensional
    splitting, [transverse_waves] otherwise), the verbosity, 0,
    [index_capa + 1] and [num_aux].  In one dimension it does not read
    [dimensional_split] or [transverse_waves], which the solver lacks, and
    with dimensional splitting it does not read [transverse_waves]. *)
Theorem set_method_fills (dt_variable : bool) (order num_dim : Z)
    (dimensional_split : option bool) (transverse_waves : option Z)
    (verbosity index_capa num_aux : Z) (old new : list (option Z))
    (log : list Empty_set) :
  run_method (_set_method np_int dt_variable order num_dim dimensional_split
                transverse_waves verbosity index_capa num_aux) old
  = (log, new, Ok ()) →
  ∃ mode,
    new = [Some (if dt_variable then 1 else 0); Some order; Some mode;
           Some verbosity; Some 0; Some (index_capa + 1); Some num_aux] ∧
    (num_dim = 1 → mode = 0) ∧
    (num_dim ≠ 1 → dimensional_split = Some true → mode = -1) ∧
    (num_dim ≠ 1 → dimensional_split = Some false →
     transverse_waves = Some mode).
Proof.
  unfold _set_method, method_store.
  destruct (np_int (if dt_variable then 1 else 0)); [|done].
  destruct (np_int order); [|done].
  destruct (np_int verbosity) eqn:Hv, (np_int 0) eqn:H0,
    (np_int (index_capa + 1)) eqn:Hc, (np_int num_aux) eqn:Ha.
  all: case_bool_decide as Hdim;
    [ intros; simplify_eq/=; try (by exists 0) |].
  all: destruct dimensional_split as [[]|]; [| |done].
  all: try (destruct (np_int (-1)) eqn:Hm; intros; simplify_eq/=;
            by exists (-1)).
  all: destruct transverse_waves as [tw|]; [|done].
  all: simpl; destruct (np_int tw) eqn:Htw; intros; simplify_eq/=;
    by exists tw.
Qed.

(** In one dimension, with values that fit the cells, [_set_method] returns
    whatever [dimensional_split] and [transverse_waves] are, set or not. *)
Theorem set_method_one_dimension (dt_variable : bool) (order : Z)
    (dimensional_split : option bool) (transverse_waves : option Z)
    (verbosity index_capa num_aux : Z) (old : list (option Z)) :
  np_int 0 = true → np_int 1 = true → np_int order = true →
  np_int verbosity = true → np_int (index_capa + 1) = true →
  np_int num_aux = true →
  run_method (_set_method np_int dt_variable order 1 dimensional_split
                transverse_waves verbosity index_capa num_aux) old
  = ([], [Some (if dt_variable then 1 else 0); Some order; Some 0;
          Some verbosity; Some 0; Some (index_capa + 1); Some num_aux],
     Ok ()).
Proof.
  intros H0 H1 Ho Hv Hc Ha. unfold _set_method, method_store.
  assert (np_int (if dt_variable then 1 else 0) = true) as ->
    by (by destruct dt_variable).
  rewrite Ho, Hv, H0, Hc, Ha. by rewrite bool_decide_eq_true_2 by done.
Qed.

End Set_method_results.

(** An unsplit solver for two dimensions with transverse corrections and no
    capacity function. *)
Lemma set_method_fills_witness :
  ∃ mode,
    [Some 1; Some 2; Some 2; Some 0; Some 0; Some 0; Some 0]
    = [Some 1; Some 2; Some mode; Some 0; Some 0; Some (-1 + 1); Some 0] ∧
    (2 = 1 → mode = 0) ∧
    (2 ≠ 1 → Some false = Some true → mode = -1) ∧
    (2 ≠ 1 → Some false = Some false → Some 2 = Some mode).
Proof.
  apply (set_method_fills np_int64 true 2 2 (Some false) (Some 2) 0 (-1) 0
           [] _ []).
  vm_compute. reflexivity.
Defined.

(** A solver for one dimension, which has neither of the two attributes. *)
Lemma set_method_one_dimension_witness :
  run_method (_set_method np_int64 false 2 1 None None 0 (-1) 0) []
  = ([], [Some 0; Some 2; Some 0; Some 0; Some 0; Some (-1 + 1); Some 0],
     Ok ()).
Proof.
  apply (set_method_one_dimension np_int64 false 2 None None 0 (-1) 0 []);
    reflexivity.
Defined.

Section Method_runs.
Context {St Ev : Type}.
Implicit Types (s : St) (log : list Ev).

Lemma run_method_bind {A B : Type} (m : method St Ev A)
    (k : A → method St Ev B) s :
  run_method (m ≫= k) s
  = let '(log1, s1, r) := run_method m s in
    match r with
    | Ok a => let '(log2, s2, r2) := run_method (k a) s1 in
              (log1 ++ log2, s2, r2)
    | Fault e => (log1, s1, Fault e)
    end.
Proof. done. Qed.

Lemma run_method_do (c : Ev) (body : St → result St) s s' :
  body s = Ok s' → run_method (method_do c body) s = ([c], s', Ok ()).
Proof. intros Hb. unfold method_do, method_call. simpl. by rewrite Hb. Qed.

Lemma run_method_call {A : Type} (c : Ev) (body : St → result (A * St)) s s'
    (a : A) :
  body s = Ok (a, s') → run_method (method_call c body) s = ([c], s', Ok a).
Proof. intros Hb. unfold method_call. simpl. by rewrite Hb. Qed.

Lemma run_method_bind_ok {A B : Type} (m : method St Ev A)
    (k : A → method St Ev B) s log s' (b : B) :
  run_method (m ≫= k) s = (log, s', Ok b) →
  ∃ log1 s1 a log2,
    run_method m s = (log1, s1, Ok a) ∧
    run_method (k a) s1 = (log2, s', Ok b) ∧ log = log1 ++ log2.
Proof.
  rewrite run_method_bind.
  destruct (run_method m s) as [[log1 s1] [a|e]]; [|done].
  destruct (run_method (k a) s1) as [[log2 s2] r] eqn:Hk.
  intros [= <- <- ->]. by exists log1, s1, a, log2.
Qed.

Lemma run_method_do_ok (c : Ev) (body : St → result St) s s' log (u : ()) :
  run_method (method_do c body) s = (log, s', Ok u) →
  log = [c] ∧ body s = Ok s'.
Proof.
  unfold method_do, method_call. simpl.
  by destruct (body s) as [s''|e]; simpl; intros [= <- <-].
Qed.

Lemma run_method_call_ok {A : Type} (c : Ev) (body : St → result (A * St))
    s s' log (a : A) :
  run_method (method_call c body) s = (log, s', Ok a) →
  log = [c] ∧ body s = Ok (a, s').
Proof.
  unfold method_call. simpl.
  by destruct (body s) as [[a' s'']|e]; simpl; intros [= <- <- <-].
Qed.

Lemma run_method_attr_ok {A : Type} (field : St → A) s s' log (a : A) :
  run_method (method_attr field) s = (log, s', Ok a) →
  log = [] ∧ s' = s ∧ a = field s.
Proof. by intros [= <- <- <-]. Qed.

Lemma run_method_attr_opt_ok {A : Type} (field : St → option A) s s' log
    (a : A) :
  run_method (method_attr_opt field) s = (log, s', Ok a) →
  log = [] ∧ s' = s ∧ field s = Some a.
Proof.
  unfold method_attr_opt. simpl.
  by destruct (field s); intros [= <- <- <-].
Qed.

Lemma run_method_update_ok (f : St → St) s s' log (u : ()) :
  run_method (method_update (Ev:=Ev) f) s = (log, s', Ok u) →
  log = [] ∧ s' = f s.
Proof. by intros [= <- <-]. Qed.

Lemma run_method_ret_ok {A : Type} (a b : A) s s' log :
  run_method (mret a : method St Ev A) s = (log, s', Ok b) →
  log = [] ∧ s' = s ∧ b = a.
Proof. by intros [= <- <- <-]. Qed.

End Method_runs.

Ltac bind_inv H H1 :=
  apply run_method_bind_ok in H as (? & ? & ? & ? & H1 & H & ->).

Section Setup_results.
Context {F L Mod Env : Type}.
Variable ext : setup_collaborators F L Mod Env.

Implicit Types (s : solver L Mod Env) (log : list (setup_call F)).

Lemma set_mthlim_fault (limiters : value L) (num_waves : Z) (e : fault) :
  (_set_mthlim limiters num_waves).2 = Fault e → e = Raised "Exception".
Proof. unfold _set_mthlim. cbv zeta. by case_bool_decide; intros [=]. Qed.

Lemma run_set_mthlim s :
  run_method (set_mthlim_method (F:=F)) s
  = ([], with_mthlim s (PyList (_set_mthlim (solver_limiters s)
                                   (solver_num_waves s)).1),
     (_set_mthlim (solver_limiters s) (solver_num_waves s)).2).
Proof.
  unfold set_mthlim_method. simpl.
  by destruct (_set_mthlim (solver_limiters s) (solver_num_waves s)).
Qed.

(** [setup] of a solver for two or three dimensions whose kernel language is
    not ['Fortran'] raises [Exception] once the number of ghost cells is
    passed on and the CFL settings are checked: it imports nothing and
    allocates no work space and no boundary arrays, and the base class's
    [setup] does not run.  Attribute [_mthlim] is set by then. *)
Theorem setup_multi_d_needs_fortran (s s1 s2 : solver L Mod Env) :
  set_num_ghost ext (solver_num_ghost s) s = Ok s1 →
  _check_cfl_settings ext s1 = Ok s2 →
  solver_kernel_language s2 ≠ "Fortran" →
  1 < solver_num_dim s2 →
  run_method (setup ext) s
  = ([CallSetNumGhost (solver_num_ghost s); CallCheckCflSettings],
     with_mthlim s2 (PyList (_set_mthlim (solver_limiters s2)
                               (solver_num_waves s2)).1),
     Fault (Raised "Exception")).
Proof.
  intros Hng Hcfl Hlang Hdim. unfold setup.
  rewrite run_method_bind. simpl run_method at 1. cbv iota beta.
  rewrite run_method_bind, (run_method_do _ _ _ _ Hng).
  rewrite run_method_bind, (run_method_do _ _ _ _ Hcfl).
  rewrite run_method_bind, run_set_mthlim.
  pose proof (set_mthlim_fault (solver_limiters s2) (solver_num_waves s2))
    as Hfault.
  destruct (_set_mthlim (solver_limiters s2) (solver_num_waves s2))
    as [mthlim [[]|e]]; simpl in *.
  - rewrite bool_decide_eq_false_2 by done. simpl.
    by rewrite bool_decide_eq_true_2 by done.
  - by rewrite (Hfault e).
Qed.


(** Whenever [setup] returns, it has passed on the number of ghost cells
    and checked the CFL settings first, and allocated the boundary arrays
    and run the base class's [setup] last, in this order.  In between it
    has called nothing, or set the Fortran parameters and allocated the work
    space, after importing at most one module, named
    [clawpack.pyclaw.classic.classic] followed by a number. *)
Theorem setup_calls s log s' :
  run_method (setup ext) s = (log, s', Ok ()) →
  ∃ kernel_calls,
    log = [CallSetNumGhost (solver_num_ghost s); CallCheckCflSettings]
          ++ kernel_calls ++ [CallAllocateBcArrays; CallBaseSetup] ∧
    (kernel_calls = [] ∨
     kernel_calls = [CallSetFortranParameters; CallAllocateWorkspace] ∨
     ∃ num_dim : Z,
       kernel_calls
       = [CallImport ("clawpack.pyclaw.classic.classic" +:+ pretty num_dim);
          CallSetFortranParameters; CallAllocateWorkspace]).
Proof.
  intros Hrun. unfold setup in Hrun.
  bind_inv Hrun Hng. apply run_method_attr_ok in Hng as (-> & -> & ->).
  bind_inv Hrun Hng. apply run_method_do_ok in Hng as (-> & Hng).
  bind_inv Hrun Hcfl. apply run_method_do_ok in Hcfl as (-> & Hcfl).
  bind_inv Hrun Hlim. rewrite run_set_mthlim in Hlim.
  injection Hlim as <- <- _.
  bind_inv Hrun Hlang. apply run_method_attr_ok in Hlang as (-> & -> & ->).
  bind_inv Hrun Hkernel.
  bind_inv Hrun Hbc. apply run_method_do_ok in Hbc as (-> & Hbc).
  apply run_method_do_ok in Hrun as (-> & Hbase).
  simpl. case_bool_decide as Hfortran.
  - bind_inv Hkernel Hfmod. apply run_method_attr_ok in Hfmod as (-> & -> & ->).
    bind_inv Hkernel Himport.
    bind_inv Hkernel Hpar. apply run_method_do_ok in Hpar as (-> & Hpar).
    apply run_method_do_ok in Hkernel as (-> & Hwork).
    destruct (solver_fmod _) as [fmod|].
    + injection Himport as <- <- _.
      exists [CallSetFortranParameters; CallAllocateWorkspace]. eauto.
    + bind_inv Himport Hdim. apply run_method_attr_ok in Hdim as (-> & -> & ->).
      bind_inv Himport Hmod. apply run_method_call_ok in Hmod as (-> & Hmod).
      injection Himport as <- _.
      eexists [CallImport _; CallSetFortranParameters;
               CallAllocateWorkspace].
      eauto.
  - bind_inv Hkernel Hdim. apply run_method_attr_ok in Hdim as (-> & -> & ->).
    case_bool_decide; [done|]. injection Hkernel as <- _.
    exists []. eauto.
Qed.

Ltac not_in_log :=
  let Hin := fresh in
  intros Hin;
  repeat (apply elem_of_cons in Hin as [?|Hin]; [done|]);
  by apply elem_of_nil in Hin.

Ltac collaborator_cases H :=
  repeat match type of H with
         | context [?f ext ?x ≫= _] =>
             destruct (f ext x) as [?|?] eqn:?; simpl in H
         | context [match ?f ext ?a ?x with _ => _ end] =>
             destruct (f ext a x) as [[??]|?] eqn:?; simpl in H
         end.

(** With kernel language ['Fortran'] and limiters that [_set_mthlim]
    accepts, [setup] imports a module exactly when attribute [fmod] is
    [None] as the limiters are set.  The module then is
    [clawpack.pyclaw.classic.classic] followed by the number of dimensions
    in decimal, its import is the third call, and where [setup] returns, the
    module that the import gave is in [fmod] as [_set_fortran_parameters]
    runs.  With a module in [fmod], [setup] imports nothing. *)
Theorem setup_fortran_import s s1 s2 log s' (r : result ()) :
  set_num_ghost ext (solver_num_ghost s) s = Ok s1 →
  _check_cfl_settings ext s1 = Ok s2 →
  (_set_mthlim (solver_limiters s2) (solver_num_waves s2)).2 = Ok () →
  solver_kernel_language s2 = "Fortran" →
  run_method (setup ext) s = (log, s', r) →
  let s3 := with_mthlim s2 (PyList (_set_mthlim (solver_limiters s2)
                                      (solver_num_waves s2)).1) in
  let so_name :=
    "clawpack.pyclaw.classic.classic" +:+ pretty (solver_num_dim s2) in
  match solver_fmod s2 with
  | None =>
      (∃ rest, log = CallSetNumGhost (solver_num_ghost s)
                     :: CallCheckCflSettings :: CallImport so_name :: rest ∧
               ∀ name, CallImport name ∉ rest) ∧
      (r = Ok () →
       ∃ fmod s4 s5,
         import_module ext so_name s3 = Ok (fmod, s4) ∧
         _set_fortran_parameters ext (with_fmod s4 (Some fmod)) = Ok s5)
  | Some _ => ∀ name, CallImport name ∉ log
  end.
Proof.
  intros Hng Hcfl Hlim Hlang Hrun s3 so_name.
  unfold setup in Hrun.
  rewrite run_method_bind in Hrun. simpl run_method at 1 in Hrun.
  cbv iota beta in Hrun.
  rewrite run_method_bind, (run_method_do _ _ _ _ Hng) in Hrun.
  rewrite run_method_bind, (run_method_do _ _ _ _ Hcfl) in Hrun.
  rewrite run_method_bind, run_set_mthlim, Hlim in Hrun.
  rewrite !run_method_bind in Hrun. simpl in Hrun.
  rewrite bool_decide_eq_true_2 in Hrun by done. simpl in Hrun.
  destruct (solver_fmod s2) as [fmod|] eqn:Hfmod; simpl in Hrun.
  - collaborator_cases Hrun; simplify_eq/=; intros name; not_in_log.
  - fold s3 so_name in Hrun.
    collaborator_cases Hrun; simplify_eq/=;
      (split; [eexists; split; [done|intros name; not_in_log]|]);
      try done; eauto.
Qed.

(** A solver for one dimension whose kernel language is neither ['Fortran']
    nor ['Python'] passes [setup], which then calls nothing between the
    check of the CFL settings and the allocation of the boundary arrays; the
    language is only rejected by the first [step_hyperbolic], with
    [Exception], after the boundary conditions were applied and before the
    CFL tracker or the solution is touched. *)
Theorem unrecognized_language_passes_setup
    (s s1 s2 s3 s4 s5 : solver L Mod Env) :
  set_num_ghost ext (solver_num_ghost s) s = Ok s1 →
  _check_cfl_settings ext s1 = Ok s2 →
  (_set_mthlim (solver_limiters s2) (solver_num_waves s2)).2 = Ok () →
  solver_kernel_language s2 ≠ "Fortran" →
  solver_num_dim s2 ≤ 1 →
  _allocate_bc_arrays ext
    (with_mthlim s2 (PyList (_set_mthlim (solver_limiters s2)
                               (solver_num_waves s2)).1)) = Ok s3 →
  base_setup ext s3 = Ok s4 →
  _apply_bcs ext s4 = Ok s5 →
  solver_kernel_language s5 ≠ "Fortran" →
  solver_kernel_language s5 ≠ "Python" →
  run_method (setup ext) s
  = ([CallSetNumGhost (solver_num_ghost s); CallCheckCflSettings;
      CallAllocateBcArrays; CallBaseSetup], s4, Ok ()) ∧
  run_method (step_hyperbolic_1d ext) s4
  = ([CallApplyBcs], s5, Fault (Raised "Exception")).
Proof.
  intros Hng Hcfl Hlim Hlang Hdim Hbc Hbase Hbcs Hfortran Hpython. split.
  - unfold setup.
    rewrite run_method_bind. simpl run_method at 1. cbv iota beta.
    rewrite run_method_bind, (run_method_do _ _ _ _ Hng).
    rewrite run_method_bind, (run_method_do _ _ _ _ Hcfl).
    rewrite run_method_bind, run_set_mthlim, Hlim.
    rewrite !run_method_bind. simpl.
    rewrite bool_decide_eq_false_2 by done. simpl.
    rewrite bool_decide_eq_false_2 by lia. simpl.
    rewrite Hbc. simpl. by rewrite Hbase.
  - unfold step_hyperbolic_1d.
    rewrite run_method_bind, (run_method_do _ _ _ _ Hbcs).
    rewrite !run_method_bind. simpl.
    rewrite bool_decide_eq_false_2 by done.
    by rewrite bool_decide_eq_false_2 by done.
Qed.

(** Whenever [step_hyperbolic] of the solver for one dimension returns, it
    has applied the boundary conditions, run the kernel that the kernel
    language names at that point, given the CFL number of that kernel to
    [update_global_max], and copied [qbc] back with the number of ghost
    cells read before the kernel ran, in this order; it has copied [auxbc]
    back last exactly if [num_aux] is positive after that. *)
Theorem step_hyperbolic_1d_calls s log s' :
  run_method (step_hyperbolic_1d ext) s = (log, s', Ok ()) →
  ∃ s1 kernel cfl s2 s3 s4,
    _apply_bcs ext s = Ok s1 ∧
    (solver_kernel_language s1 = "Fortran" ∧ kernel = CallFortranKernel ∧
     fortran_kernel ext s1 = Ok (cfl, s2) ∨
     solver_kernel_language s1 = "Python" ∧ kernel = CallPythonKernel ∧
     python_kernel ext s1 = Ok (cfl, s2)) ∧
    update_global_max ext cfl s2 = Ok s3 ∧
    set_q_from_qbc ext (solver_num_ghost s1) s3 = Ok s4 ∧
    if bool_decide (0 < state_num_aux ext s4)
    then set_aux_from_auxbc ext (solver_num_ghost s1) s4 = Ok s' ∧
         log = [CallApplyBcs; kernel; CallUpdateGlobalMax cfl;
                CallSetQFromQbc (solver_num_ghost s1);
                CallSetAuxFromAuxbc (solver_num_ghost s1)]
    else s' = s4 ∧
         log = [CallApplyBcs; kernel; CallUpdateGlobalMax cfl;
                CallSetQFromQbc (solver_num_ghost s1)].
Proof.
  intros Hrun. unfold step_hyperbolic_1d in Hrun.
  apply run_method_bind_ok in Hrun as (? & s1 & ? & ? & Hbcs & Hrun & ->).
  apply run_method_do_ok in Hbcs as (-> & Hbcs).
  bind_inv Hrun Hng. apply run_method_attr_ok in Hng as (-> & -> & ->).
  bind_inv Hrun Hlang. apply run_method_attr_ok in Hlang as (-> & -> & ->).
  apply run_method_bind_ok in Hrun as (lk & s2 & cfl & ? & Hkernel & Hrun & ->).
  apply run_method_bind_ok in Hrun as (? & s3 & ? & ? & Hmax & Hrun & ->).
  apply run_method_do_ok in Hmax as (-> & Hmax).
  apply run_method_bind_ok in Hrun as (? & s4 & ? & ? & Hq & Hrun & ->).
  apply run_method_do_ok in Hq as (-> & Hq).
  bind_inv Hrun Haux. apply run_method_attr_ok in Haux as (-> & -> & ->).
  assert (∃ kernel,
    (solver_kernel_language s1 = "Fortran" ∧ kernel = CallFortranKernel ∧
     fortran_kernel ext s1 = Ok (cfl, s2) ∨
     solver_kernel_language s1 = "Python" ∧ kernel = CallPythonKernel ∧
     python_kernel ext s1 = Ok (cfl, s2)) ∧
    lk = [kernel]) as (kernel & Hk & ->).
  { destruct (decide (solver_kernel_language s1 = "Fortran")) as [Hf|Hf].
    { rewrite bool_decide_eq_true_2 in Hkernel by done.
      apply run_method_call_ok in Hkernel as (-> & Hkernel). eauto 10. }
    rewrite bool_decide_eq_false_2 in Hkernel by done.
    destruct (decide (solver_kernel_language s1 = "Python")) as [Hp|Hp].
    { rewrite bool_decide_eq_true_2 in Hkernel by done.
      apply run_method_call_ok in Hkernel as (-> & Hkernel). eauto 10. }
    by rewrite bool_decide_eq_false_2 in Hkernel by done. }
  exists s1, kernel, cfl, s2, s3, s4.
  repeat (split; [done|]).
  case_bool_decide.
  - by apply run_method_do_ok in Hrun as (-> & Hrun).
  - by injection Hrun as <- <-.
Qed.

End Setup_results.

(** A solver for two dimensions with the kernel language ['Python']. *)
Lemma setup_multi_d_needs_fortran_witness :
  run_method (setup quiet_ext) (quiet_solver 2 "Python" None)
  = ([CallSetNumGhost 2; CallCheckCflSettings],
     Solver 2 2 1 "Python" (Atom 4) (PyList [Atom 4]) None (),
     Fault (Raised "Exception")).
Proof.
  apply (setup_multi_d_needs_fortran quiet_ext (quiet_solver 2 "Python" None)
           (quiet_solver 2 "Python" None) (quiet_solver 2 "Python" None));
    [reflexivity | reflexivity | done | simpl; lia].
Defined.

(** The first [setup] of a Fortran solver for one dimension. *)
Lemma setup_calls_witness :
  ∃ kernel_calls,
    [CallSetNumGhost (F:=Qc) 2; CallCheckCflSettings;
     CallImport "clawpack.pyclaw.classic.classic1";
     CallSetFortranParameters; CallAllocateWorkspace;
     CallAllocateBcArrays; CallBaseSetup]
    = [CallSetNumGhost 2; CallCheckCflSettings]
      ++ kernel_calls ++ [CallAllocateBcArrays; CallBaseSetup] ∧
    (kernel_calls = [] ∨
     kernel_calls = [CallSetFortranParameters; CallAllocateWorkspace] ∨
     ∃ num_dim : Z,
       kernel_calls
       = [CallImport ("clawpack.pyclaw.classic.classic" +:+ pretty num_dim);
          CallSetFortranParameters; CallAllocateWorkspace]).
Proof.
  apply (setup_calls quiet_ext (quiet_solver 1 "Fortran" None) _
           (Solver 2 1 1 "Fortran" (Atom 4) (PyList [Atom 4]) (Some ()) ())).
  vm_compute. reflexivity.
Defined.

(** The first [setup] of a Fortran solver for two dimensions imports
    [classic2]. *)
Lemma setup_fortran_import_witness :
  (∃ rest,
     [CallSetNumGhost (F:=Qc) 2; CallCheckCflSettings;
      CallImport "clawpack.pyclaw.classic.classic2";
      CallSetFortranParameters; CallAllocateWorkspace;
      CallAllocateBcArrays; CallBaseSetup]
     = CallSetNumGhost 2 :: CallCheckCflSettings
       :: CallImport "clawpack.pyclaw.classic.classic2" :: rest ∧
     ∀ name, CallImport (F:=Qc) name ∉ rest) ∧
  (Ok () = Ok () →
   ∃ fmod s4 s5,
     import_module quiet_ext "clawpack.pyclaw.classic.classic2"
       (Solver 2 2 1 "Fortran" (Atom 4) (PyList [Atom 4]) None ())
     = Ok (fmod, s4) ∧
     _set_fortran_parameters quiet_ext (with_fmod s4 (Some fmod)) = Ok s5).
Proof.
  apply (setup_fortran_import quiet_ext (quiet_solver 2 "Fortran" None)
           (quiet_solver 2 "Fortran" None) (quiet_solver 2 "Fortran" None)
           _ (Solver 2 2 1 "Fortran" (Atom 4) (PyList [Atom 4]) (Some ()) ())
           (Ok ()));
    reflexivity.
Defined.

(** A solver for one dimension with the kernel language ['python']. *)
Lemma unrecognized_language_passes_setup_witness :
  run_method (setup quiet_ext) (quiet_solver 1 "python" None)
  = ([CallSetNumGhost 2; CallCheckCflSettings; CallAllocateBcArrays;
      CallBaseSetup],
     Solver 2 1 1 "python" (Atom 4) (PyList [Atom 4]) None (), Ok ()) ∧
  run_method (step_hyperbolic_1d quiet_ext)
    (Solver 2 1 1 "python" (Atom 4) (PyList [Atom 4]) None ())
  = ([CallApplyBcs],
     Solver 2 1 1 "python" (Atom 4) (PyList [Atom 4]) None (),
     Fault (Raised "Exception")).
Proof.
  apply (unrecognized_language_passes_setup quiet_ext
           (quiet_solver 1 "python" None) (quiet_solver 1 "python" None)
           (quiet_solver 1 "python" None)
           (Solver 2 1 1 "python" (Atom 4) (PyList [Atom 4]) None ())
           (Solver 2 1 1 "python" (Atom 4) (PyList [Atom 4]) None ())
           (Solver 2 1 1 "python" (Atom 4) (PyList [Atom 4]) None ()));
    try reflexivity; try done; simpl; lia.
Defined.

(** A step of the kernel in Python without auxiliary arrays. *)
Lemma step_hyperbolic_1d_calls_witness :
  ∃ s1 kernel cfl s2 s3 s4,
    _apply_bcs quiet_ext (quiet_solver 1 "Python" None) = Ok s1 ∧
    (solver_kernel_language s1 = "Fortran" ∧ kernel = CallFortranKernel ∧
     fortran_kernel quiet_ext s1 = Ok (cfl, s2) ∨
     solver_kernel_language s1 = "Python" ∧ kernel = CallPythonKernel ∧
     python_kernel quiet_ext s1 = Ok (cfl, s2)) ∧
    update_global_max quiet_ext cfl s2 = Ok s3 ∧
    set_q_from_qbc quiet_ext (solver_num_ghost s1) s3 = Ok s4 ∧
    if bool_decide (0 < state_num_aux quiet_ext s4)
    then set_aux_from_auxbc quiet_ext (solver_num_ghost s1) s4
         = Ok (quiet_solver 1 "Python" None) ∧
         [CallApplyBcs; CallPythonKernel; CallUpdateGlobalMax (qc 1 2);
          CallSetQFromQbc 2]
         = [CallApplyBcs; kernel; CallUpdateGlobalMax cfl;
            CallSetQFromQbc (solver_num_ghost s1);
            CallSetAuxFromAuxbc (solver_num_ghost s1)]
    else quiet_solver 1 "Python" None = s4 ∧
         [CallApplyBcs; CallPythonKernel; CallUpdateGlobalMax (qc 1 2);
          CallSetQFromQbc 2]
         = [CallApplyBcs; kernel; CallUpdateGlobalMax cfl;
            CallSetQFromQbc (solver_num_ghost s1)].
Proof.
  apply (step_hyperbolic_1d_calls quiet_ext (quiet_solver 1 "Python" None)).
  vm_compute. reflexivity.
Defined.

Section Hyperbolic_step_multi_d_results.
Context {F : Type} `{OrderLaws F}.
Context {Arr Ptr Env : Type}.
Variable ext : md_collaborators F Arr Ptr Env.

Implicit Types (s : solver_md Arr Ptr Env) (log : list (md_call F Arr Ptr)).

Ltac md_attrs_simpl H :=
  unfold with_qbc in H;
  cbn [md_kernel_language md_dimensional_split md_transverse_waves
       md_num_ghost md_qbc md_rpn md_rpt md_rptt md_env] in H.

(** The state after a call has the attributes of the state before it. *)
Ltac md_frame_of Hframe H :=
  let Hf := fresh "Hf" in
  first
    [ pose proof (frame_apply_bcs _ Hframe _ _ H) as Hf
    | pose proof (frame_copy _ Hframe _ _ _ _ H) as Hf
    | pose proof (frame_step2ds _ Hframe _ _ _ _ _ _ _ _ H) as Hf
    | pose proof (frame_step2 _ Hframe _ _ _ _ _ _ _ H) as Hf
    | pose proof (frame_step3ds _ Hframe _ _ _ _ _ _ _ _ _ H) as Hf
    | pose proof (frame_step3 _ Hframe _ _ _ _ _ _ _ _ H) as Hf
    | pose proof (frame_update_global_max _ Hframe _ _ _ H) as Hf
    | pose proof (frame_set_q_from_qbc _ Hframe _ _ _ _ H) as Hf
    | pose proof (frame_set_aux_from_auxbc _ Hframe _ _ _ H) as Hf ];
  match type of Hf with
  | md_attrs ?s' = _ =>
      destruct s'; unfold md_attrs in Hf; simpl in Hf;
      injection Hf as -> -> -> -> -> -> -> ->
  end.

(** Inversion of a run that returned, statement by statement. *)
Ltac method_inv Hframe H :=
  cbv beta in H; md_attrs_simpl H;
  lazymatch type of H with
  | run_method (mbind _ _) _ = _ =>
      let H1 := fresh "Hstep" in
      apply run_method_bind_ok in H as (? & ? & ? & ? & H1 & H & ->);
      method_inv Hframe H1; method_inv Hframe H
  | run_method (method_attr _) _ = _ =>
      apply run_method_attr_ok in H as (-> & -> & ->)
  | run_method (method_attr_opt _) _ = _ =>
      apply run_method_attr_opt_ok in H as (-> & -> & H)
  | run_method (method_update _) _ = _ =>
      apply run_method_update_ok in H as (-> & ->)
  | run_method (method_do _ _) _ = _ =>
      apply run_method_do_ok in H as (-> & H); md_frame_of Hframe H
  | run_method (method_call _ _) _ = _ =>
      apply run_method_call_ok in H as (-> & H); md_frame_of Hframe H
  | run_method (mret _) _ = _ =>
      apply run_method_ret_ok in H as (-> & -> & H); subst
  | run_method (method_raise _) _ = _ => discriminate H
  | run_method (let '(_, _) := ?p in _) _ = _ =>
      destruct p; method_inv Hframe H
  | run_method (if bool_decide ?P then _ else _) _ = _ =>
      destruct (decide P);
      [ rewrite bool_decide_eq_true_2 in H by done
      | rewrite bool_decide_eq_false_2 in H by done ];
      method_inv Hframe H
  | run_method (if ?b then _ else _) _ = _ =>
      destruct b eqn:?; method_inv Hframe H
  | _ => idtac
  end.

Lemma pymax3_ge (a b c : F) :
  (pymax3 a b c <? a)%flt = false ∧ (pymax3 a b c <? b)%flt = false ∧
  (pymax3 a b c <? c)%flt = false.
Proof.
  unfold pymax3. repeat split.
  - eapply f_nlt_trans; apply pymax_ge_l.
  - eapply f_nlt_trans; [apply pymax_ge_r | apply pymax_ge_l].
  - apply pymax_ge_r.
Qed.

(** Dimensional splitting in two dimensions, with collaborators that rebind
    no attribute of the solver.  Whenever the step returns, it has applied
    the boundary conditions, copied [qbc], swept in direction 1 from the
    copy into [qbc] and in direction 2 with the array that the first sweep
    returned as both [qold] and [qnew], every time with the normal Riemann
    solver in the place of the transverse one; [qold] of the first sweep is
    the array that the copy of [qbc] gave, and every call starts where the
    call before it ended.  The CFL number given to the
    tracker is that of one of the sweeps and not below either, and the array
    that the second sweep returned is bound to [qbc] and copied back. *)
Theorem step_hyperbolic_2d_split s log s' :
  md_frame ext →
  md_dimensional_split s = true →
  run_method (step_hyperbolic_2d ext) s = (log, s', Ok ()) →
  ∃ rpn2 qold q1 cfl_x q2 cfl_y aux s1 s2 s3 s4,
    md_rpn s = Some rpn2 ∧
    md_apply_bcs ext s = Ok s1 ∧
    md_copy ext (md_qbc s) s1 = Ok (qold, s2) ∧
    md_step2ds ext 1 qold (md_qbc s) rpn2 rpn2 s2 = Ok (q1, cfl_x, s3) ∧
    md_step2ds ext 2 q1 q1 rpn2 rpn2 (with_qbc q1 s3) = Ok (q2, cfl_y, s4) ∧
    log = [MdApplyBcs; MdCopy (md_qbc s);
           MdStep2ds 1 qold (md_qbc s) rpn2 rpn2;
           MdStep2ds 2 q1 q1 rpn2 rpn2;
           MdUpdateGlobalMax (pymax cfl_x cfl_y);
           MdSetQFromQbc (md_num_ghost s) q2] ++ aux ∧
    (aux = [] ∨ aux = [MdSetAuxFromAuxbc (md_num_ghost s)]) ∧
    md_qbc s' = q2 ∧
    (pymax cfl_x cfl_y = cfl_x ∨ pymax cfl_x cfl_y = cfl_y) ∧
    (pymax cfl_x cfl_y <? cfl_x)%flt = false ∧
    (pymax cfl_x cfl_y <? cfl_y)%flt = false.
Proof.
  intros Hframe Hsplit Hrun.
  unfold step_hyperbolic_2d, split_or_no_transverse, md_finish in Hrun.
  method_inv Hframe Hrun; try done.
  all: match goal with
       | Hrpn : md_rpn _ = Some ?rpn2,
         Hx : md_step2ds _ 1 ?qold _ _ _ _ = Ok (?q1, ?cfl_x, _),
         Hy : md_step2ds _ 2 _ _ _ _ _ = Ok (?q2, ?cfl_y, _) |- _ =>
           simpl in Hrpn;
           eexists rpn2, qold, q1, cfl_x, q2, cfl_y, _, _, _, _, _;
           split; [exact Hrpn|];
           split; [eassumption|];
           split; [eassumption|];
           split; [exact Hx|];
           split; [exact Hy|];
           simpl;
           repeat split;
             eauto using pymax_ge_l, pymax_ge_r, pymax_cases
       end.
Qed.

(** The unsplit algorithm in two dimensions, with collaborators that rebind
    no attribute of the solver.  Whenever the step returns, it has called
    [step2] once, from the copy of [qbc] into [qbc] ([qold] is the array
    that the copy gave), given its CFL number to the tracker, and bound the
    array it returned to [qbc] and copied it back.  With [transverse_waves] zero the normal Riemann solver stands in
    for the transverse one, which the Riemann solver need not have;
    otherwise the transverse solver is passed. *)
Theorem step_hyperbolic_2d_unsplit s log s' :
  md_frame ext →
  md_dimensional_split s = false →
  run_method (step_hyperbolic_2d ext) s = (log, s', Ok ()) →
  ∃ rpn2 rpt2 qold q cfl aux s1 s2 s3,
    md_rpn s = Some rpn2 ∧
    (if bool_decide (md_transverse_waves s = 0)
     then rpt2 = rpn2 else md_rpt s = Some rpt2) ∧
    md_apply_bcs ext s = Ok s1 ∧
    md_copy ext (md_qbc s) s1 = Ok (qold, s2) ∧
    md_step2 ext qold (md_qbc s) rpn2 rpt2 s2 = Ok (q, cfl, s3) ∧
    log = [MdApplyBcs; MdCopy (md_qbc s);
           MdStep2 qold (md_qbc s) rpn2 rpt2;
           MdUpdateGlobalMax cfl;
           MdSetQFromQbc (md_num_ghost s) q] ++ aux ∧
    (aux = [] ∨ aux = [MdSetAuxFromAuxbc (md_num_ghost s)]) ∧
    md_qbc s' = q.
Proof.
  intros Hframe Hsplit Hrun.
  unfold step_hyperbolic_2d, split_or_no_transverse, md_finish in Hrun.
  method_inv Hframe Hrun; try done.
  all: match goal with
       | Hrpn : md_rpn _ = Some ?rpn2,
         Hx : md_step2 _ ?qold _ _ ?rpt2 _ = Ok (?q, ?cfl, _) |- _ =>
           simpl in *;
           eexists rpn2, rpt2, qold, q, cfl, _, _, _, _;
           split; [exact Hrpn|];
           split;
             [ by first [ rewrite bool_decide_eq_true_2 by done
                        | rewrite bool_decide_eq_false_2 by done ] |];
           split; [eassumption|];
           split; [eassumption|];
           split; [exact Hx|];
           simpl;
           repeat split; eauto
       end.
Qed.

(** An unsplit step in two dimensions with [transverse_waves] other than 0
    and a Riemann solver without a transverse solver raises
    [AttributeError] when the boundary conditions are applied and [qbc] is
    copied, before any Fortran routine is called. *)
Theorem step_hyperbolic_2d_needs_rpt2 s s1 s2 (qold : Arr) (rpn2 : Ptr) :
  md_kernel_language s = "Fortran" →
  md_apply_bcs ext s = Ok s1 →
  md_copy ext (md_qbc s1) s1 = Ok (qold, s2) →
  md_rpn s2 = Some rpn2 →
  md_rpt s2 = None →
  md_dimensional_split s2 = false →
  md_transverse_waves s2 ≠ 0 →
  run_method (step_hyperbolic_2d ext) s
  = ([MdApplyBcs; MdCopy (md_qbc s1)], s2, Fault (Raised "AttributeError")).
Proof.
  intros Hlang Hbcs Hcopy Hrpn Hrpt Hsplit Htw.
  unfold step_hyperbolic_2d, split_or_no_transverse.
  rewrite run_method_bind. simpl run_method at 1. cbv iota beta.
  rewrite bool_decide_eq_true_2 by done.
  rewrite run_method_bind, (run_method_do _ _ _ _ Hbcs).
  rewrite run_method_bind. simpl run_method at 1. cbv iota beta.
  rewrite run_method_bind, (run_method_call _ _ _ _ _ Hcopy).
  rewrite !run_method_bind. simpl.
  rewrite Hrpn, Hsplit. simpl.
  rewrite bool_decide_eq_false_2 by done. simpl.
  by rewrite Hrpt.
Qed.

(** Three dimensions, with collaborators that rebind no attribute of the
    solver.  Whenever the step returns, the array that [set_q_from_qbc]
    copies back is the one bound to [qbc] from the start: the arrays that
    the Fortran routines return are dropped, [qbc] is never rebound.  With
    dimensional splitting the sweeps run in the directions 1, 2, 3, the
    first from the copy into [qbc], each later one with the array that the
    sweep before it returned as both [qold] and [qnew], and the CFL number
    given to the tracker is below none of the three; without it [step3] is
    called once, from the copy into [qbc].  In both cases [qold] of the
    first call is the array that the copy of [qbc] gave, and every call
    starts where the call before it ended. *)
Theorem step_hyperbolic_3d_keeps_qbc s log s' :
  md_frame ext →
  run_method (step_hyperbolic_3d ext) s = (log, s', Ok ()) →
  ∃ fortran_calls cfl aux rpn3 qold s1 s2,
    log = [MdApplyBcs; MdCopy (md_qbc s)] ++ fortran_calls
          ++ [MdUpdateGlobalMax cfl;
              MdSetQFromQbc (md_num_ghost s) (md_qbc s)] ++ aux ∧
    (aux = [] ∨ aux = [MdSetAuxFromAuxbc (md_num_ghost s)]) ∧
    md_qbc s' = md_qbc s ∧
    md_rpn s = Some rpn3 ∧
    md_apply_bcs ext s = Ok s1 ∧
    md_copy ext (md_qbc s) s1 = Ok (qold, s2) ∧
    if md_dimensional_split s
    then ∃ q1 q2 q3 cfl_x cfl_y cfl_z s3 s4 s5,
           fortran_calls
           = [MdStep3ds 1 qold (md_qbc s) rpn3 rpn3 rpn3;
              MdStep3ds 2 q1 q1 rpn3 rpn3 rpn3;
              MdStep3ds 3 q2 q2 rpn3 rpn3 rpn3] ∧
           cfl = pymax3 cfl_x cfl_y cfl_z ∧
           md_step3ds ext 1 qold (md_qbc s) rpn3 rpn3 rpn3 s2
           = Ok (q1, cfl_x, s3) ∧
           md_step3ds ext 2 q1 q1 rpn3 rpn3 rpn3 s3 = Ok (q2, cfl_y, s4) ∧
           md_step3ds ext 3 q2 q2 rpn3 rpn3 rpn3 s4 = Ok (q3, cfl_z, s5) ∧
           (cfl <? cfl_x)%flt = false ∧ (cfl <? cfl_y)%flt = false ∧
           (cfl <? cfl_z)%flt = false
    else ∃ rpt3 rptt3 q s3,
           fortran_calls = [MdStep3 qold (md_qbc s) rpn3 rpt3 rptt3] ∧
           (if bool_decide (md_transverse_waves s = 0)
            then rpt3 = rpn3 ∧ rptt3 = rpn3
            else md_rpt s = Some rpt3 ∧ md_rptt s = Some rptt3) ∧
           md_step3 ext qold (md_qbc s) rpn3 rpt3 rptt3 s2 = Ok (q, cfl, s3).
Proof.
  intros Hframe Hrun.
  unfold step_hyperbolic_3d, split_or_no_transverse, md_finish in Hrun.
  method_inv Hframe Hrun; try done.
  all: simpl in *.
  all: lazymatch goal with
       | Hsplit : md_dimensional_split _ = true |- _ =>
           try rewrite Hsplit;
           match goal with
           | Hrpn : md_rpn _ = Some ?rpn3,
             Hx : md_step3ds _ 1 ?qold _ _ _ _ _ = Ok (_, ?cfl_x, _),
             Hy : md_step3ds _ 2 _ _ _ _ _ _ = Ok (_, ?cfl_y, _),
             Hz : md_step3ds _ 3 _ _ _ _ _ _ = Ok (_, ?cfl_z, _) |- _ =>
               eexists [_; _; _], _, _, rpn3, qold, _, _;
               split; [reflexivity|]; split; [eauto|]; split; [done|];
               split; [exact Hrpn|];
               split; [eassumption|]; split; [eassumption|];
               eexists _, _, _, cfl_x, cfl_y, cfl_z, _, _, _;
               split; [reflexivity|]; split; [reflexivity|];
               split; [exact Hx|]; split; [exact Hy|]; split; [exact Hz|];
               apply pymax3_ge
           end
       | Hsplit : md_dimensional_split _ = false |- _ =>
           try rewrite Hsplit;
           match goal with
           | Hrpn : md_rpn _ = Some ?rpn3,
             Hx : md_step3 _ ?qold _ _ ?rpt3 ?rptt3 _ = Ok (_, _, _) |- _ =>
               eexists [_], _, _, rpn3, qold, _, _;
               split; [reflexivity|]; split; [eauto|]; split; [done|];
               split; [exact Hrpn|];
               split; [eassumption|]; split; [eassumption|];
               eexists rpt3, rptt3, _, _;
               split; [reflexivity|];
               split;
                 [ first [ by rewrite bool_decide_eq_true_2 by done
                         | by rewrite bool_decide_eq_false_2 by done ] |];
               exact Hx
           end
       end.
Qed.

End Hyperbolic_step_multi_d_results.

Lemma sweep_ext_frame : md_frame sweep_ext.
Proof. by constructor; intros; simplify_eq/=. Qed.

(** Two sweeps on array 0: the copy is array 100, the first sweep returns
    array 1, the second array 3. *)
Lemma step_hyperbolic_2d_split_witness :
  ∃ rpn2 qold q1 cfl_x q2 cfl_y aux s1 s2 s3 s4,
    md_rpn (sweep_solver true 1) = Some rpn2 ∧
    md_apply_bcs sweep_ext (sweep_solver true 1) = Ok s1 ∧
    md_copy sweep_ext 0 s1 = Ok (qold, s2) ∧
    md_step2ds sweep_ext 1 qold 0 rpn2 rpn2 s2 = Ok (q1, cfl_x, s3) ∧
    md_step2ds sweep_ext 2 q1 q1 rpn2 rpn2 (with_qbc q1 s3)
    = Ok (q2, cfl_y, s4) ∧
    [MdApplyBcs; MdCopy 0; MdStep2ds 1 100 0 "rpn" "rpn";
     MdStep2ds 2 1 1 "rpn" "rpn";
     MdUpdateGlobalMax (pymax (qc 1 4) (qc 2 4)); MdSetQFromQbc 2 3]
    = [MdApplyBcs; MdCopy 0; MdStep2ds 1 qold 0 rpn2 rpn2;
       MdStep2ds 2 q1 q1 rpn2 rpn2; MdUpdateGlobalMax (pymax cfl_x cfl_y);
       MdSetQFromQbc 2 q2] ++ aux ∧
    (aux = [] ∨ aux = [MdSetAuxFromAuxbc 2]) ∧
    3 = q2 ∧
    (pymax cfl_x cfl_y = cfl_x ∨ pymax cfl_x cfl_y = cfl_y) ∧
    (pymax cfl_x cfl_y <? cfl_x)%flt = false ∧
    (pymax cfl_x cfl_y <? cfl_y)%flt = false.
Proof.
  apply (step_hyperbolic_2d_split sweep_ext (sweep_solver true 1) _
           (SolverMd "Fortran" true 1 2 3 (Some "rpn") None None ())
           sweep_ext_frame);
    reflexivity.
Defined.

(** One unsplit step without transverse waves on array 0. *)
Lemma step_hyperbolic_2d_unsplit_witness :
  ∃ rpn2 rpt2 qold q cfl aux s1 s2 s3,
    md_rpn (sweep_solver false 0) = Some rpn2 ∧
    (if bool_decide (md_transverse_waves (sweep_solver false 0) = 0)
     then rpt2 = rpn2 else md_rpt (sweep_solver false 0) = Some rpt2) ∧
    md_apply_bcs sweep_ext (sweep_solver false 0) = Ok s1 ∧
    md_copy sweep_ext 0 s1 = Ok (qold, s2) ∧
    md_step2 sweep_ext qold 0 rpn2 rpt2 s2 = Ok (q, cfl, s3) ∧
    [MdApplyBcs; MdCopy 0; MdStep2 100 0 "rpn" "rpn";
     MdUpdateGlobalMax (qc 1 2); MdSetQFromQbc 2 10]
    = [MdApplyBcs; MdCopy 0; MdStep2 qold 0 rpn2 rpt2;
       MdUpdateGlobalMax cfl; MdSetQFromQbc 2 q] ++ aux ∧
    (aux = [] ∨ aux = [MdSetAuxFromAuxbc 2]) ∧
    10 = q.
Proof.
  apply (step_hyperbolic_2d_unsplit sweep_ext (sweep_solver false 0) _
           (SolverMd "Fortran" false 0 2 10 (Some "rpn") None None ())
           sweep_ext_frame);
    reflexivity.
Defined.

(** Transverse increment waves with a Riemann solver that has only [rpn2]. *)
Lemma step_hyperbolic_2d_needs_rpt2_witness :
  run_method (step_hyperbolic_2d sweep_ext) (sweep_solver false 1)
  = ([MdApplyBcs; MdCopy 0], sweep_solver false 1,
     Fault (Raised "AttributeError")).
Proof.
  apply (step_hyperbolic_2d_needs_rpt2 sweep_ext (sweep_solver false 1)
           (sweep_solver false 1) (sweep_solver false 1) 100 "rpn");
    done.
Defined.

(** Three sweeps on array 0, which return the arrays 1, 3 and 6; array 0 is
    copied back. *)
Lemma step_hyperbolic_3d_keeps_qbc_witness :
  ∃ fortran_calls cfl aux rpn3 qold s1 s2,
    [MdApplyBcs; MdCopy 0; MdStep3ds 1 100 0 "rpn" "rpn" "rpn";
     MdStep3ds 2 1 1 "rpn" "rpn" "rpn"; MdStep3ds 3 3 3 "rpn" "rpn" "rpn";
     MdUpdateGlobalMax (pymax3 (qc 1 4) (qc 2 4) (qc 3 4));
     MdSetQFromQbc 2 0]
    = [MdApplyBcs; MdCopy 0] ++ fortran_calls
      ++ [MdUpdateGlobalMax cfl; MdSetQFromQbc 2 0] ++ aux ∧
    (aux = [] ∨ aux = [MdSetAuxFromAuxbc 2]) ∧
    0 = 0 ∧
    md_rpn (sweep_solver true 1) = Some rpn3 ∧
    md_apply_bcs sweep_ext (sweep_solver true 1) = Ok s1 ∧
    md_copy sweep_ext 0 s1 = Ok (qold, s2) ∧
    ∃ q1 q2 q3 cfl_x cfl_y cfl_z s3 s4 s5,
      fortran_calls
      = [MdStep3ds 1 qold 0 rpn3 rpn3 rpn3;
         MdStep3ds 2 q1 q1 rpn3 rpn3 rpn3;
         MdStep3ds 3 q2 q2 rpn3 rpn3 rpn3] ∧
      cfl = pymax3 cfl_x cfl_y cfl_z ∧
      md_step3ds sweep_ext 1 qold 0 rpn3 rpn3 rpn3 s2
      = Ok (q1, cfl_x, s3) ∧
      md_step3ds sweep_ext 2 q1 q1 rpn3 rpn3 rpn3 s3 = Ok (q2, cfl_y, s4) ∧
      md_step3ds sweep_ext 3 q2 q2 rpn3 rpn3 rpn3 s4 = Ok (q3, cfl_z, s5) ∧
      (cfl <? cfl_x)%flt = false ∧ (cfl <? cfl_y)%flt = false ∧
      (cfl <? cfl_z)%flt = false.
Proof.
  apply (step_hyperbolic_3d_keeps_qbc sweep_ext (sweep_solver true 1) _
           (sweep_solver true 1) sweep_ext_frame).
  reflexivity.
Defined.
